(** * dochandler: background task queue and resource ledger

    A shallow embedding of [background_processor.py] and
    [resource_manager.py], and the properties of the task queue, the
    dispatch loop and the resource bookkeeping that the specification
    states about them. *)

From Stdlib Require Import ZArith String List Lia.
From stdpp Require Import base decidable option list gmap strings sorting.

Local Open Scope Z_scope.
Local Open Scope string_scope.
Local Open Scope list_scope.

(* [set_solver] clears hypotheses that it has already used up. *)
#[local] Set Warnings "-clear-no-such-hyp".

(** ** Python values, exceptions and results *)

(** The Python objects that reach the code as positional arguments,
    keyword arguments and task results.  [VObj] stands for any other
    object, known by its identity. *)
Inductive value :=
| VNone
| VInt (z : Z)
| VStr (s : string)
| VObj (id : nat).

#[global] Instance value_eq_dec : EqDecision value.
Proof. solve_decision. Defined.

(** Exceptions deriving from [Exception], by class, with their message. *)
Inductive exn :=
| TypeError (msg : string)
| AttributeError (msg : string)
| IndexError (msg : string)
| RuntimeError (msg : string)
| OSError (msg : string)
| QueueEmpty
| Exception (msg : string).

#[global] Instance exn_eq_dec : EqDecision exn.
Proof. solve_decision. Defined.

(** [str(e)] *)
Definition str_exn (e : exn) : string :=
  match e with
  | TypeError m | AttributeError m | IndexError m
  | RuntimeError m | OSError m | Exception m => m
  | QueueEmpty => ""
  end.

(** A statement either completes with a value or raises. *)
Inductive result (A : Type) :=
| Ok (a : A)
| Raise (e : exn).
Arguments Ok {A} a.
Arguments Raise {A} e.

Definition is_ok {A} (r : result A) : bool :=
  match r with Ok _ => true | Raise _ => false end.

(** ** heapq on a Python list

    [queue.PriorityQueue] keeps its entries in a list ordered by
    CPython's [heapq] ([_heapq.heappush], [_heapq.heappop]); the entries
    are compared with [<], which may raise.  The sift loops swap in place,
    so the list keeps what was done when a comparison raises. *)
Module HeapQ.
Section HeapQ.
Context {A : Type}.
(** [a < b] on entries. *)
Variable lt : A -> A -> result bool.

Definition swap (heap : list A) (i j : nat) : list A :=
  match heap !! i, heap !! j with
  | Some a, Some b => <[i := b]> (<[j := a]> heap)
  | _, _ => heap
  end.

(** [siftdown(heap, startpos, pos)]: move the entry at [pos] up while it
    is smaller than its parent.  Every turn at least halves [pos], so
    [pos] turns are enough. *)
Fixpoint siftdown_loop (fuel : nat) (heap : list A) (startpos pos : nat)
  : list A * result unit :=
  match fuel with
  | O => (heap, Ok tt)
  | S fuel' =>
    if decide (startpos < pos)%nat then
      let parentpos := ((pos - 1) / 2)%nat in
      match heap !! pos, heap !! parentpos with
      | Some newitem, Some parent =>
        match lt newitem parent with
        | Raise e => (heap, Raise e)
        | Ok false => (heap, Ok tt)
        | Ok true => siftdown_loop fuel' (swap heap parentpos pos) startpos parentpos
        end
      | _, _ => (heap, Raise (IndexError "index out of range"))
      end
    else (heap, Ok tt)
  end.

Definition siftdown (heap : list A) (startpos pos : nat) : list A * result unit :=
  if decide (pos < length heap)%nat
  then siftdown_loop pos heap startpos pos
  else (heap, Raise (IndexError "index out of range")).

(** The first loop of [siftup(heap, pos)]: bubble the smaller child up
    until a leaf is reached; gives the list and the leaf position. *)
Fixpoint siftup_loop (fuel : nat) (heap : list A) (pos : nat)
  : list A * result nat :=
  match fuel with
  | O => (heap, Ok pos)
  | S fuel' =>
    let endpos := length heap in
    let limit := (endpos / 2)%nat in
    if decide (pos < limit)%nat then
      let childpos := (2 * pos + 1)%nat in
      let chosen :=
        if decide (childpos + 1 < endpos)%nat then
          match heap !! childpos, heap !! (childpos + 1)%nat with
          | Some a, Some b =>
            match lt a b with
            | Raise e => Raise e
            | Ok true => Ok childpos
            | Ok false => Ok (childpos + 1)%nat
            end
          | _, _ => Raise (IndexError "index out of range")
          end
        else Ok childpos in
      match chosen with
      | Raise e => (heap, Raise e)
      | Ok c => siftup_loop fuel' (swap heap c pos) c
      end
    else (heap, Ok pos)
  end.

Definition siftup (heap : list A) (pos : nat) : list A * result unit :=
  if decide (pos < length heap)%nat then
    match siftup_loop (length heap) heap pos with
    | (heap', Raise e) => (heap', Raise e)
    | (heap', Ok leaf) => siftdown heap' pos leaf
    end
  else (heap, Raise (IndexError "index out of range")).

(** [heappush(heap, item)] *)
Definition heappush (heap : list A) (item : A) : list A * result unit :=
  let heap1 := heap ++ [item] in
  siftdown heap1 0 (length heap1 - 1).

(** [heappop(heap)]: the last entry is taken off first; when the sift
    raises, the former root is in neither the list nor the result. *)
Definition heappop (heap : list A) : list A * result A :=
  match last heap with
  | None => (heap, Raise (IndexError "index out of range"))
  | Some lastelt =>
    let heap1 := take (length heap - 1) heap in
    match heap1 with
    | [] => (heap1, Ok lastelt)
    | returnitem :: rest =>
      match siftup (lastelt :: rest) 0 with
      | (heap2, Raise e) => (heap2, Raise e)
      | (heap2, Ok _) => (heap2, Ok returnitem)
      end
    end
  end.
End HeapQ.
End HeapQ.

(** ** The order that [heapq] keeps *)
Module HeapOrder.
(** The index of the parent of [i] in the heap list. *)
Definition parent (i : nat) : nat := ((i - 1) / 2)%nat.

Section HeapOrder.
Context {A : Type} (key : A -> Z).

(** The entry at [i] is not below its parent. *)
Definition edge_ok (h : list A) (i : nat) : Prop :=
  forall x y, h !! i = Some x -> h !! parent i = Some y -> key y <= key x.

(** The heap invariant of [heapq]: [heap[k] <= heap[2*k+1]] and
    [heap[k] <= heap[2*k+2]]. *)
Definition heap_ordered (h : list A) : Prop :=
  forall i, (0 < i)%nat -> edge_ok h i.

(** The invariant but for the entry at [pos], which may be smaller than
    its parent; its children are not below its parent. *)
Definition ordered_but_up (h : list A) (pos : nat) : Prop :=
  (forall i, (0 < i)%nat -> i <> pos -> edge_ok h i) /\
  (forall i x y, (0 < pos)%nat -> (0 < i)%nat -> parent i = pos ->
     h !! i = Some x -> h !! parent pos = Some y -> key y <= key x).

(** The invariant but for the entry at [pos], which compares in no way
    with its parent and its children; its children are not below its parent. *)
Definition ordered_but_at (h : list A) (pos : nat) : Prop :=
  (forall i, (0 < i)%nat -> i <> pos -> parent i <> pos -> edge_ok h i) /\
  (forall i x y, (0 < pos)%nat -> (0 < i)%nat -> parent i = pos ->
     h !! i = Some x -> h !! parent pos = Some y -> key y <= key x).
End HeapOrder.
End HeapOrder.

(** ** background_processor.py *)
Module Processor.

Inductive TaskType :=
| FILE_CONVERSION
| TEXT_EXTRACTION
| FILE_ORGANIZATION.

#[global] Instance TaskType_eq_dec : EqDecision TaskType.
Proof. solve_decision. Defined.

(** The dataclass [Task].  Callables are known by their identity, which
    is what the generated [__eq__] compares them by. *)
Record Task := mkTask {
  type : TaskType;
  func : nat;
  args : list value;
  kwargs : gmap string value;
  callback : option nat
}.

#[global] Instance Task_eq_dec : EqDecision Task.
Proof. solve_decision. Defined.

(** An entry of the priority queue: the tuple [(priority, task)]. *)
Definition entry : Type := Z * Task.

(** [a < b] on two such tuples: the first components decide when they
    differ; when they are equal the tasks are compared, first with the
    dataclass [__eq__], then with [<], which [Task] does not define. *)
Definition entry_lt (a b : entry) : result bool :=
  if decide (a.1 = b.1) then
    if decide (a.2 = b.2) then Ok false
    else Raise (TypeError "'<' not supported between instances of 'Task' and 'Task'")
  else Ok (bool_decide (a.1 < b.1)).

(** The three signals of the processor, with what they carry. *)
Inductive signal :=
| task_completed (ty : TaskType) (res : value)
| task_failed (ty : TaskType) (msg : string)
| progress_updated (progress : Z).

(** One constructor for each logging call of the module. *)
Inductive log_record :=
| InfoAlreadyProcessed (file_path : string)
| DebugAddedTask (priority : Z) (ty : TaskType)
| InfoProcessingTask (ty : TaskType)
| ErrorTaskExecutionFailed (msg : string)
| ErrorTaskProcessingFailed (msg : string)
| WarningTaskDropped (ty : TaskType).

(** The processor: its attributes, the frame of [run] (the local [task]
    and whether the loop waits in [future.result()]), and what it has done
    to the outside: tasks submitted to the executor, signals and logs. *)
Record BackgroundProcessor := mkBP {
  task_queue : list entry;
  running : bool;
  _processed_files : gset string;
  executor_shutdown : bool;
  run_task : option Task;
  awaiting_result : bool;
  submitted : list Task;
  emitted : list signal;
  logged : list log_record
}.

(** [__init__] *)
Definition init : BackgroundProcessor :=
  {| task_queue := []; running := true; _processed_files := ∅;
     executor_shutdown := false; run_task := None; awaiting_result := false;
     submitted := []; emitted := []; logged := [] |}.

Definition set_queue (q : list entry) (s : BackgroundProcessor) :=
  mkBP q (running s) (_processed_files s) (executor_shutdown s) (run_task s)
       (awaiting_result s) (submitted s) (emitted s) (logged s).
Definition set_processed (f : gset string) (s : BackgroundProcessor) :=
  mkBP (task_queue s) (running s) f (executor_shutdown s) (run_task s)
       (awaiting_result s) (submitted s) (emitted s) (logged s).
Definition log (r : log_record) (s : BackgroundProcessor) :=
  mkBP (task_queue s) (running s) (_processed_files s) (executor_shutdown s)
       (run_task s) (awaiting_result s) (submitted s) (emitted s) (logged s ++ [r]).
Definition emit (e : signal) (s : BackgroundProcessor) :=
  mkBP (task_queue s) (running s) (_processed_files s) (executor_shutdown s)
       (run_task s) (awaiting_result s) (submitted s) (emitted s ++ [e]) (logged s).
Definition set_frame (t : option Task) (w : bool) (s : BackgroundProcessor) :=
  mkBP (task_queue s) (running s) (_processed_files s) (executor_shutdown s)
       t w (submitted s) (emitted s) (logged s).
Definition submit (t : Task) (s : BackgroundProcessor) :=
  mkBP (task_queue s) (running s) (_processed_files s) (executor_shutdown s)
       (run_task s) (awaiting_result s) (submitted s ++ [t]) (emitted s) (logged s).

(** [update_progress] *)
Definition update_progress (progress : Z) (s : BackgroundProcessor) :=
  emit (progress_updated progress) s.

(** [args and isinstance(args[0], str)]: the string that leads [args]. *)
Definition leading_str (a : list value) : option string :=
  match a with
  | VStr p :: _ => Some p
  | _ => None
  end.

(** [is_processing_file]: some queued entry has [file_path] as its first
    positional argument. *)
Definition is_processing_file (file_path : string) (s : BackgroundProcessor) : bool :=
  existsb (fun item : entry => bool_decide (leading_str (args item.2) = Some file_path))
          (task_queue s).

(** [task_queue.put((priority, task))] *)
Definition put (item : entry) (s : BackgroundProcessor) : BackgroundProcessor * result unit :=
  let '(q, r) := HeapQ.heappush entry_lt (task_queue s) item in
  (set_queue q s, r).

(** [add_task].  [isfile] is [os.path.isfile] at the time of the call. *)
Definition add_task (isfile : string -> bool)
    (priority : Z) (task_type : TaskType) (fn : nat) (a : list value)
    (cb : option nat) (kw : gmap string value) (s : BackgroundProcessor)
  : BackgroundProcessor * result unit :=
  let enqueue (s0 : BackgroundProcessor) :=
    let task := mkTask task_type fn a kw cb in
    match put (priority, task) s0 with
    | (s1, Raise e) => (s1, Raise e)
    | (s1, Ok _) => (log (DebugAddedTask priority task_type) s1, Ok tt)
    end in
  match leading_str a with
  | Some file_path =>
    if isfile file_path then
      if bool_decide (file_path ∈ _processed_files s) || is_processing_file file_path s
      then (log (InfoAlreadyProcessed file_path) s, Ok tt)
      else enqueue (set_processed ({[file_path]} ∪ _processed_files s) s)
    else enqueue s
  | None => enqueue s
  end.

(** [task_queue.get(timeout=1)] and [get_nowait()]: [queue.Empty] when
    nothing is queued (for [get], once the wait has timed out). *)
Definition get (s : BackgroundProcessor) : BackgroundProcessor * result entry :=
  match task_queue s with
  | [] => (s, Raise QueueEmpty)
  | _ =>
    let '(q, r) := HeapQ.heappop entry_lt (task_queue s) in
    (set_queue q s, r)
  end.

(** What [future.result()] and the callback do for the submitted task:
    the body raises, or it returns [res] and the callback, when the task
    has one, raises [cb_raises] or returns. *)
Inductive outcome :=
| BodyRaised (e : exn)
| BodyReturned (res : value) (cb_raises : option exn).

(** The handler [except Exception as task_error] of the inner [try]. *)
Definition on_task_error (task : Task) (e : exn) (s : BackgroundProcessor) :=
  let s1 := log (ErrorTaskExecutionFailed (str_exn e)) s in
  let s2 := emit (task_failed (type task) (str_exn e)) s1 in
  match leading_str (args task) with
  | Some p => set_processed (_processed_files s2 ∖ {[p]}) s2
  | None => s2
  end.

(** The handler [except Exception as e] of the outer [try]:
    [task] is whatever the local was last bound to. *)
Definition on_loop_error (e : exn) (s : BackgroundProcessor) :=
  let s1 := log (ErrorTaskProcessingFailed (str_exn e)) s in
  match run_task s1 with
  | Some task => emit (task_failed (type task) (str_exn e)) s1
  | None => s1
  end.

(** [run], first half of a turn of the loop: the test of [self.running],
    the [get], the log line and [executor.submit].  The second component
    is an exception leaving [run]. *)
Definition run_get (s : BackgroundProcessor) : BackgroundProcessor * result unit :=
  if running s && negb (awaiting_result s) then
    match get s with
    | (s1, Raise QueueEmpty) => (s1, Ok tt)
    | (s1, Raise e) => (on_loop_error e s1, Ok tt)
    | (s1, Ok (_, task)) =>
      let s2 := log (InfoProcessingTask (type task)) (set_frame (Some task) false s1) in
      if executor_shutdown s2
      then (on_loop_error (RuntimeError "cannot schedule new futures after shutdown") s2, Ok tt)
      else (set_frame (Some task) true (submit task s2), Ok tt)
    end
  else (s, Ok tt).

(** [run], second half of the turn: [future.result()], the callback, the
    signal, and the inner handler. *)
Definition run_result (o : outcome) (s : BackgroundProcessor)
  : BackgroundProcessor * result unit :=
  if awaiting_result s then
    match run_task s with
    | Some task =>
      let s0 := set_frame (Some task) false s in
      match o with
      | BodyRaised e => (on_task_error task e s0, Ok tt)
      | BodyReturned res cb_raises =>
        match callback task, cb_raises with
        | Some _, Some e => (on_task_error task e s0, Ok tt)
        | _, _ => (emit (task_completed (type task) res) s0, Ok tt)
        end
      end
    | None => (s, Ok tt)
    end
  else (s, Ok tt).

(** A whole turn of the loop, for a task whose body ends with [o]. *)
Definition run_iteration (o : outcome) (s : BackgroundProcessor)
  : BackgroundProcessor * result unit :=
  match run_get s with
  | (s1, Raise e) => (s1, Raise e)
  | (s1, Ok _) => run_result o s1
  end.

(** The loop of [stop] that empties the queue: a task that [get_nowait]
    gives is logged as dropped, an exception of [get_nowait] is passed
    over.  Each turn takes one entry off the list. *)
Fixpoint drain (fuel : nat) (s : BackgroundProcessor) : BackgroundProcessor :=
  match fuel with
  | O => s
  | S fuel' =>
    match task_queue s with
    | [] => s
    | _ =>
      match get s with
      | (s1, Ok (_, task)) => drain fuel' (log (WarningTaskDropped (type task)) s1)
      | (s1, Raise _) => drain fuel' s1
      end
    end
  end.

(** [stop].  [executor.shutdown(wait=True)] and [self.wait()] block the
    caller; what they leave behind is the shut-down executor. *)
Definition stop (s : BackgroundProcessor) : BackgroundProcessor :=
  let s1 := mkBP (task_queue s) false (_processed_files s) true (run_task s)
                 (awaiting_result s) (submitted s) (emitted s) (logged s) in
  let s2 := drain (length (task_queue s1)) s1 in
  set_processed ∅ s2.
End Processor.

(** ** resource_manager.py *)
Module Resources.

(** The disk as the manager sees it through [os], [shutil] and
    [tempfile]: regular files and directories, each with its
    modification time. *)
Record filesystem := mkFS {
  files : gmap string Z;
  dirs : gmap string Z
}.

(** [os.path.exists] *)
Definition os_path_exists (p : string) (fs : filesystem) : bool :=
  bool_decide (is_Some (files fs !! p)) || bool_decide (is_Some (dirs fs !! p)).

(** [os.path.getmtime] *)
Definition os_path_getmtime (p : string) (fs : filesystem) : result Z :=
  match files fs !! p, dirs fs !! p with
  | Some t, _ => Ok t
  | None, Some t => Ok t
  | None, None => Raise (OSError "No such file or directory")
  end.

(** [os.remove]: unlinks a regular file, raises on anything else. *)
Definition os_remove (p : string) (fs : filesystem) : filesystem * result unit :=
  match files fs !! p with
  | Some _ => (mkFS (delete p (files fs)) (dirs fs), Ok tt)
  | None =>
    if bool_decide (is_Some (dirs fs !! p))
    then (fs, Raise (OSError "Is a directory"))
    else (fs, Raise (OSError "No such file or directory"))
  end.

(** [p] lies below the directory [d]. *)
Definition inside (d p : string) : bool :=
  String.prefix (d ++ "/") p || String.prefix (d ++ "\") p.

(** [shutil.rmtree(d, ignore_errors=True)] *)
Definition shutil_rmtree (d : string) (fs : filesystem) : filesystem :=
  match dirs fs !! d with
  | Some _ =>
    mkFS (filter (fun kv : string * Z => inside d kv.1 = false) (files fs))
         (filter (fun kv : string * Z => inside d kv.1 = false) (delete d (dirs fs)))
  | None => fs
  end.

(** [tempfile.NamedTemporaryFile(delete=False)] followed by [close()],
    and [tempfile.mkdtemp()], for the name the module has picked. *)
Definition create_file (name : string) (now : Z) (fs : filesystem) : filesystem :=
  mkFS (<[name := now]> (files fs)) (dirs fs).
Definition create_dir (name : string) (now : Z) (fs : filesystem) : filesystem :=
  mkFS (files fs) (<[name := now]> (dirs fs)).

(** What [win32com.client.DispatchEx] hands back: an automation object,
    with the attributes the manager probes with [hasattr]. *)
Record com_object := mkCom {
  oid : nat;
  has_Visible : bool;
  has_DisplayAlerts : bool;
  has_Quit : bool;
  quit_raises : option exn
}.

(** The logging calls of the module. *)
Inductive warning :=
| AttemptFailed (attempt : nat) (com_class : string) (e : exn)
| QuitFailed (com_class : string) (e : exn)
| RemoveDirectoryFailed (directory : string) (e : exn)
| RemoveFileFailed (file_path : string) (e : exn).

(** The calls that act on the outside, in the order they are made. *)
Inductive effect :=
| CoInitialize
| CoUninitialize
| DispatchEx (com_class : string)
| SetVisible (obj : nat) (visible : bool)
| SetDisplayAlerts (obj : nat) (on : bool)
| Quit (obj : nat)
| Sleep (seconds : Z)
| Remove (file_path : string)
| Rmtree (directory : string)
| SingleShot (msec : Z)
| Warning (w : warning).

(** The attributes that [__init__] binds on the instance. *)
Record ResourceManager := mkRM {
  _temp_directories : gset string;
  _temp_files : gset string;
  _com_objects : gset nat;
  _cleanup_scheduled : bool;
  _max_resource_age : Z;
  _resource_timestamps : gmap nat Z;
  _max_retries : nat;
  _retry_delay : Z
}.

(** [__init__] *)
Definition init : ResourceManager :=
  {| _temp_directories := ∅; _temp_files := ∅; _com_objects := ∅;
     _cleanup_scheduled := false; _max_resource_age := 3600;
     _resource_timestamps := ∅; _max_retries := 3; _retry_delay := 1 |}.

(** Every name that an instance answers to: the eight attributes of
    [__init__] and the methods of the class. *)
Definition instance_attributes : list string :=
  [ "_temp_directories"; "_temp_files"; "_com_objects"; "_cleanup_scheduled";
    "_max_resource_age"; "_resource_timestamps"; "_max_retries"; "_retry_delay";
    "manage_com_object"; "temp_directory"; "temp_file"; "busy_cursor";
    "cleanup_directory"; "cleanup_file"; "schedule_cleanup"; "cleanup_all";
    "_cleanup_old_resources" ].

(** The manager, the disk and the calls made so far. *)
Record world := mkWorld {
  self : ResourceManager;
  disk : filesystem;
  trace : list effect
}.

(** Statements: they change the world and complete or raise. *)
Definition M (A : Type) : Type := world -> world * result A.

Definition ret {A} (a : A) : M A := fun w => (w, Ok a).
Definition raise {A} (e : exn) : M A := fun w => (w, Raise e).
Definition bind {A B} (c : M A) (k : A -> M B) : M B :=
  fun w => match c w with
           | (w1, Ok a) => k a w1
           | (w1, Raise e) => (w1, Raise e)
           end.
(** [try: c  except Exception as e: h e] *)
Definition try_except {A} (c : M A) (h : exn -> M A) : M A :=
  fun w => match c w with
           | (w1, Ok a) => (w1, Ok a)
           | (w1, Raise e) => h e w1
           end.
(** [try: c  finally: f] *)
Definition try_finally {A} (c : M A) (f : M unit) : M A :=
  fun w => match c w with
           | (w1, r) =>
             match f w1 with
             | (w2, Ok _) => (w2, r)
             | (w2, Raise e) => (w2, Raise e)
             end
           end.

Notation "x <- c ;; k" := (bind c (fun x => k))
  (at level 100, c at next level, right associativity).
Notation "c ;; k" := (bind c (fun _ => k))
  (at level 100, right associativity).

Definition do (e : effect) : M unit :=
  fun w => (mkWorld (self w) (disk w) (trace w ++ [e]), Ok tt).
Definition update (f : ResourceManager -> ResourceManager) : M unit :=
  fun w => (mkWorld (f (self w)) (disk w) (trace w), Ok tt).
Definition read {A} (f : world -> A) : M A := fun w => (w, Ok (f w)).
Definition when (b : bool) (c : M unit) : M unit := if b then c else ret tt.

(** [getattr(self, name)], as far as it can fail. *)
Definition getattr (name : string) : M unit :=
  if bool_decide (name ∈ instance_attributes) then ret tt
  else raise (AttributeError
    ("'ResourceManager' object has no attribute '" ++ name ++ "'")).

Definition set_temp_directories (d : gset string) (m : ResourceManager) :=
  mkRM d (_temp_files m) (_com_objects m) (_cleanup_scheduled m)
       (_max_resource_age m) (_resource_timestamps m) (_max_retries m) (_retry_delay m).
Definition set_temp_files (f : gset string) (m : ResourceManager) :=
  mkRM (_temp_directories m) f (_com_objects m) (_cleanup_scheduled m)
       (_max_resource_age m) (_resource_timestamps m) (_max_retries m) (_retry_delay m).
Definition set_com_objects (c : gset nat) (m : ResourceManager) :=
  mkRM (_temp_directories m) (_temp_files m) c (_cleanup_scheduled m)
       (_max_resource_age m) (_resource_timestamps m) (_max_retries m) (_retry_delay m).
Definition set_cleanup_scheduled (b : bool) (m : ResourceManager) :=
  mkRM (_temp_directories m) (_temp_files m) (_com_objects m) b
       (_max_resource_age m) (_resource_timestamps m) (_max_retries m) (_retry_delay m).
Definition set_resource_timestamps (t : gmap nat Z) (m : ResourceManager) :=
  mkRM (_temp_directories m) (_temp_files m) (_com_objects m) (_cleanup_scheduled m)
       (_max_resource_age m) t (_max_retries m) (_retry_delay m).

(** The [finally] clause of a turn of the loop in [manage_com_object]. *)
Definition release_com (com_class : string) (obj : option com_object) : M unit :=
  match obj with
  | Some o =>
    try_except
      (when (has_Quit o)
         (do (Quit (oid o)) ;;
          match quit_raises o with Some e => raise e | None => ret tt end))
      (fun quit_error => do (Warning (QuitFailed com_class quit_error))) ;;
    update (fun m => set_com_objects (_com_objects m ∖ {[oid o]}) m)
  | None => ret tt
  end ;;
  do CoUninitialize.

(** The [try] clause of a turn, up to the [yield]. *)
Definition connect (dispatch : nat -> result com_object) (now : Z)
    (com_class : string) (visible : bool) (attempt : nat) : M com_object :=
  do CoInitialize ;;
  do (DispatchEx com_class) ;;
  match dispatch attempt with
  | Raise e => raise e
  | Ok o =>
    when (has_Visible o) (do (SetVisible (oid o) visible)) ;;
    when (has_DisplayAlerts o) (do (SetDisplayAlerts (oid o) false)) ;;
    update (fun m => set_com_objects ({[oid o]} ∪ _com_objects m) m) ;;
    update (fun m => set_resource_timestamps (<[oid o := now]> (_resource_timestamps m)) m) ;;
    ret o
  end.

(** [for attempt in range(self._max_retries)], from [attempt] on with
    [todo] turns left, up to the first [yield]: the object given to the
    [with] block together with the turn that gave it.  A generator that
    ends without a [yield] makes [contextmanager] raise. *)
Fixpoint attempts (dispatch : nat -> result com_object) (now : Z)
    (com_class : string) (visible : bool) (todo attempt : nat) : M (nat * com_object) :=
  match todo with
  | O => raise (RuntimeError "generator didn't yield")
  | S todo' =>
    fun w =>
      match connect dispatch now com_class visible attempt w with
      | (w1, Ok o) => (w1, Ok (attempt, o))
      | (w1, Raise e) =>
        let handler : M unit :=
          do (Warning (AttemptFailed (attempt + 1) com_class e)) ;;
          max_retries <- read (fun w => _max_retries (self w)) ;;
          if bool_decide (attempt = (max_retries - 1)%nat) then raise e
          else
            retry_delay <- read (fun w => _retry_delay (self w)) ;;
            do (Sleep (retry_delay * 2 ^ Z.of_nat attempt)) in
        match try_finally handler (release_com com_class None) w1 with
        | (w2, Raise e') => (w2, Raise e')
        | (w2, Ok _) => attempts dispatch now com_class visible todo' (S attempt) w2
        end
      end
  end.

(** [manage_com_object], entering the [with] statement: the generator
    runs to its first [yield]. *)
Definition manage_com_object (dispatch : nat -> result com_object) (now : Z)
    (com_class : string) (visible : bool) : M (nat * com_object) :=
  getattr "_temp_files_lock" ;;
  max_retries <- read (fun w => _max_retries (self w)) ;;
  attempts dispatch now com_class visible max_retries 0.

(** [manage_com_object], leaving a [with] block that ended normally:
    [break], then the [finally] clause. *)
Definition manage_com_object_exit (com_class : string) (o : com_object) : M unit :=
  release_com com_class (Some o).

(** [cleanup_directory] *)
Definition cleanup_directory (directory : string) : M unit :=
  tracked <- read (fun w => bool_decide (directory ∈ _temp_directories (self w))) ;;
  when tracked
    (try_finally
       (try_except
          (do (Rmtree directory) ;;
           fun w => (mkWorld (self w) (shutil_rmtree directory (disk w)) (trace w), Ok tt))
          (fun e => do (Warning (RemoveDirectoryFailed directory e))))
       (update (fun m => set_temp_directories (_temp_directories m ∖ {[directory]}) m))).

(** [cleanup_file] *)
Definition cleanup_file (file_path : string) : M unit :=
  tracked <- read (fun w => bool_decide (file_path ∈ _temp_files (self w))) ;;
  when tracked
    (try_finally
       (try_except
          (present <- read (fun w => os_path_exists file_path (disk w)) ;;
           when present
             (do (Remove file_path) ;;
              fun w => let '(fs, r) := os_remove file_path (disk w) in
                       (mkWorld (self w) fs (trace w), r)))
          (fun e => do (Warning (RemoveFileFailed file_path e))))
       (update (fun m => set_temp_files (_temp_files m ∖ {[file_path]}) m))).

(** The body of a [with] block: it uses the path it is given, works on
    the disk, and returns or raises. *)
Definition block : Type := string -> filesystem -> filesystem * result value.

Definition run_block (body : block) (path : string) : M value :=
  fun w => let '(fs, r) := body path (disk w) in (mkWorld (self w) fs (trace w), r).

(** [temp_directory], up to the [yield]; [temp_dir] is the name that
    [tempfile.mkdtemp] made. *)
Definition temp_directory_enter (temp_dir : string) (now : Z) : M string :=
  (fun w => (mkWorld (self w) (create_dir temp_dir now (disk w)) (trace w), Ok tt)) ;;
  update (fun m => set_temp_directories ({[temp_dir]} ∪ _temp_directories m) m) ;;
  ret temp_dir.

(** [with self.temp_directory() as d: body] *)
Definition temp_directory (temp_dir : string) (now : Z) (body : block) : M value :=
  d <- temp_directory_enter temp_dir now ;;
  try_finally (run_block body d) (cleanup_directory temp_dir).

(** [temp_file], up to the [yield]; [name] is [temp_file.name]. *)
Definition temp_file_enter (suffix : option string) (name : string) (now : Z) : M string :=
  (fun w => (mkWorld (self w) (create_file name now (disk w)) (trace w), Ok tt)) ;;
  update (fun m => set_temp_files ({[name]} ∪ _temp_files m) m) ;;
  ret name.

(** [with self.temp_file(suffix) as f: body] *)
Definition temp_file (suffix : option string) (name : string) (now : Z) (body : block)
  : M value :=
  f <- temp_file_enter suffix name now ;;
  try_finally (run_block body f) (cleanup_file name).

(** [schedule_cleanup] *)
Definition schedule_cleanup : M unit :=
  scheduled <- read (fun w => _cleanup_scheduled (self w)) ;;
  when (negb scheduled)
    (do (SingleShot 10000) ;;
     update (set_cleanup_scheduled true)).

(** [os.path.exists(p) and current_time - os.path.getmtime(p) > self._max_resource_age] *)
Definition expired (current_time : Z) (p : string) : M bool :=
  present <- read (fun w => os_path_exists p (disk w)) ;;
  if present then
    mtime <- (fun w => (w, os_path_getmtime p (disk w))) ;;
    max_age <- read (fun w => _max_resource_age (self w)) ;;
    ret (bool_decide (current_time - mtime > max_age))
  else ret false.

(** [for x in xs: if expired(x): cleanup(x)] *)
Fixpoint sweep (current_time : Z) (cleanup : string -> M unit) (xs : list string) : M unit :=
  match xs with
  | [] => ret tt
  | x :: xs' =>
    old <- expired current_time x ;;
    when old (cleanup x) ;;
    sweep current_time cleanup xs'
  end.

(** [cleanup_all]; [current_time] is [time.time()]. *)
Definition cleanup_all (current_time : Z) : M unit :=
  directories <- read (fun w => elements (_temp_directories (self w))) ;;
  sweep current_time cleanup_directory directories ;;
  file_paths <- read (fun w => elements (_temp_files (self w))) ;;
  sweep current_time cleanup_file file_paths ;;
  update (set_cleanup_scheduled false).

End Resources.

(** ** Histories of a processor

    The calls that reach one processor, from the threads that enqueue and
    stop and from the loop of [run], in the order in which they take
    effect. *)
Module History.
Import Processor.

Inductive action :=
| Enqueue (isfile : string -> bool) (priority : Z) (task_type : TaskType)
          (fn : nat) (a : list value) (cb : option nat) (kw : gmap string value)
| LoopGet
| LoopResult (o : outcome)
| Halt.

Definition step (a : action) (s : BackgroundProcessor) : BackgroundProcessor :=
  match a with
  | Enqueue isfile priority task_type fn a cb kw =>
    (add_task isfile priority task_type fn a cb kw s).1
  | LoopGet => (run_get s).1
  | LoopResult o => (run_result o s).1
  | Halt => stop s
  end.

Definition run_actions (acts : list action) (s : BackgroundProcessor) : BackgroundProcessor :=
  fold_left (fun s a => step a s) acts s.

(** The task has [p] as its target path. *)
Definition targets (p : string) (t : Task) : bool :=
  bool_decide (leading_str (args t) = Some p).

(** Tasks for [p] in the queue, in flight, and handed to the executor so far. *)
Definition queued_for (p : string) (s : BackgroundProcessor) : nat :=
  length (filter (fun item : entry => targets p item.2 = true) (task_queue s)).

Definition awaited_for (p : string) (s : BackgroundProcessor) : nat :=
  if awaiting_result s then
    match run_task s with
    | Some t => if targets p t then 1%nat else 0%nat
    | None => 0%nat
    end
  else 0%nat.

Definition unresolved_for (p : string) (s : BackgroundProcessor) : nat :=
  (queued_for p s + awaited_for p s)%nat.

Definition submitted_for (p : string) (s : BackgroundProcessor) : nat :=
  length (filter (fun t : Task => targets p t = true) (submitted s)).

(** The turn of the loop ends in the handler of the inner [try]. *)
Definition fails (t : Task) (o : outcome) : bool :=
  match o with
  | BodyRaised _ => true
  | BodyReturned _ (Some _) => bool_decide (is_Some (callback t))
  | BodyReturned _ None => false
  end.

(** A call made while [p] names a file on disk and before [stop]. *)
Definition keeps_file (p : string) (a : action) : Prop :=
  match a with
  | Enqueue isfile _ _ _ a _ _ => leading_str a = Some p -> isfile p = true
  | Halt => False
  | _ => True
  end.

(** No task for [p] fails in the course of [acts], run from [s]. *)
Fixpoint no_failure_for (p : string) (acts : list action) (s : BackgroundProcessor) : Prop :=
  match acts with
  | [] => True
  | a :: acts' =>
    match a with
    | LoopResult o =>
      forall t, awaiting_result s = true -> run_task s = Some t ->
                targets p t = true -> fails t o = false
    | _ => True
    end /\ no_failure_for p acts' (step a s)
  end.

(** The enqueue is let through by the check for duplicates. *)
Definition accepted (isfile : string -> bool) (a : list value) (s : BackgroundProcessor) : bool :=
  match leading_str a with
  | Some p => negb (isfile p) ||
              negb (bool_decide (p ∈ _processed_files s) || is_processing_file p s)
  | None => true
  end.

(** The set of processed files once the enqueue has been let through. *)
Definition noted (isfile : string -> bool) (a : list value) (s : BackgroundProcessor)
  : gset string :=
  match leading_str a with
  | Some p => if isfile p then {[p]} ∪ _processed_files s else _processed_files s
  | None => _processed_files s
  end.

End History.

(** ** Invariants of a history *)
Module Invariant.
Import Processor History.

(** At most one task for [p] is queued or in flight, and [p] is noted
    while there is one. *)
Definition single (p : string) (s : BackgroundProcessor) : Prop :=
  (unresolved_for p s <= 1)%nat /\
  ((1 <= unresolved_for p s)%nat -> p ∈ _processed_files s).

(** [p] is noted and no task for it is queued or in flight. *)
Definition settled (p : string) (s : BackgroundProcessor) : Prop :=
  p ∈ _processed_files s /\ unresolved_for p s = 0%nat.

(** At most one task for [p] has been queued or submitted so far, and [p]
    is noted once there is one. *)
Definition once (p : string) (s : BackgroundProcessor) : Prop :=
  (queued_for p s + submitted_for p s <= 1)%nat /\
  ((1 <= queued_for p s + submitted_for p s)%nat -> p ∈ _processed_files s).

End Invariant.

(** ** Enqueues and turns of the loop in a row *)
Module Schedule.
Import Processor History.

(** The arguments of one call of [add_task], with [os.path.isfile] as it
    is at the time of the call. *)
Record request := mkRequest {
  req_isfile : string -> bool;
  req_priority : Z;
  req_type : TaskType;
  req_func : nat;
  req_args : list value;
  req_callback : option nat;
  req_kwargs : gmap string value
}.

(** The tuple that the call puts in the queue. *)
Definition request_entry (r : request) : entry :=
  (req_priority r,
   mkTask (req_type r) (req_func r) (req_args r) (req_kwargs r) (req_callback r)).

Definition add (r : request) (s : BackgroundProcessor) : BackgroundProcessor * result unit :=
  add_task (req_isfile r) (req_priority r) (req_type r) (req_func r) (req_args r)
           (req_callback r) (req_kwargs r) s.

(** The calls made one after the other: the processor they leave, and
    what each call gave. *)
Fixpoint add_all (rs : list request) (s : BackgroundProcessor)
  : BackgroundProcessor * list (result unit) :=
  match rs with
  | [] => (s, [])
  | r :: rs' =>
    let '(s1, x) := add r s in
    let '(s2, xs) := add_all rs' s1 in
    (s2, x :: xs)
  end.

(** Each call is let through by the check for duplicates. *)
Fixpoint all_accepted (rs : list request) (s : BackgroundProcessor) : Prop :=
  match rs with
  | [] => True
  | r :: rs' => accepted (req_isfile r) (req_args r) s = true /\
                all_accepted rs' (add r s).1
  end.

(** As many turns of the loop of [run] as there are outcomes. *)
Fixpoint turns (outcomes : list outcome) (s : BackgroundProcessor) : BackgroundProcessor :=
  match outcomes with
  | [] => s
  | o :: outcomes' => turns outcomes' (run_iteration o s).1
  end.

End Schedule.

(** ** Concrete histories and managers *)
Module Examples.
Import Processor History.

(** Every path names a file. *)
Definition on_disk : string -> bool := fun _ => true.

(** [add_task(priority, FILE_CONVERSION, fn, path)] *)
Definition convert (fn : nat) (path : string) (priority : Z) : action :=
  Enqueue on_disk priority FILE_CONVERSION fn [VStr path] None ∅.

(** Three enqueues for one file around the dispatch of the first. *)
Definition twice_enqueued : list action :=
  [convert 0 "f.pdf" 1; convert 1 "f.pdf" 1; LoopGet; convert 2 "f.pdf" 3].

(** One enqueue for a file and its dispatch; the calls that come later. *)
Definition one_in_flight : list action := [convert 0 "f.pdf" 1; LoopGet].
Definition later_calls : list action :=
  [convert 1 "f.pdf" 1; LoopGet; convert 2 "g.pdf" 1].

(** Three enqueues with the priorities 1, 5 and 5. *)
Definition three_queued : list action :=
  [ Enqueue on_disk 1 FILE_CONVERSION 0 [VStr "a.docx"] None ∅;
    Enqueue on_disk 5 TEXT_EXTRACTION 1 [VStr "b.pdf"] None ∅;
    Enqueue on_disk 5 FILE_ORGANIZATION 2 [VStr "c.pdf"] None ∅ ].

(** A late task enqueued before an urgent one, and how the two end. *)
Definition late : Schedule.request :=
  Schedule.mkRequest on_disk 5 FILE_ORGANIZATION 0 [VStr "late.pdf"] None ∅.
Definition urgent : Schedule.request :=
  Schedule.mkRequest on_disk 1 FILE_CONVERSION 1 [VStr "urgent.pdf"] None ∅.
Definition two_outcomes : list outcome :=
  [BodyRaised (Exception "no"); BodyReturned (VStr "late.pdf") None].

End Examples.

(** ** Records reclaimed, and concrete managers *)
Module Ledger.
Import Resources.

(** The calls that reclaim a tracked record. *)
Definition is_reclaim (e : effect) : bool :=
  match e with
  | Remove _ | Rmtree _ => true
  | _ => false
  end.

Definition reclaims (t : list effect) : list effect :=
  filter (fun e => is_reclaim e = true) t.

(** The calls made between two worlds. *)
Definition since (w w' : world) : list effect :=
  drop (length (trace w)) (trace w').

(** A new manager on an empty disk. *)
Definition fresh : world := mkWorld init (mkFS ∅ ∅) [].

(** A body that writes a second file and raises. *)
Definition failing_body : block :=
  fun path fs => (create_file (path ++ ".bak") 7 fs, Raise (Exception "conversion failed")).

(** A manager inside [with rm.temp_directory() as d, rm.temp_file() as f],
    both entered at time 100. *)
Definition recent : world :=
  (bind (temp_directory_enter "C:\Temp\tmpd" 100)
        (fun _ => temp_file_enter None "C:\Temp\tmpf.pdf" 100) fresh).1.

(** [DispatchEx] answers at once with a Word application. *)
Definition word : com_object := mkCom 7 true true true None.
Definition answers_at_once : nat -> result com_object := fun _ => Ok word.

End Ledger.

(** ** Entries that can all be compared *)
Module HeapTotal.
(** Every two entries of the list compare without an exception. *)
Definition comparable {A : Type} (lt : A -> A -> result bool) (heap : list A) : Prop :=
  forall a b, a ∈ heap -> b ∈ heap -> is_ok (lt a b) = true.
End HeapTotal.

(** ** What a processor does with the tasks it is given *)
Module Conduct.
Import Processor History.

(** Queued entries of one priority hold equal tasks. *)
Definition tie_free (q : list entry) : Prop :=
  forall a b : entry, a ∈ q -> b ∈ q -> a.1 = b.1 -> a.2 = b.2.

(** The task that a call of [add_task] is made for. *)
Definition requested (a : action) : list Task :=
  match a with
  | Enqueue _ _ task_type fn a cb kw => [mkTask task_type fn a kw cb]
  | _ => []
  end.

(** The tasks that the calls of a history were made for, in their order. *)
Definition enqueued (acts : list action) : list Task :=
  concat (map requested acts).

(** The line that [stop] logs for a queued entry. *)
Definition dropped_line (e : entry) : log_record := WarningTaskDropped (type e.2).

(** The message of the comparison of two tasks. *)
Definition unorderable : exn :=
  TypeError "'<' not supported between instances of 'Task' and 'Task'".

(** A queue of one task that ties with a second enqueue. *)
Definition tied : list action :=
  [ Enqueue Examples.on_disk 1 FILE_CONVERSION 0 [VStr "a.docx"] None ∅ ].

(** A task is dispatched and ends; then three tasks are queued, two of
    them with one priority. *)
Definition after_one_task : list action :=
  ([ Examples.convert 9 "z.docx" 0; LoopGet; LoopResult (BodyReturned VNone None) ]
   ++ Examples.three_queued)%list.

(** Three enqueues with the priorities 1, 5 and 7. *)
Definition spread : list action :=
  [ Examples.convert 0 "a.docx" 5; Examples.convert 1 "b.docx" 1;
    Examples.convert 2 "c.docx" 7 ].

(** A task with a callback, in flight. *)
Definition with_callback : list action :=
  [ Enqueue Examples.on_disk 1 TEXT_EXTRACTION 0 [VStr "scan.pdf"] (Some 4%nat) ∅; LoopGet ].
End Conduct.

(** ** Managers at work *)
Module Upkeep.
Import Resources.
(** The manager of [Ledger.recent] at work: a page written below the temp
    directory, and a report of the user's elsewhere on the disk. *)
Definition at_work : world :=
  mkWorld (self Ledger.recent)
          (create_file "C:\Temp\tmpd\page1.png" 101
             (create_file "C:\Users\me\report.docx" 50 (disk Ledger.recent)))
          (trace Ledger.recent).

(** A body that writes a page below the directory it is given and raises. *)
Definition writes_page : block :=
  fun path fs => (create_file (path ++ "\page1.png") 7 fs,
                  Raise (Exception "conversion failed")).
End Upkeep.

(** ** resource_manager.py: the cursor and the aged automation objects *)
Module Housekeeping.
Import Resources.

(** [Qt.CursorShape] *)
Inductive cursor_shape :=
| ArrowCursor
| WaitCursor
| OtherCursor (shape : nat).

(** The calls that [busy_cursor] makes on the application. *)
Inductive gui_call :=
| SetOverrideCursor (shape : cursor_shape)
| RestoreOverrideCursor
| ProcessEvents.

(** The user interface: whether [QApplication.instance()] gives an
    application, its stack of override cursors (the one shown first),
    and the calls made on it. *)
Record gui := mkGui {
  has_instance : bool;
  override_cursors : list cursor_shape;
  gui_calls : list gui_call
}.

Definition setOverrideCursor (shape : cursor_shape) (g : gui) : gui :=
  mkGui (has_instance g) (shape :: override_cursors g)
        (gui_calls g ++ [SetOverrideCursor shape]).
(** [restoreOverrideCursor]: does nothing on an empty stack. *)
Definition restoreOverrideCursor (g : gui) : gui :=
  mkGui (has_instance g) (tail (override_cursors g))
        (gui_calls g ++ [RestoreOverrideCursor]).
Definition processEvents (g : gui) : gui :=
  mkGui (has_instance g) (override_cursors g) (gui_calls g ++ [ProcessEvents]).

(** The body of [with self.busy_cursor():]: it works on the user
    interface and returns or raises. *)
Definition gui_block : Type := gui -> gui * result value.

(** [with self.busy_cursor(): body] *)
Definition busy_cursor (body : gui_block) (g : gui) : gui * result value :=
  if has_instance g then
    let g1 := processEvents (setOverrideCursor WaitCursor (setOverrideCursor ArrowCursor g)) in
    let '(g2, r) := body g1 in
    (processEvents (restoreOverrideCursor (restoreOverrideCursor g2)), r)
  else body g.

(** [self._resource_timestamps.pop(resource_id)]; a missing key raises
    [KeyError], a subclass of [Exception]. *)
Definition pop_timestamp (resource_id : nat) : M unit :=
  fun w =>
    match _resource_timestamps (self w) !! resource_id with
    | Some _ =>
      update (fun m => set_resource_timestamps (delete resource_id (_resource_timestamps m)) m) w
    | None => (w, Raise (Exception "KeyError"))
    end.

(** One turn of the loop of [_cleanup_old_resources], for the pair
    [(resource_id, timestamp)].  [objects] gives the automation object of
    an identity; the inner loop finds the tracked object of that
    identity, when there is one. *)
Definition cleanup_old_resource (objects : nat -> com_object) (current_time : Z)
    (item : nat * Z) : M unit :=
  max_age <- read (fun w => _max_resource_age (self w)) ;;
  when (bool_decide (current_time - item.2 > max_age))
    (tracked <- read (fun w => bool_decide (item.1 ∈ _com_objects (self w))) ;;
     when tracked
       (try_except
          (when (has_Quit (objects item.1))
             (do (Quit item.1) ;;
              match quit_raises (objects item.1) with
              | Some e => raise e
              | None => ret tt
              end))
          (fun _ => ret tt) ;;
        update (fun m => set_com_objects (_com_objects m ∖ {[item.1]}) m)) ;;
     pop_timestamp item.1).

(** [for resource_id, timestamp in items: ...] *)
Fixpoint cleanup_old_loop (objects : nat -> com_object) (current_time : Z)
    (items : list (nat * Z)) : M unit :=
  match items with
  | [] => ret tt
  | item :: items' =>
    cleanup_old_resource objects current_time item ;;
    cleanup_old_loop objects current_time items'
  end.

(** [_cleanup_old_resources]; [items] is
    [list(self._resource_timestamps.items())], the entries of the
    dictionary in the order in which it gives them. *)
Definition _cleanup_old_resources (objects : nat -> com_object) (current_time : Z)
    (items : list (nat * Z)) : M unit :=
  cleanup_old_loop objects current_time items.

(** A body that shows a cursor of its own while it works, and fails. *)
Definition careful_body : gui_block :=
  fun g => (restoreOverrideCursor (setOverrideCursor (OtherCursor 3) g),
            Raise (Exception "tesseract is not installed")).

(** A user interface with one override cursor shown. *)
Definition window : gui := mkGui true [OtherCursor 1] [].

(** A manager that tracks two automation objects, seen at the times 10
    and 5000; the first does not take [Quit] well. *)
Definition stubborn (n : nat) : com_object :=
  mkCom n true true true
        (if bool_decide (n = 1%nat) then Some (Exception "RPC server unavailable") else None).
Definition two_objects : world :=
  mkWorld (set_resource_timestamps (<[1%nat := 10]> (<[2%nat := 5000]> ∅))
             (set_com_objects {[1%nat; 2%nat]} init))
          (mkFS ∅ ∅) [].
End Housekeeping.

(** ** Enqueues that tie *)
Module Ties.
Import Processor History Schedule.

(** [add_task(1, FILE_CONVERSION, f0, "a.docx")],
    [add_task(5, TEXT_EXTRACTION, f1, "b.pdf")] and
    [add_task(5, FILE_ORGANIZATION, f2, "c.pdf")], each for a file on disk. *)
Definition first : request :=
  mkRequest Examples.on_disk 1 FILE_CONVERSION 0 [VStr "a.docx"] None ∅.
Definition second : request :=
  mkRequest Examples.on_disk 5 TEXT_EXTRACTION 1 [VStr "b.pdf"] None ∅.
Definition third : request :=
  mkRequest Examples.on_disk 5 FILE_ORGANIZATION 2 [VStr "c.pdf"] None ∅.

(** [add_task(0, FILE_CONVERSION, f4, "f.pdf")]: the file of
    [Examples.one_in_flight], enqueued again. *)
Definition again : request :=
  mkRequest Examples.on_disk 0 FILE_CONVERSION 4 [VStr "f.pdf"] None ∅.

(** Three tasks whose bodies return. *)
Definition three_return : list outcome :=
  [BodyReturned VNone None; BodyReturned VNone None; BodyReturned VNone None].
End Ties.

(** * Properties *)

(** ** The heap list keeps its entries *)
Section HeapQFacts.
Context {A : Type} (lt : A -> A -> result bool).
Import HeapQ.

Lemma swap_Permutation (heap : list A) i j : swap heap i j ≡ₚ heap.
Proof.
  unfold swap.
  destruct (heap !! i) as [a|] eqn:Hi; [|done].
  destruct (heap !! j) as [b|] eqn:Hj; [|done].
  by apply Permutation_insert_swap.
Qed.

Lemma siftdown_loop_Permutation fuel (heap : list A) startpos pos :
  (siftdown_loop lt fuel heap startpos pos).1 ≡ₚ heap.
Proof.
  revert heap pos. induction fuel as [|fuel IH]; intros heap pos; simpl; [done|].
  destruct (decide _); [|done].
  destruct (heap !! pos); [|done].
  destruct (heap !! _); [|done].
  destruct (lt _ _) as [[]|]; [|done..].
  rewrite IH. apply swap_Permutation.
Qed.

Lemma siftdown_Permutation (heap : list A) startpos pos :
  (siftdown lt heap startpos pos).1 ≡ₚ heap.
Proof.
  unfold siftdown. destruct (decide _); [|done].
  apply siftdown_loop_Permutation.
Qed.

Lemma siftup_loop_Permutation fuel (heap : list A) pos :
  (siftup_loop lt fuel heap pos).1 ≡ₚ heap.
Proof.
  revert heap pos. induction fuel as [|fuel IH]; intros heap pos; simpl; [done|].
  destruct (decide (pos < _)%nat); [|done].
  match goal with |- (match ?c with _ => _ end).1 ≡ₚ _ => destruct c as [child|] end; [|done].
  rewrite IH. apply swap_Permutation.
Qed.

Lemma siftup_Permutation (heap : list A) pos :
  (siftup lt heap pos).1 ≡ₚ heap.
Proof.
  unfold siftup. destruct (decide _); [|done].
  pose proof (siftup_loop_Permutation (length heap) heap pos) as H.
  destruct (siftup_loop lt (length heap) heap pos) as [heap' [leaf|e]]; simpl in *; [|done].
  by rewrite siftdown_Permutation.
Qed.

Lemma heappush_Permutation (heap : list A) item :
  (heappush lt heap item).1 ≡ₚ item :: heap.
Proof.
  unfold heappush. rewrite siftdown_Permutation.
  by rewrite Permutation_app_comm.
Qed.

(** Taking an entry off: one entry leaves the list; it is the one given
    back when there is one. *)
Lemma heappop_Permutation (heap : list A) :
  heap ≠ [] ->
  exists x, x :: (heappop lt heap).1 ≡ₚ heap /\
            forall y, (heappop lt heap).2 = Ok y -> y = x.
Proof.
  intros Hne. unfold heappop.
  destruct (last heap) as [lastelt|] eqn:Hlast;
    [|by apply last_None in Hlast].
  apply last_Some in Hlast as [front ->].
  rewrite length_app, Nat.add_sub, take_app_length.
  destruct front as [|returnitem rest]; simpl.
  - exists lastelt. split; [done|]. by intros y [= ->].
  - pose proof (siftup_Permutation (lastelt :: rest) 0) as H.
    destruct (siftup lt (lastelt :: rest) 0) as [heap2 [[]|e]]; simpl in *.
    + exists returnitem. split; [|by intros y [= ->]].
      rewrite H. rewrite (Permutation_app_comm rest). simpl. by rewrite Permutation_swap.
    + exists returnitem. split; [|done].
      rewrite H. rewrite (Permutation_app_comm rest). simpl. by rewrite Permutation_swap.
Qed.

Lemma swap_length (heap : list A) i j : length (swap heap i j) = length heap.
Proof.
  unfold swap. destruct (heap !! i); [|done]. destruct (heap !! j); [|done].
  by rewrite !length_insert.
Qed.

Lemma parent_le pos : ((pos - 1) / 2 <= pos - 1)%nat.
Proof. apply Nat.Div0.div_le_upper_bound. lia. Qed.

(** The loops stop by their own test before the fuel runs out. *)
Lemma siftdown_loop_fuel fuel fuel' (heap : list A) startpos pos :
  (pos <= fuel)%nat -> (pos <= fuel')%nat ->
  siftdown_loop lt fuel heap startpos pos = siftdown_loop lt fuel' heap startpos pos.
Proof.
  revert fuel' heap pos. induction fuel as [|fuel IH]; intros fuel' heap pos H1 H2.
  - assert (pos = 0)%nat as -> by lia. destruct fuel'; [done|].
    cbn [siftdown_loop]. destruct (decide (startpos < 0)%nat); [lia|done].
  - destruct fuel' as [|fuel'].
    + assert (pos = 0)%nat as -> by lia.
      cbn [siftdown_loop]. destruct (decide (startpos < 0)%nat); [lia|done].
    + cbn [siftdown_loop]. destruct (decide (startpos < pos)%nat); [|done].
      destruct (heap !! pos); [|done]. destruct (heap !! _); [|done].
      destruct (lt _ _) as [[]|]; [|done..].
      pose proof (parent_le pos). apply IH; lia.
Qed.

Lemma siftup_loop_fuel fuel fuel' (heap : list A) pos :
  (length heap - pos <= fuel)%nat -> (length heap - pos <= fuel')%nat ->
  siftup_loop lt fuel heap pos = siftup_loop lt fuel' heap pos.
Proof.
  revert fuel' heap pos. induction fuel as [|fuel IH]; intros fuel' heap pos H1 H2.
  - assert (Hl : ~ (pos < length heap / 2)%nat).
    { pose proof (Nat.Div0.div_le_upper_bound (length heap) 2 (length heap)). lia. }
    destruct fuel'; [done|]. cbn [siftup_loop].
    destruct (decide (pos < length heap / 2)%nat); [lia|done].
  - destruct fuel' as [|fuel'].
    + assert (Hl : ~ (pos < length heap / 2)%nat).
      { pose proof (Nat.Div0.div_le_upper_bound (length heap) 2 (length heap)). lia. }
      cbn [siftup_loop]. destruct (decide (pos < length heap / 2)%nat); [lia|done].
    + cbn [siftup_loop]. destruct (decide (pos < length heap / 2)%nat); [|done].
      match goal with |- match ?c with _ => _ end = _ =>
        assert (forall child, c = Ok child -> (pos < child)%nat) as Hc;
        [|destruct c as [child|]; [|done]] end.
      { intros child. destruct (decide _); [|intros [= <-]; lia].
        destruct (heap !! _); [|done]. destruct (heap !! _); [|done].
        destruct (lt _ _) as [[]|]; intros [= <-]; lia. }
      specialize (Hc child eq_refl).
      apply IH; rewrite swap_length; lia.
Qed.
End HeapQFacts.

(** ** The order of the heap list *)
Section HeapOrderFacts.
Context {A : Type} (key : A -> Z) (lt : A -> A -> result bool).
Import HeapQ HeapOrder.

(** Entries with different keys compare by their keys. *)
Hypothesis lt_key : forall a b, key a <> key b -> lt a b = Ok (bool_decide (key a < key b)).

Lemma parent_spec i :
  (0 < i)%nat -> (i = 2 * parent i + 1 \/ i = 2 * parent i + 2)%nat.
Proof.
  intros Hi. unfold parent.
  pose proof (Nat.div_mod_eq (i - 1) 2) as H.
  pose proof (Nat.mod_upper_bound (i - 1) 2) as H2. lia.
Qed.

Lemma parent_child_l p : parent (2 * p + 1) = p.
Proof.
  unfold parent. replace (2 * p + 1 - 1)%nat with (p * 2)%nat by lia.
  by rewrite Nat.div_mul.
Qed.

Lemma parent_child_r p : parent (2 * p + 2) = p.
Proof.
  unfold parent. replace (2 * p + 2 - 1)%nat with (1 + p * 2)%nat by lia.
  by rewrite Nat.div_add.
Qed.

Lemma half_spec n : (2 * (n / 2) <= n < 2 * (n / 2) + 2)%nat.
Proof.
  pose proof (Nat.div_mod_eq n 2). pose proof (Nat.mod_upper_bound n 2). lia.
Qed.

Lemma swap_lookup (h : list A) i j k a b :
  h !! i = Some a -> h !! j = Some b ->
  swap h i j !! k = if decide (k = i) then Some b
                    else if decide (k = j) then Some a else h !! k.
Proof.
  intros Hi Hj. unfold swap. rewrite Hi, Hj.
  pose proof (lookup_lt_Some _ _ _ Hi). pose proof (lookup_lt_Some _ _ _ Hj).
  destruct (decide (k = i)) as [->|Hki].
  - by rewrite list_lookup_insert_eq by (by rewrite length_insert).
  - rewrite list_lookup_insert_ne by done.
    destruct (decide (k = j)) as [->|Hkj].
    + by rewrite list_lookup_insert_eq.
    + by rewrite list_lookup_insert_ne.
Qed.

Lemma NoDup_keys_lookup (h : list A) i j a b :
  NoDup (map key h) -> h !! i = Some a -> h !! j = Some b -> i <> j -> key a <> key b.
Proof.
  intros Hnd Hi Hj Hne Hk. apply Hne.
  eapply NoDup_lookup; [exact Hnd| |].
  - rewrite list_lookup_fmap, Hi. done.
  - rewrite list_lookup_fmap, Hj. simpl. by rewrite Hk.
Qed.

Lemma parent_lt i : (0 < i)%nat -> (parent i < i)%nat.
Proof. intros H. destruct (parent_spec i H); lia. Qed.

Lemma swap_NoDup_keys (h : list A) i j :
  NoDup (map key h) -> NoDup (map key (swap h i j)).
Proof. intros H. by rewrite (swap_Permutation h i j). Qed.

(** [siftdown] from [pos] to the root restores the invariant, and no
    comparison raises when the keys differ. *)
Lemma siftdown_loop_ordered fuel (h : list A) pos :
  (pos <= fuel)%nat -> (pos < length h)%nat -> NoDup (map key h) ->
  ordered_but_up key h pos ->
  exists h', siftdown_loop lt fuel h 0 pos = (h', Ok tt) /\ heap_ordered key h'.
Proof.
  revert h pos. induction fuel as [|fuel IH]; intros h pos Hf Hl Hnd [Ha Hb].
  { exists h. split; [done|]. intros i Hi. apply Ha; lia. }
  cbn [siftdown_loop]. destruct (decide (0 < pos)%nat) as [Hpos|Hpos].
  2:{ exists h. split; [done|]. intros i Hi. apply Ha; lia. }
  fold (parent pos). pose proof (parent_lt pos Hpos) as Hpp.
  destruct (lookup_lt_is_Some_2 h pos Hl) as [new Hnew].
  destruct (lookup_lt_is_Some_2 h (parent pos)) as [par Hpar]; [lia|].
  rewrite Hnew, Hpar.
  assert (Hk : key new <> key par)
    by (eapply (NoDup_keys_lookup h pos (parent pos)); eauto; lia).
  rewrite (lt_key _ _ Hk).
  destruct (bool_decide (key new < key par)) eqn:Hlt.
  - apply bool_decide_eq_true in Hlt.
    apply IH; [lia|by rewrite swap_length; lia|by apply swap_NoDup_keys|].
    split.
    + intros i Hi Hne x y Hx Hy.
      rewrite (swap_lookup h _ _ _ par new) in Hx by done.
      rewrite (swap_lookup h _ _ _ par new) in Hy by done.
      pose proof (parent_lt i Hi).
      destruct (decide (i = parent pos)); [done|].
      destruct (decide (i = pos)) as [->|Hip].
      * rewrite decide_True in Hy by done. simplify_eq. lia.
      * destruct (decide (parent i = parent pos)) as [Hpi|Hpi].
        -- simplify_eq. pose proof (Ha i Hi Hip x par Hx). rewrite Hpi in H0.
           specialize (H0 Hpar). lia.
        -- destruct (decide (parent i = pos)) as [Hpi2|Hpi2].
           ++ simplify_eq. by apply (Hb i x y).
           ++ by apply (Ha i Hi Hip x y).
    + intros i x y Hp0 Hi Hpi Hx Hy.
      rewrite (swap_lookup h _ _ _ par new) in Hx by done.
      rewrite (swap_lookup h _ _ _ par new) in Hy by done.
      pose proof (parent_lt i Hi). pose proof (parent_lt _ Hp0).
      rewrite decide_False in Hy by lia. rewrite decide_False in Hy by lia.
      rewrite decide_False in Hx by lia.
      assert (key y <= key par) by (apply (Ha (parent pos) Hp0); [lia|done|done]).
      destruct (decide (i = pos)) as [->|Hip]; [by simplify_eq|].
      assert (key par <= key x); [|lia].
      apply (Ha i Hi Hip); [done|by rewrite Hpi].
  - apply bool_decide_eq_false in Hlt. exists h. split; [done|].
    intros i Hi. destruct (decide (i = pos)) as [->|Hne]; [|by apply Ha].
    intros x y Hx Hy. simplify_eq. lia.
Qed.

Lemma heappush_ordered (h : list A) x :
  heap_ordered key h -> NoDup (map key (h ++ [x])) ->
  exists h', heappush lt h x = (h', Ok tt) /\ heap_ordered key h'.
Proof.
  intros Hh Hnd. unfold heappush, siftdown.
  rewrite length_app. simpl. rewrite Nat.add_sub.
  rewrite decide_True by lia.
  apply siftdown_loop_ordered; [lia|rewrite length_app; simpl; lia|done|].
  split.
  - intros i Hi Hne x0 y Hx Hy.
    pose proof (lookup_lt_Some _ _ _ Hx) as Hl. rewrite length_app in Hl. simpl in Hl.
    pose proof (parent_lt i Hi).
    rewrite lookup_app_l in Hx by lia. rewrite lookup_app_l in Hy by lia.
    by apply (Hh i Hi).
  - intros i x0 y _ Hi Hp Hx _.
    pose proof (lookup_lt_Some _ _ _ Hx) as Hl. rewrite length_app in Hl. simpl in Hl.
    pose proof (parent_lt i Hi). lia.
Qed.

(** The first loop of [siftup] carries the gap down to a leaf. *)
Lemma siftup_loop_ordered fuel (h : list A) pos :
  (length h - pos <= fuel)%nat -> (pos < length h)%nat -> NoDup (map key h) ->
  ordered_but_at key h pos ->
  exists h' leaf, siftup_loop lt fuel h pos = (h', Ok leaf) /\
    (leaf < length h')%nat /\ NoDup (map key h') /\ ordered_but_up key h' leaf.
Proof.
  revert h pos. induction fuel as [|fuel IH]; intros h pos Hf Hl Hnd [Ha Hb]; [lia|].
  cbn [siftup_loop]. pose proof (half_spec (length h)) as Hhalf.
  destruct (decide (pos < length h / 2)%nat) as [Hlim|Hlim].
  2:{ exists h, pos. split_and!; try done. split; [|done].
      intros i Hi Hne. destruct (decide (parent i = pos)) as [Hp|Hp]; [|by apply Ha].
      intros x y Hx _. pose proof (lookup_lt_Some _ _ _ Hx).
      destruct (parent_spec i Hi); lia. }
  set (l := (2 * pos + 1)%nat).
  assert (exists c cv, (c = l \/ c = l + 1)%nat /\ h !! c = Some cv /\
    (if decide (l + 1 < length h)%nat
     then match h !! l, h !! (l + 1)%nat with
          | Some a, Some b =>
            match lt a b with
            | Raise e => Raise e
            | Ok true => Ok l
            | Ok false => Ok (l + 1)%nat
            end
          | _, _ => Raise (IndexError "index out of range")
          end
     else Ok l) = Ok c /\
    forall i x, (0 < i)%nat -> parent i = pos -> h !! i = Some x -> key cv <= key x)
    as (c & cv & Hc & Hcv & -> & Hmin).
  { destruct (lookup_lt_is_Some_2 h l) as [a Hla]; [subst l; lia|].
    destruct (decide (l + 1 < length h)%nat) as [Hr|Hr].
    - destruct (lookup_lt_is_Some_2 h (l + 1)%nat Hr) as [b Hlb].
      rewrite Hla, Hlb.
      assert (Hk : key a <> key b)
        by (eapply (NoDup_keys_lookup h l (l + 1)%nat); eauto; lia).
      rewrite (lt_key _ _ Hk).
      destruct (bool_decide (key a < key b)) eqn:Hlt.
      + apply bool_decide_eq_true in Hlt. exists l, a. split_and!; try done; [by left|].
        intros i x Hi Hp Hx. destruct (parent_spec i Hi) as [Hi'|Hi']; rewrite Hp in Hi'.
        * replace i with l in Hx by (subst l; lia). simplify_eq. lia.
        * replace i with (l + 1)%nat in Hx by (subst l; lia). simplify_eq. lia.
      + apply bool_decide_eq_false in Hlt. exists (l + 1)%nat, b.
        split_and!; try done; [by right|].
        intros i x Hi Hp Hx. destruct (parent_spec i Hi) as [Hi'|Hi']; rewrite Hp in Hi'.
        * replace i with l in Hx by (subst l; lia). simplify_eq. lia.
        * replace i with (l + 1)%nat in Hx by (subst l; lia). simplify_eq. lia.
    - exists l, a. split_and!; try done; [by left|].
      intros i x Hi Hp Hx. pose proof (lookup_lt_Some _ _ _ Hx).
      destruct (parent_spec i Hi) as [Hi'|Hi']; rewrite Hp in Hi'.
      + replace i with l in Hx by (subst l; lia). simplify_eq. lia.
      + subst l. lia. }
  destruct (lookup_lt_is_Some_2 h pos Hl) as [item Hitem].
  assert (Hcpos : (pos < c)%nat) by (subst l; lia).
  assert (Hpc : parent c = pos).
  { destruct Hc as [->| ->]; subst l; [apply parent_child_l|].
    replace (2 * pos + 1 + 1)%nat with (2 * pos + 2)%nat by lia. apply parent_child_r. }
  pose proof (lookup_lt_Some _ _ _ Hcv) as Hcl.
  apply IH; [rewrite swap_length; lia|rewrite swap_length; lia|by apply swap_NoDup_keys|].
  split.
  - intros i Hi Hne Hpne x y Hx Hy.
    rewrite (swap_lookup h _ _ _ cv item) in Hx by done.
    rewrite (swap_lookup h _ _ _ cv item) in Hy by done.
    rewrite decide_False in Hx by done. rewrite decide_False in Hy by done.
    pose proof (parent_lt i Hi).
    destruct (decide (i = pos)) as [->|Hip].
    + simplify_eq. rewrite decide_False in Hy by lia.
      apply (Hb c x y); [lia|lia|done|done|done].
    + destruct (decide (parent i = pos)) as [Hpi|Hpi].
      * simplify_eq. by apply (Hmin i).
      * by apply (Ha i).
  - intros i x y Hc0 Hi Hpi Hx Hy.
    rewrite (swap_lookup h _ _ _ cv item) in Hx by done.
    rewrite (swap_lookup h _ _ _ cv item) in Hy by done.
    pose proof (parent_lt i Hi).
    rewrite decide_False in Hx by lia. rewrite decide_False in Hx by lia.
    rewrite Hpc in Hy. rewrite decide_False in Hy by lia.
    rewrite decide_True in Hy by done. simplify_eq.
    apply (Ha i Hi); [lia|lia|done|done].
Qed.

Lemma siftup_ordered (h : list A) :
  (0 < length h)%nat -> NoDup (map key h) -> ordered_but_at key h 0 ->
  exists h', siftup lt h 0 = (h', Ok tt) /\ heap_ordered key h'.
Proof.
  intros Hl Hnd Hat. unfold siftup. rewrite decide_True by done.
  destruct (siftup_loop_ordered (length h) h 0) as (h1 & leaf & -> & Hleaf & Hnd1 & Hup);
    [lia|done|done|done|].
  unfold siftdown. rewrite decide_True by done.
  by apply siftdown_loop_ordered.
Qed.

(** The root is the smallest entry. *)
Lemma heap_ordered_root (h : list A) r :
  heap_ordered key h -> h !! 0%nat = Some r ->
  forall i x, h !! i = Some x -> key r <= key x.
Proof.
  intros Hh Hr i. induction i as [i IH] using lt_wf_ind. intros x Hx.
  destruct (decide (i = 0%nat)) as [->|Hi]; [simplify_eq; lia|].
  assert (0 < i)%nat as Hi' by lia. pose proof (parent_lt i Hi') as Hp.
  pose proof (lookup_lt_Some _ _ _ Hx).
  destruct (lookup_lt_is_Some_2 h (parent i)) as [y Hy]; [lia|].
  pose proof (IH _ Hp y Hy). pose proof (Hh i Hi' x y Hx Hy). lia.
Qed.

(** [heappop] on an ordered list with different keys: it gives the root,
    which is the smallest entry, and leaves the rest ordered. *)
Lemma heappop_ordered (h : list A) :
  heap_ordered key h -> NoDup (map key h) -> h <> [] ->
  exists r h', heappop lt h = (h', Ok r) /\ h !! 0%nat = Some r /\
    heap_ordered key h' /\ r :: h' ≡ₚ h /\
    forall x, x ∈ h' -> key r < key x.
Proof.
  intros Hh Hnd Hne.
  assert (Hres : exists r h', heappop lt h = (h', Ok r) /\ h !! 0%nat = Some r /\
                   heap_ordered key h').
  { unfold heappop.
    destruct (last h) as [lastelt|] eqn:Hlast; [|by apply last_None in Hlast].
    apply last_Some in Hlast as [front ->].
    rewrite length_app, Nat.add_sub, take_app_length.
    destruct front as [|r rest].
    - exists lastelt, []. split_and!; done.
    - destruct (siftup_ordered (lastelt :: rest)) as (h' & -> & Hh'); [simpl; lia| |  |].
      + simpl in Hnd. rewrite map_app in Hnd. simpl in Hnd.
        apply NoDup_cons in Hnd as [_ Hnd].
        rewrite <- Permutation_cons_append in Hnd. done.
      + split; [|intros; lia].
        intros i Hi _ Hp x y Hx Hy.
        pose proof (lookup_lt_Some _ _ _ Hx) as Hlx. simpl in Hlx.
        pose proof (parent_lt i Hi).
        assert (0 < parent i)%nat by lia.
        apply (Hh i Hi x y).
        * destruct i; [lia|]. simpl in *. by apply lookup_app_l_Some.
        * destruct (parent i); [lia|]. simpl in *. by apply lookup_app_l_Some.
      + exists r, h'. done. }
  destruct Hres as (r & h' & Hpop & Hr & Hh').
  destruct (heappop_Permutation lt h Hne) as (x & Hx & Hy).
  rewrite Hpop in Hx, Hy. simpl in *. rewrite <- (Hy r eq_refl) in Hx.
  exists r, h'. split_and!; try done.
  intros y Hy'. apply list_elem_of_lookup in Hy' as [j Hj].
  assert (Hnd' : NoDup (map key (r :: h'))) by (by rewrite Hx).
  assert (key r <> key y).
  { eapply (NoDup_keys_lookup (r :: h') 0%nat (S j)); eauto. }
  assert (y ∈ h) as [i Hi]%list_elem_of_lookup.
  { rewrite <- Hx. right. by eapply list_elem_of_lookup_2. }
  pose proof (heap_ordered_root h r Hh Hr i y Hi). lia.
Qed.
End HeapOrderFacts.

(** ** The queue and the set of processed files *)
Section ProcessorFacts.
Import Processor History.

Lemma is_processing_file_queued p s :
  is_processing_file p s = true <-> (1 <= queued_for p s)%nat.
Proof.
  unfold is_processing_file, queued_for, targets.
  induction (task_queue s) as [|item q IH]; simpl.
  - split; [done|lia].
  - rewrite filter_cons. rewrite orb_true_iff, IH.
    destruct (bool_decide (leading_str (args item.2) = Some p)) eqn:E.
    + rewrite decide_True by done. simpl. split; [lia|auto].
    + rewrite decide_False by done. split; [intros [|]; done|auto].
Qed.

Lemma is_processing_file_none p s :
  is_processing_file p s = false <-> queued_for p s = 0%nat.
Proof.
  pose proof (is_processing_file_queued p s) as H.
  destruct (is_processing_file p s); split; intros; try done.
  - assert (1 <= queued_for p s)%nat by (by apply H). lia.
  - destruct (queued_for p s); [done|]. assert (true = true) by done.
    assert (false = true) by (apply H; lia). done.
Qed.

Lemma put_spec item s :
  exists q r, put item s = (set_queue q s, r) /\ q ≡ₚ item :: task_queue s.
Proof.
  unfold put.
  pose proof (heappush_Permutation entry_lt (task_queue s) item) as H.
  destruct (HeapQ.heappush entry_lt (task_queue s) item) as [q r]. eauto.
Qed.

Lemma get_spec s :
  task_queue s ≠ [] ->
  exists q r x, get s = (set_queue q s, r) /\ x :: q ≡ₚ task_queue s /\
                forall y, r = Ok y -> y = x.
Proof.
  intros Hne. unfold get.
  destruct (heappop_Permutation entry_lt (task_queue s) Hne) as (x & Hx & Hy).
  destruct (task_queue s) as [|i q0]; [done|].
  destruct (HeapQ.heappop entry_lt (i :: q0)) as [q r]. simpl in *.
  exists q, r, x. eauto.
Qed.

Lemma get_empty s : task_queue s = [] -> get s = (s, Raise QueueEmpty).
Proof. unfold get. by intros ->. Qed.

(** An enqueue that the check for duplicates turns away. *)
Lemma add_task_rejected isfile priority ty fn a cb kw s p :
  leading_str a = Some p -> isfile p = true ->
  p ∈ _processed_files s \/ (1 <= queued_for p s)%nat ->
  add_task isfile priority ty fn a cb kw s = (log (InfoAlreadyProcessed p) s, Ok tt).
Proof.
  intros Ha Hf Hd. unfold add_task. rewrite Ha, Hf.
  destruct Hd as [Hd|Hd].
  - by rewrite bool_decide_eq_true_2.
  - apply is_processing_file_queued in Hd. rewrite Hd. by rewrite orb_true_r.
Qed.

(** An enqueue that is let through: the entry joins the queue (also when
    [put] raises) and the path is noted when it names a file. *)
Lemma add_task_accepted isfile priority ty fn a cb kw s :
  accepted isfile a s = true ->
  exists q r lg,
    add_task isfile priority ty fn a cb kw s =
      (mkBP q (running s)
            (match leading_str a with
             | Some p => if isfile p then {[p]} ∪ _processed_files s
                         else _processed_files s
             | None => _processed_files s
             end)
            (executor_shutdown s) (run_task s) (awaiting_result s)
            (submitted s) (emitted s) lg, r) /\
    q ≡ₚ (priority, mkTask ty fn a kw cb) :: task_queue s.
Proof.
  unfold accepted, add_task. intros Had.
  assert (Henq : forall s0, task_queue s0 = task_queue s ->
    exists q r lg,
      match put (priority, mkTask ty fn a kw cb) s0 with
      | (s1, Raise e) => (s1, Raise e)
      | (s1, Ok _) => (log (DebugAddedTask priority ty) s1, Ok tt)
      end = (mkBP q (running s0) (_processed_files s0) (executor_shutdown s0)
                  (run_task s0) (awaiting_result s0) (submitted s0) (emitted s0) lg, r)
      /\ q ≡ₚ (priority, mkTask ty fn a kw cb) :: task_queue s).
  { intros s0 Hq.
    destruct (put_spec (priority, mkTask ty fn a kw cb) s0) as (q & r & -> & Hp).
    rewrite Hq in Hp. destruct r; eauto. }
  destruct (leading_str a) as [p|]; [|by apply Henq].
  destruct (isfile p); simpl in Had; [|by apply Henq].
  apply negb_true_iff in Had. rewrite Had.
  by apply (Henq (set_processed _ s)).
Qed.
End ProcessorFacts.

(** ** What one call does to the tasks of a path *)
Section StepFacts.
Import Processor History Invariant.

Lemma add_task_turned_away isfile priority ty fn a cb kw s :
  accepted isfile a s = false ->
  exists p, add_task isfile priority ty fn a cb kw s = (log (InfoAlreadyProcessed p) s, Ok tt).
Proof.
  unfold accepted, add_task. destruct (leading_str a) as [p|]; [|done].
  destruct (isfile p); [|done]. simpl. intros H%negb_false_iff. rewrite H. eauto.
Qed.

Lemma length_filter_cons_bool {B} (f : B -> bool) x l :
  length (filter (fun y => f y = true) (x :: l)) =
  ((if f x then 1 else 0) + length (filter (fun y => f y = true) l))%nat.
Proof.
  rewrite filter_cons. destruct (decide _) as [H|H]; simpl in H.
  - by rewrite H.
  - apply not_true_is_false in H. by rewrite H.
Qed.

Lemma count_cons p (x : entry) q :
  length (filter (fun item : entry => targets p item.2 = true) (x :: q)) =
  ((if targets p x.2 then 1 else 0) +
   length (filter (fun item : entry => targets p item.2 = true) q))%nat.
Proof. apply (length_filter_cons_bool (fun item : entry => targets p item.2)). Qed.

Lemma step_effect p a s :
  keeps_file p a ->
  let s' := step a s in
  ((queued_for p s' + awaited_for p s' <= queued_for p s + awaited_for p s)%nat /\
   (queued_for p s' + submitted_for p s' <= queued_for p s + submitted_for p s)%nat /\
   ((p ∈ _processed_files s) <-> (p ∈ _processed_files s'))) \/
  (queued_for p s = 0%nat /\ (p ∉ _processed_files s) /\ queued_for p s' = 1%nat /\
   awaited_for p s' = awaited_for p s /\ submitted_for p s' = submitted_for p s /\
   p ∈ _processed_files s') \/
  (exists o t, a = LoopResult o /\ awaiting_result s = true /\ run_task s = Some t /\
     targets p t = true /\ fails t o = true /\
     queued_for p s' = queued_for p s /\ awaited_for p s' = 0%nat /\
     submitted_for p s' = submitted_for p s /\ p ∉ _processed_files s').
Proof.
  intros Hk s'. subst s'. destruct a as [isfile priority ty fn a cb kw| |o|]; simpl in *.
  - destruct (accepted isfile a s) eqn:Had.
    + destruct (add_task_accepted isfile priority ty fn a cb kw s Had) as (q & r & lg & -> & Hq).
      assert (Htk : targets p (mkTask ty fn a kw cb) = bool_decide (leading_str a = Some p)) by done.
      unfold queued_for, awaited_for, submitted_for. simpl. rewrite Hq, count_cons. simpl.
      rewrite Htk. clear Htk. unfold accepted in Had.
      destruct (leading_str a) as [p'|] eqn:Hl.
      * destruct (decide (p' = p)) as [->|Hne].
        -- rewrite Hk in * by done. simpl in Had. apply negb_true_iff, orb_false_iff in Had as [Hp Hi].
           apply bool_decide_eq_false in Hp. apply is_processing_file_none in Hi.
           right; left. unfold queued_for in Hi. rewrite Hi. rewrite bool_decide_eq_true_2 by done.
           repeat split; try done. set_solver.
        -- left. rewrite bool_decide_eq_false_2 by congruence. simpl.
           repeat split; try lia; destruct (isfile p'); set_solver.
      * left. rewrite bool_decide_eq_false_2 by congruence. simpl. repeat split; try lia; done.
    + destruct (add_task_turned_away isfile priority ty fn a cb kw s Had) as (p' & ->). simpl.
      left. unfold queued_for, awaited_for, submitted_for. simpl. repeat split; try lia; done.
  - left. unfold run_get. destruct (running s && negb (awaiting_result s)) eqn:Hr; simpl; [|repeat split; try lia; done].
    apply andb_true_iff in Hr as [_ Hw%negb_true_iff].
    destruct (decide (task_queue s = [])) as [Hq|Hq].
    { rewrite get_empty by done. simpl. repeat split; try lia; done. }
    destruct (get_spec s Hq) as (q & r & x & -> & Hx & Hy).
    assert (Hc : (queued_for p s = (if targets p x.2 then 1 else 0) + length (filter (fun item : entry => targets p item.2 = true) q))%nat).
    { unfold queued_for. rewrite <- Hx. apply count_cons. }
    destruct r as [[pr task]|e].
    + specialize (Hy _ eq_refl). subst x. simpl in Hc.
      destruct (executor_shutdown s) eqn:Hs; simpl; rewrite Hs; simpl;
        unfold queued_for, awaited_for, submitted_for; simpl; rewrite ?Hw; simpl.
      * unfold on_loop_error. simpl. split; [|split]; [ | |done].
        -- unfold queued_for in Hc. simpl. lia.
        -- unfold queued_for in Hc. simpl. lia.
      * rewrite filter_app, length_app, (length_filter_cons_bool (targets p)), filter_nil.
        unfold queued_for in Hc. simpl. destruct (targets p task); repeat split; try lia; done.
    + assert ((queued_for p (set_queue q s) <= queued_for p s)%nat) by (rewrite Hc; unfold queued_for; simpl; lia).
      destruct e; simpl; unfold on_loop_error; simpl; destruct (run_task s); simpl;
      unfold queued_for, awaited_for, submitted_for in *; simpl in *; rewrite ?Hw; repeat split; try lia; done.
  - unfold run_result. destruct (awaiting_result s) eqn:Hw; [|left; repeat split; try lia; done].
    destruct (run_task s) as [t|] eqn:Ht; [|left; simpl; repeat split; try lia; done].
    assert (Hfail : forall e,
      let s1 := on_task_error t e (set_frame (Some t) false s) in
      fails t o = true ->
      ((queued_for p s1 + awaited_for p s1 <= queued_for p s + awaited_for p s)%nat /\
       (queued_for p s1 + submitted_for p s1 <= queued_for p s + submitted_for p s)%nat /\
       ((p ∈ _processed_files s) <-> (p ∈ _processed_files s1))) \/
      (queued_for p s = 0%nat /\ (p ∉ _processed_files s) /\ queued_for p s1 = 1%nat /\
       awaited_for p s1 = awaited_for p s /\ submitted_for p s1 = submitted_for p s /\
       p ∈ _processed_files s1) \/
      (exists o' t', LoopResult o = LoopResult o' /\ true = true /\ Some t = Some t' /\
         targets p t' = true /\ fails t' o' = true /\
         queued_for p s1 = queued_for p s /\ awaited_for p s1 = 0%nat /\
         submitted_for p s1 = submitted_for p s /\ p ∉ _processed_files s1)).
    { intros e s1 Hf. subst s1. unfold on_task_error.
      destruct (targets p t) eqn:Htg.
      - right; right. exists o, t. unfold targets in Htg. apply bool_decide_eq_true in Htg.
        rewrite Htg. unfold queued_for, awaited_for, submitted_for, targets. simpl.
        rewrite Htg. split_and!; try done; [by apply bool_decide_eq_true|set_solver].
      - left. unfold targets in Htg. apply bool_decide_eq_false in Htg.
        unfold queued_for, awaited_for, submitted_for. simpl.
        destruct (leading_str (args t)) as [p'|]; simpl; repeat split; try lia; try done;
          set_solver. }
    destruct o as [e|res [e|]]; simpl.
    + by apply Hfail.
    + destruct (callback t) eqn:Hcb; simpl.
      * apply Hfail. simpl. rewrite Hcb. done.
      * left. unfold queued_for, awaited_for, submitted_for. simpl. repeat split; try lia; done.
    + left. destruct (callback t); unfold queued_for, awaited_for, submitted_for; simpl;
        repeat split; try lia; done.
  - done.
Qed.

Lemma step_single p a s : keeps_file p a -> single p s -> single p (step a s).
Proof.
  intros Hk [H1 H2]. unfold single, unresolved_for in *.
  destruct (step_effect p a s Hk) as [(Ha & _ & Hp)|[(Hq & Hn & Hq' & Hw & _ & Hp)|
    (o & t & _ & Haw & Hrt & Htg & _ & Hq & Hw & _ & Hp)]].
  - split; [lia|]. intros. apply Hp, H2. lia.
  - assert (queued_for p s + awaited_for p s = 0)%nat as H0.
    { destruct (queued_for p s + awaited_for p s)%nat eqn:E; [done|]. destruct Hn. apply H2. lia. }
    split; [lia|done].
  - assert (awaited_for p s = 1)%nat as H0
      by (unfold awaited_for; by rewrite Haw, Hrt, Htg).
    split; lia.
Qed.

Lemma step_settled p a s : keeps_file p a -> settled p s -> settled p (step a s).
Proof.
  intros Hk [H1 H2]. unfold settled, unresolved_for in *.
  destruct (step_effect p a s Hk) as [(Ha & _ & Hp)|[(Hq & Hn & _)|
    (o & t & _ & Haw & Hrt & Htg & _)]].
  - split; [by apply Hp|lia].
  - done.
  - assert (awaited_for p s = 1)%nat as H0
      by (unfold awaited_for; by rewrite Haw, Hrt, Htg).
    lia.
Qed.

Lemma step_once p a s :
  keeps_file p a -> no_failure_for p [a] s -> once p s -> once p (step a s).
Proof.
  intros Hk [Hnf _] [H1 H2]. unfold once in *.
  destruct (step_effect p a s Hk) as [(_ & Ha & Hp)|[(Hq & Hn & Hq' & _ & Hs & Hp)|
    (o & t & -> & Haw & Hrt & Htg & Hf & _)]].
  - split; [lia|]. intros. apply Hp, H2. lia.
  - assert (queued_for p s + submitted_for p s = 0)%nat as H0.
    { destruct (queued_for p s + submitted_for p s)%nat eqn:E; [done|]. destruct Hn. apply H2. lia. }
    split; [lia|done].
  - rewrite (Hnf t Haw Hrt Htg) in Hf. done.
Qed.

Lemma run_actions_single p acts s :
  Forall (keeps_file p) acts -> single p s -> single p (run_actions acts s).
Proof.
  intros H. revert s. induction H as [|a acts Ha _ IH]; intros s Hs; [done|].
  simpl. apply IH. by apply step_single.
Qed.

Lemma run_actions_settled p acts s :
  Forall (keeps_file p) acts -> settled p s -> settled p (run_actions acts s).
Proof.
  intros H. revert s. induction H as [|a acts Ha _ IH]; intros s Hs; [done|].
  simpl. apply IH. by apply step_settled.
Qed.

Lemma run_actions_once p acts s :
  Forall (keeps_file p) acts -> no_failure_for p acts s -> once p s ->
  once p (run_actions acts s).
Proof.
  intros H. revert s. induction H as [|a acts Ha _ IH]; intros s Hnf Hs; [done|].
  simpl. destruct Hnf as [Hnf1 Hnf2]. apply IH; [done|]. apply step_once; [done| |done].
  split; done.
Qed.

Lemma single_init p : single p init.
Proof. split; [compute; lia|]. intros H. compute in H. lia. Qed.

Lemma once_init p : once p init.
Proof. split; [compute; lia|]. intros H. compute in H. lia. Qed.

End StepFacts.

(** ** Outcomes of a task, and [stop] *)
Section StopFacts.
Import Processor History Invariant Examples.

Lemma run_result_success o s t :
  awaiting_result s = true -> run_task s = Some t -> fails t o = false ->
  exists res,
    run_result o s = (emit (task_completed (type t) res) (set_frame (Some t) false s), Ok tt).
Proof.
  intros Hw Ht Hf. unfold run_result. rewrite Hw, Ht.
  destruct o as [e|res [e|]]; simpl in *; [done| |].
  - destruct (callback t); [|by exists res].
    apply bool_decide_eq_false in Hf. destruct Hf. eauto.
  - exists res. by destruct (callback t).
Qed.

Lemma run_result_failure e s t :
  awaiting_result s = true -> run_task s = Some t ->
  run_result (BodyRaised e) s = (on_task_error t e (set_frame (Some t) false s), Ok tt).
Proof. intros Hw Ht. unfold run_result. by rewrite Hw, Ht. Qed.

Lemma drain_fields fuel s :
  let s' := drain fuel s in
  running s' = running s /\ executor_shutdown s' = executor_shutdown s /\
  run_task s' = run_task s /\ awaiting_result s' = awaiting_result s /\
  submitted s' = submitted s /\ emitted s' = emitted s /\
  ((length (task_queue s) <= fuel)%nat -> task_queue s' = []).
Proof.
  revert s. induction fuel as [|fuel IH]; intros s; simpl.
  { split_and!; try done. intros H. apply length_zero_iff_nil. lia. }
  destruct (task_queue s) as [|i q0] eqn:Hq; [by rewrite Hq|].
  assert (Hne : task_queue s ≠ []) by (by rewrite Hq).
  destruct (get_spec s Hne) as (q & r & x & Hg & Hx & _).
  rewrite Hg. apply Permutation_length in Hx. simpl in Hx. rewrite Hq in Hx. simpl in Hx.
  destruct r as [[pr task]|e].
  - destruct (IH (log (WarningTaskDropped (type task)) (set_queue q s)))
      as (H1 & H2 & H3 & H4 & H5 & H6 & H7).
    simpl in *. split_and!; try done. intros. apply H7. lia.
  - destruct (IH (set_queue q s)) as (H1 & H2 & H3 & H4 & H5 & H6 & H7).
    simpl in *. split_and!; try done. intros. apply H7. lia.
Qed.

Lemma stop_fields s :
  let s' := stop s in
  running s' = false /\ executor_shutdown s' = true /\ task_queue s' = [] /\
  _processed_files s' = ∅ /\ run_task s' = run_task s /\
  awaiting_result s' = awaiting_result s /\
  submitted s' = submitted s /\ emitted s' = emitted s.
Proof.
  unfold stop.
  match goal with |- context [drain ?f ?s0] =>
    destruct (drain_fields f s0) as (H1 & H2 & H3 & H4 & H5 & H6 & H7) end.
  simpl in *. split_and!; try done. by apply H7.
Qed.

Lemma add_task_first isfile priority ty fn a cb kw s :
  task_queue s = [] -> accepted isfile a s = true ->
  let s' := (add_task isfile priority ty fn a cb kw s).1 in
  (add_task isfile priority ty fn a cb kw s).2 = Ok tt /\
  task_queue s' = [(priority, mkTask ty fn a kw cb)] /\
  running s' = running s /\ executor_shutdown s' = executor_shutdown s /\
  awaiting_result s' = awaiting_result s /\ submitted s' = submitted s /\
  emitted s' = emitted s /\
  forall p, leading_str a = Some p -> isfile p = true -> p ∈ _processed_files s'.
Proof.
  intros Hq Had. unfold accepted in Had. unfold add_task, put.
  destruct (leading_str a) as [p|] eqn:Hl.
  - destruct (isfile p) eqn:Hf; simpl in Had.
    + apply negb_true_iff in Had. rewrite Had. simpl. rewrite Hq. simpl.
      split_and!; try done. intros ? [= <-] _. set_solver.
    + rewrite Hq. simpl. split_and!; try done. intros ? [= <-] ?. congruence.
  - rewrite Hq. simpl. split_and!; done.
Qed.
End StopFacts.

(** ** Queues of one and two entries *)
Section SmallQueues.
Import Processor History.

Lemma add_task_accepted_eq isfile priority ty fn a cb kw s :
  accepted isfile a s = true ->
  add_task isfile priority ty fn a cb kw s =
    match put (priority, mkTask ty fn a kw cb) (set_processed (noted isfile a s) s) with
    | (s1, Raise e) => (s1, Raise e)
    | (s1, Ok _) => (log (DebugAddedTask priority ty) s1, Ok tt)
    end.
Proof.
  unfold accepted, add_task, noted. intros Had.
  destruct (leading_str a) as [p|]; [|by destruct s].
  destruct (isfile p); simpl in Had; [|by destruct s].
  apply negb_true_iff in Had. by rewrite Had.
Qed.

Lemma run_get_dispatch s q pr task :
  running s = true -> awaiting_result s = false -> executor_shutdown s = false ->
  get s = (set_queue q s, Ok (pr, task)) ->
  run_get s =
    (set_frame (Some task) true
       (submit task (log (InfoProcessingTask (type task))
                         (set_frame (Some task) false (set_queue q s)))),
     Ok tt).
Proof.
  intros Hr Hw Hs Hg. unfold run_get. rewrite Hr, Hw, Hg. simpl. by rewrite Hs.
Qed.

Lemma run_result_fields o s :
  let s' := (run_result o s).1 in
  task_queue s' = task_queue s /\ running s' = running s /\
  executor_shutdown s' = executor_shutdown s /\ submitted s' = submitted s /\
  (awaiting_result s = true -> is_Some (run_task s) -> awaiting_result s' = false).
Proof.
  unfold run_result. destruct (awaiting_result s); [|done].
  destruct (run_task s) as [t|]; [|by split_and!; try done; intros _ [? ?]].
  assert (forall e, let s' := on_task_error t e (set_frame (Some t) false s) in
    task_queue s' = task_queue s /\ running s' = running s /\
    executor_shutdown s' = executor_shutdown s /\ submitted s' = submitted s /\
    (true = true -> is_Some (Some t) -> awaiting_result s' = false)) as Hf.
  { intros e. unfold on_task_error. by destruct (leading_str (args t)). }
  destruct o as [e|res [e|]]; simpl; [apply Hf| |by destruct (callback t)].
  destruct (callback t); [apply Hf|done].
Qed.

(** Two unequal tasks of one priority cannot be compared. *)
Lemma put_tie item x s :
  task_queue s = [x] -> item.1 = x.1 -> item.2 ≠ x.2 ->
  put item s =
    (set_queue [x; item] s,
     Raise (TypeError "'<' not supported between instances of 'Task' and 'Task'")).
Proof.
  intros Hq He Hne. unfold put. rewrite Hq.
  unfold HeapQ.heappush, HeapQ.siftdown. simpl. unfold entry_lt.
  rewrite decide_True by done. by rewrite decide_False by done.
Qed.
End SmallQueues.

(** ** Dispatch by priority *)
Section ScheduleFacts.
Import Processor History Schedule HeapOrder.

Lemma entry_lt_key (a b : entry) :
  a.1 <> b.1 -> entry_lt a b = Ok (bool_decide (a.1 < b.1)).
Proof. intros H. unfold entry_lt. by rewrite decide_False. Qed.

Lemma get_nonempty s :
  task_queue s <> [] ->
  get s = (set_queue (HeapQ.heappop entry_lt (task_queue s)).1 s,
           (HeapQ.heappop entry_lt (task_queue s)).2).
Proof.
  intros H. unfold get. destruct (task_queue s) eqn:E; [done|].
  by destruct (HeapQ.heappop entry_lt (e :: l)).
Qed.

(** Enqueues with priorities that differ from one another and from the
    queued ones: each returns, the queue stays ordered and holds the old
    and the new entries. *)
Lemma add_all_ordered (rs : list request) (s : BackgroundProcessor) :
  heap_ordered fst (task_queue s) ->
  NoDup (map fst (task_queue s) ++ map req_priority rs) ->
  all_accepted rs s ->
  let r := add_all rs s in
  Forall (fun x => x = Ok tt) r.2 /\
  heap_ordered fst (task_queue r.1) /\
  task_queue r.1 ≡ₚ task_queue s ++ map request_entry rs /\
  running r.1 = running s /\ awaiting_result r.1 = awaiting_result s /\
  executor_shutdown r.1 = executor_shutdown s /\ submitted r.1 = submitted s.
Proof.
  revert s. induction rs as [|rq rs IH]; intros s Hh Hnd Had; simpl.
  { rewrite app_nil_r. split_and!; done. }
  destruct Had as [Had1 Had2].
  unfold add in *. rewrite add_task_accepted_eq in * by done. unfold put in *.
  set (e := (req_priority rq, _)) in *.
  set (s0 := set_processed _ s) in *.
  change (task_queue s0) with (task_queue s) in *.
  assert (Hnd1 : NoDup (map fst (task_queue s ++ [e]))).
  { rewrite map_app. simpl. simpl in Hnd.
    apply NoDup_app in Hnd as (H1 & H2 & H3). apply NoDup_app. split_and!; [done| |].
    - intros x Hx ->%list_elem_of_singleton. apply (H2 _ Hx). by left.
    - apply NoDup_cons in H3 as [_ _]. apply NoDup_singleton. }
  destruct (heappush_ordered (A:=entry) fst entry_lt entry_lt_key (task_queue s) e Hh Hnd1)
    as (h' & Hpush & Hh').
  pose proof (heappush_Permutation entry_lt (task_queue s) e) as Hperm.
  rewrite Hpush in *. simpl in *.
  set (s1 := Processor.log _ _) in *.
  destruct (IH s1) as (H1 & H2 & H3 & H4 & H5 & H6 & H7); [done| |done|].
  { simpl. rewrite Hperm. simpl.
    rewrite (Permutation_app_comm _ (_ :: _)) in Hnd. simpl in Hnd.
    apply NoDup_cons in Hnd as [Hn1 Hn2]. apply NoDup_cons. split.
    - rewrite elem_of_app in *. tauto.
    - by rewrite Permutation_app_comm. }
  destruct (add_all rs s1) as [s2 xs]. simpl in *.
  split_and!; try done; [by constructor|].
  rewrite H3, Hperm. simpl. by rewrite <- Permutation_middle.
Qed.

(** The turns of the loop on an ordered queue with different priorities:
    they submit the queued tasks by increasing priority number. *)
Lemma turns_ordered (outcomes : list outcome) (s : BackgroundProcessor) :
  heap_ordered fst (task_queue s) -> NoDup (map fst (task_queue s)) ->
  running s = true -> awaiting_result s = false -> executor_shutdown s = false ->
  length outcomes = length (task_queue s) ->
  exists order : list entry,
    order ≡ₚ task_queue s /\
    StronglySorted (fun a b : entry => a.1 < b.1) order /\
    submitted (turns outcomes s) = (submitted s ++ map snd order)%list.
Proof.
  revert s. induction outcomes as [|o outcomes IH]; intros s Hh Hnd Hr Hw Hs Hlen.
  { exists []. symmetry in Hlen. apply length_zero_iff_nil in Hlen.
    rewrite Hlen, app_nil_r. split_and!; [done|constructor|done]. }
  assert (Hne : task_queue s <> []) by (intros E; by rewrite E in Hlen).
  destruct (heappop_ordered (A:=entry) fst entry_lt entry_lt_key (task_queue s) Hh Hnd Hne)
    as ([pr task] & h' & Hpop & _ & Hh' & Hperm & Hmin).
  assert (Hget : get s = (set_queue h' s, Ok (pr, task))).
  { rewrite get_nonempty by done. by rewrite Hpop. }
  simpl. unfold run_iteration.
  rewrite (run_get_dispatch s h' pr task Hr Hw Hs Hget).
  set (d := set_frame _ _ _).
  destruct (run_result_fields o d) as (G1 & G2 & G3 & G4 & G5).
  destruct (IH (run_result o d).1) as (order & Ho1 & Ho2 & Ho3).
  - by rewrite G1.
  - rewrite G1. simpl. rewrite <- Hperm in Hnd. simpl in Hnd.
    by apply NoDup_cons in Hnd as [_ ?].
  - by rewrite G2.
  - apply G5; [done|by eexists].
  - by rewrite G3.
  - rewrite G1. simpl. apply Permutation_length in Hperm. simpl in *. lia.
  - exists ((pr, task) :: order). split_and!.
    + rewrite Ho1, G1. done.
    + constructor; [done|]. apply Forall_forall. intros x Hx.
      apply (Hmin x). by rewrite Ho1, G1 in Hx.
    + rewrite Ho3, G4. simpl. by rewrite <- app_assoc.
Qed.

(** In a list sorted by priority the entry of lower priority comes first. *)
Lemma sorted_before (order : list entry) (a b : entry) :
  StronglySorted (fun a b : entry => a.1 < b.1) order ->
  a ∈ order -> b ∈ order -> a.1 < b.1 ->
  exists l1 l2 l3, order = (l1 ++ a :: l2 ++ b :: l3)%list.
Proof.
  intros Hs Ha Hb Hlt.
  apply list_elem_of_split in Ha as (l1 & l2' & ->).
  apply elem_of_app in Hb as [Hb|Hb].
  - assert (b.1 < a.1); [|lia].
    apply (StronglySorted_app_1_elem_of _ _ _ b a Hs); [done|by left].
  - apply elem_of_cons in Hb as [->|Hb]; [lia|].
    apply list_elem_of_split in Hb as (l2 & l3 & ->). by exists l1, l2, l3.
Qed.

(** On an ordered queue with different priorities [stop] logs every
    queued task as dropped. *)
Lemma drain_ordered fuel (s : BackgroundProcessor) :
  heap_ordered fst (task_queue s) -> NoDup (map fst (task_queue s)) ->
  (length (task_queue s) <= fuel)%nat ->
  exists order : list entry,
    order ≡ₚ task_queue s /\
    logged (drain fuel s) =
      (logged s ++ map (fun e : entry => WarningTaskDropped (type e.2)) order)%list.
Proof.
  revert s. induction fuel as [|fuel IH]; intros s Hh Hnd Hf.
  { exists []. assert (task_queue s = []) as -> by (apply length_zero_iff_nil; lia).
    simpl. by rewrite app_nil_r. }
  destruct (decide (task_queue s = [])) as [Hq|Hne].
  { exists []. simpl. rewrite Hq. by rewrite app_nil_r. }
  destruct (heappop_ordered (A:=entry) fst entry_lt entry_lt_key (task_queue s) Hh Hnd Hne)
    as ([pr task] & h' & Hpop & _ & Hh' & Hperm & _).
  assert (Hget : get s = (set_queue h' s, Ok (pr, task))).
  { rewrite get_nonempty by done. by rewrite Hpop. }
  simpl. rewrite Hget. destruct (task_queue s) as [|e0 q0] eqn:Hq; [done|].
  destruct (IH (log (WarningTaskDropped (type task)) (set_queue h' s)))
    as (order & Ho1 & Ho2).
  - done.
  - simpl. rewrite <- Hperm in Hnd. simpl in Hnd. by apply NoDup_cons in Hnd as [_ ?].
  - simpl. apply Permutation_length in Hperm. simpl in *. lia.
  - exists ((pr, task) :: order). split; [by rewrite Ho1|].
    rewrite Ho2. simpl. by rewrite <- app_assoc.
Qed.

Lemma stop_ordered (s : BackgroundProcessor) :
  heap_ordered fst (task_queue s) -> NoDup (map fst (task_queue s)) ->
  exists order : list entry,
    order ≡ₚ task_queue s /\
    logged (stop s) =
      (logged s ++ map (fun e : entry => WarningTaskDropped (type e.2)) order)%list.
Proof.
  intros Hh Hnd. unfold stop.
  match goal with |- context [drain ?f ?s0] =>
    destruct (drain_ordered f s0) as (order & H1 & H2); [done..|] end.
  exists order. split; [done|]. exact H2.
Qed.
End ScheduleFacts.

(** ** Releasing files and directories *)
Section ResourceFacts.
Import Resources Ledger.

Lemma os_remove_gone p fs : files (os_remove p fs).1 !! p = None.
Proof.
  unfold os_remove. destruct (files fs !! p) eqn:E; simpl.
  - apply lookup_delete_eq.
  - by destruct (bool_decide _).
Qed.

Lemma cleanup_file_untracked p w :
  p ∉ _temp_files (self w) -> cleanup_file p w = (w, Ok tt).
Proof.
  intros H. unfold cleanup_file, bind, read. simpl.
  by rewrite bool_decide_eq_false_2.
Qed.

Lemma cleanup_directory_untracked d w :
  d ∉ _temp_directories (self w) -> cleanup_directory d w = (w, Ok tt).
Proof.
  intros H. unfold cleanup_directory, bind, read. simpl.
  by rewrite bool_decide_eq_false_2.
Qed.

(** A tracked file leaves the set and the disk; at most one [os.remove]. *)
Lemma cleanup_file_tracked p w :
  p ∈ _temp_files (self w) ->
  exists fs ev,
    cleanup_file p w =
      (mkWorld (set_temp_files (_temp_files (self w) ∖ {[p]}) (self w)) fs
               (trace w ++ ev), Ok tt) /\
    files fs !! p = None /\
    reclaims ev `sublist_of` [Remove p].
Proof.
  intros H. unfold cleanup_file, bind, read, when, try_finally, try_except, update, do.
  simpl. rewrite bool_decide_eq_true_2 by done.
  destruct (os_path_exists p (disk w)) eqn:Hex; simpl.
  - pose proof (os_remove_gone p (disk w)) as Hg.
    destruct (os_remove p (disk w)) as [fs [[]|e]]; simpl in *.
    + exists fs, [Remove p]. split_and!; [done|done|]. by cbv.
    + exists fs, [Remove p; Warning (RemoveFileFailed p e)].
      rewrite <- app_assoc. split_and!; [done|done|]. by cbv.
  - exists (disk w), []. rewrite app_nil_r. split_and!; [by destruct w| |by apply sublist_nil_l].
    unfold os_path_exists in Hex. apply orb_false_iff in Hex as [Hex _].
    apply bool_decide_eq_false in Hex. by apply eq_None_not_Some.
Qed.

Lemma cleanup_directory_tracked d w :
  d ∈ _temp_directories (self w) ->
  cleanup_directory d w =
    (mkWorld (set_temp_directories (_temp_directories (self w) ∖ {[d]}) (self w))
             (shutil_rmtree d (disk w)) (trace w ++ [Rmtree d]), Ok tt).
Proof.
  intros H. unfold cleanup_directory, bind, read, when, try_finally, try_except, update, do.
  simpl. by rewrite bool_decide_eq_true_2.
Qed.

Lemma expired_ok now p w : exists b, expired now p w = (w, Ok b).
Proof.
  unfold expired, bind, read, ret. simpl.
  destruct (os_path_exists p (disk w)) eqn:Hex; [|by eauto].
  unfold os_path_exists in Hex. unfold os_path_getmtime.
  destruct (files (disk w) !! p); [by eauto|].
  destruct (dirs (disk w) !! p); [by eauto|].
  cbv in Hex. done.
Qed.
End ResourceFacts.

Section Sweep.
Import Resources Ledger.
Variable cleanup : string -> M unit.
Variables tracked other : world -> gset string.
Variable mk : string -> effect.
Hypothesis cleanup_spec : forall x w,
  exists w' ev, cleanup x w = (w', Ok tt) /\ trace w' = (trace w ++ ev)%list /\
    tracked w' = tracked w ∖ {[x]} /\ other w' = other w /\
    reclaims ev `sublist_of` [mk x] /\ (x ∉ tracked w -> ev = []).

Lemma reclaims_app t1 t2 : reclaims (t1 ++ t2) = (reclaims t1 ++ reclaims t2)%list.
Proof. apply filter_app. Qed.

Lemma sweep_spec now xs w :
  exists w' ev, sweep now cleanup xs w = (w', Ok tt) /\
    trace w' = (trace w ++ ev)%list /\
    tracked w' ⊆ tracked w /\ other w' = other w /\
    reclaims ev `sublist_of` map mk xs /\
    forall e, e ∈ reclaims ev ->
      exists x, e = mk x /\ x ∈ tracked w /\ x ∉ tracked w'.
Proof.
  revert w. induction xs as [|x xs IH]; intros w; simpl.
  { exists w, []. rewrite app_nil_r. split_and!; try done. intros e He. inversion He. }
  unfold bind at 1. destruct (expired_ok now x w) as [b ->].
  destruct b; simpl; unfold bind at 1.
  - destruct (cleanup_spec x w) as (w1 & ev1 & -> & Ht1 & Hk1 & Ho1 & Hs1 & Hn1).
    destruct (IH w1) as (w' & ev2 & -> & Ht2 & Hk2 & Ho2 & Hs2 & Hm2).
    exists w', (ev1 ++ ev2)%list. rewrite reclaims_app.
    split_and!; [done|by rewrite Ht2, Ht1, app_assoc|set_solver|congruence| |].
    + change (mk x :: map mk xs) with ([mk x] ++ map mk xs)%list. by apply sublist_app.
    + intros e [He|He]%elem_of_app.
      * assert (e = mk x) as ->.
        { apply (elem_of_sublist _ _ _ He) in Hs1. by apply list_elem_of_singleton in Hs1. }
        exists x. split_and!; [done| |set_solver].
        destruct (decide (x ∈ tracked w)); [done|]. rewrite Hn1 in He by done. inversion He.
      * destruct (Hm2 e He) as (x' & -> & Hx1 & Hx2). exists x'. set_solver.
  - change (ret tt w) with (w, Ok tt). cbv iota beta.
    destruct (IH w) as (w' & ev2 & -> & Ht2 & Hk2 & Ho2 & Hs2 & Hm2).
    exists w', ev2. split_and!; try done. by apply sublist_cons.
Qed.
End Sweep.

Section CleanupAll.
Import Resources Ledger.

Lemma cleanup_directory_spec x w :
  exists w' ev, cleanup_directory x w = (w', Ok tt) /\ trace w' = (trace w ++ ev)%list /\
    _temp_directories (self w') = _temp_directories (self w) ∖ {[x]} /\
    _temp_files (self w') = _temp_files (self w) /\
    reclaims ev `sublist_of` [Rmtree x] /\
    (x ∉ _temp_directories (self w) -> ev = []).
Proof.
  destruct (decide (x ∈ _temp_directories (self w))) as [H|H].
  - rewrite cleanup_directory_tracked by done. eexists _, [Rmtree x].
    split_and!; try done.
  - rewrite cleanup_directory_untracked by done. exists w, [].
    rewrite app_nil_r. split_and!; try done; [set_solver|by apply sublist_nil_l].
Qed.

Lemma cleanup_file_spec x w :
  exists w' ev, cleanup_file x w = (w', Ok tt) /\ trace w' = (trace w ++ ev)%list /\
    _temp_files (self w') = _temp_files (self w) ∖ {[x]} /\
    _temp_directories (self w') = _temp_directories (self w) /\
    reclaims ev `sublist_of` [Remove x] /\
    (x ∉ _temp_files (self w) -> ev = []).
Proof.
  destruct (decide (x ∈ _temp_files (self w))) as [H|H].
  - destruct (cleanup_file_tracked x w H) as (fs & ev & -> & _ & Hs).
    eexists _, ev. split_and!; try done.
  - rewrite cleanup_file_untracked by done. exists w, [].
    rewrite app_nil_r. split_and!; try done; [set_solver|by apply sublist_nil_l].
Qed.

(** One sweep: it returns, reclaims no record twice, and what it
    reclaims was tracked before and is not tracked after. *)
Lemma cleanup_all_spec now w :
  exists w' ev, cleanup_all now w = (w', Ok tt) /\
    trace w' = (trace w ++ ev)%list /\
    _temp_directories (self w') ⊆ _temp_directories (self w) /\
    _temp_files (self w') ⊆ _temp_files (self w) /\
    NoDup (reclaims ev) /\
    forall e, e ∈ reclaims ev ->
      (exists x, e = Rmtree x /\ x ∈ _temp_directories (self w) /\
                 x ∉ _temp_directories (self w')) \/
      (exists x, e = Remove x /\ x ∈ _temp_files (self w) /\
                 x ∉ _temp_files (self w')).
Proof.
  unfold cleanup_all. unfold bind at 1, read at 1.
  unfold bind at 1.
  destruct (sweep_spec cleanup_directory
              (fun w => _temp_directories (self w)) (fun w => _temp_files (self w))
              Rmtree cleanup_directory_spec now
              (elements (_temp_directories (self w))) w)
    as (w1 & ev1 & -> & Ht1 & Hk1 & Ho1 & Hs1 & Hm1).
  unfold bind at 1, read at 1. unfold bind at 1.
  destruct (sweep_spec cleanup_file
              (fun w => _temp_files (self w)) (fun w => _temp_directories (self w))
              Remove cleanup_file_spec now
              (elements (_temp_files (self w1))) w1)
    as (w2 & ev2 & -> & Ht2 & Hk2 & Ho2 & Hs2 & Hm2).
  unfold update. simpl in *.
  eexists _, (ev1 ++ ev2)%list. split; [done|]. simpl. rewrite reclaims_app.
  split_and!; [by rewrite Ht2, Ht1, app_assoc|set_solver|set_solver| |].
  - apply NoDup_app. split_and!.
    + eapply sublist_NoDup; [|exact Hs1].
      apply NoDup_fmap_2; [by intros ?? [= ->]|apply NoDup_elements].
    + intros e He1 He2.
      destruct (Hm1 e He1) as (x & -> & _). destruct (Hm2 _ He2) as (x' & ? & _). done.
    + eapply sublist_NoDup; [|exact Hs2].
      apply NoDup_fmap_2; [by intros ?? [= ->]|apply NoDup_elements].
  - intros e [He|He]%elem_of_app.
    + left. destruct (Hm1 e He) as (x & -> & Hx1 & Hx2). exists x.
      split_and!; [done|done|]. by rewrite Ho2.
    + right. destruct (Hm2 e He) as (x & -> & Hx1 & Hx2). exists x.
      split_and!; [done| |done]. by rewrite <- Ho1.
Qed.
End CleanupAll.

(** ** The task queue and the dispatch loop *)
Section Dedup.
Import Processor History Invariant Examples.

(** C1.  Dedup invariant.  Take any history of a fresh processor made of
    enqueues, turns of the dispatch loop and task outcomes, up to [stop],
    in which [p] names a file whenever a task for [p] is enqueued.  Then
    at most one task for [p] is queued or in flight; while there is one,
    a further enqueue for [p] only writes the log line and returns; and,
    as long as no task for [p] has failed, at most one task for [p] has
    been handed to the executor. *)
Theorem dedup_invariant (p : string) (acts : list action) :
  Forall (keeps_file p) acts ->
  let s := run_actions acts init in
  (unresolved_for p s <= 1)%nat /\
  ((1 <= unresolved_for p s)%nat ->
   forall isfile priority ty fn rest cb kw,
     isfile p = true ->
     add_task isfile priority ty fn (VStr p :: rest) cb kw s =
       (log (InfoAlreadyProcessed p) s, Ok tt)) /\
  (no_failure_for p acts init -> (submitted_for p s <= 1)%nat).
Proof.
  intros Hk s.
  pose proof (run_actions_single p acts init Hk (single_init p)) as [H1 H2].
  fold s in H1, H2. split; [done|]. split.
  - intros Hu isfile priority ty fn rest cb kw Hf.
    apply add_task_rejected; [done|done|]. left. by apply H2.
  - intros Hnf.
    pose proof (run_actions_once p acts init Hk Hnf (once_init p)) as [H3 _].
    fold s in H3. lia.
Qed.

Lemma dedup_invariant_witness :
  let s := run_actions twice_enqueued init in
  (unresolved_for "f.pdf" s <= 1)%nat /\
  add_task on_disk 2 TEXT_EXTRACTION 7 [VStr "f.pdf"] None ∅ s =
    (log (InfoAlreadyProcessed "f.pdf") s, Ok tt) /\
  (submitted_for "f.pdf" s <= 1)%nat.
Proof.
  assert (Hk : Forall (keeps_file "f.pdf") twice_enqueued)
    by (repeat constructor).
  destruct (dedup_invariant "f.pdf" twice_enqueued Hk) as (H1 & H2 & H3).
  split; [exact H1|]. split.
  - apply H2; [vm_compute; lia|reflexivity].
  - apply H3. simpl. repeat split.
Defined.
End Dedup.

Section Outcomes.
Import Processor History Invariant HeapOrder Schedule Examples.

(** A failing task releases its path.  When the body of the task in
    flight raises, the turn of the loop ends without an exception, the
    loop keeps running, [task_failed] is emitted with the kind of the
    task and the message of the exception, and a leading string argument
    of the task leaves the set of processed files.  When no other task
    for that path is queued, a later enqueue for it joins the queue (and
    is noted again when the path names a file); and when the queue is in
    heap order with priorities that differ from one another and from the
    new one, as after enqueues without ties, the enqueue returns and the
    loop, after one turn for each queued task, has submitted the new
    task. *)
Theorem failure_releases_dedup (s : BackgroundProcessor) (t : Task) (e : exn) :
  awaiting_result s = true -> run_task s = Some t ->
  let s1 := (run_result (BodyRaised e) s).1 in
  (run_result (BodyRaised e) s).2 = Ok tt /\
  running s1 = running s /\
  emitted s1 = (emitted s ++ [task_failed (type t) (str_exn e)])%list /\
  forall p, leading_str (args t) = Some p ->
    (p ∉ _processed_files s1) /\
    (is_processing_file p s = false ->
     forall isfile priority ty fn rest cb kw,
       let task := mkTask ty fn (VStr p :: rest) kw cb in
       let r := add_task isfile priority ty fn (VStr p :: rest) cb kw s1 in
       (priority, task) ∈ task_queue r.1 /\
       (isfile p = true -> p ∈ _processed_files r.1) /\
       (running s = true -> executor_shutdown s = false ->
        heap_ordered fst (task_queue s) ->
        NoDup (priority :: map fst (task_queue s)) ->
        r.2 = Ok tt /\
        forall outcomes, length outcomes = S (length (task_queue s)) ->
          task ∈ submitted (turns outcomes r.1))).
Proof.
  intros Hw Ht s1. subst s1. rewrite (run_result_failure e s t Hw Ht). simpl.
  unfold on_task_error.
  split_and!; [done|by destruct (leading_str (args t))|by destruct (leading_str (args t))|].
  intros p Hl. rewrite Hl. simpl. split; [set_solver|].
  intros Hi isfile priority ty fn rest cb kw.
  set (s1 := set_processed _ _) in *.
  set (r := add_task isfile priority ty fn (VStr p :: rest) cb kw s1).
  assert (Had : accepted isfile (VStr p :: rest) s1 = true).
  { unfold accepted. simpl. unfold is_processing_file in *. simpl. rewrite Hi.
    rewrite bool_decide_eq_false_2 by set_solver. by rewrite orb_true_r. }
  destruct (add_task_accepted isfile priority ty fn (VStr p :: rest) cb kw s1 Had)
    as (q & r0 & lg & Hr & Hq).
  fold r in Hr. split_and!.
  - rewrite Hr. simpl. rewrite Hq. left.
  - intros Hf. rewrite Hr. simpl. rewrite Hf. set_solver.
  - intros Hrun Hsh Hh Hnd.
    set (rq := mkRequest isfile priority ty fn (VStr p :: rest) cb kw).
    destruct (add_all_ordered [rq] s1) as (H1 & H2 & H3 & H4 & H5 & H6 & H7).
    { done. }
    { simpl. rewrite Permutation_app_comm. done. }
    { split; done. }
    change (add_all [rq] s1) with (let '(s2, x) := r in (s2, [x])) in *.
    destruct r as [s2 x]. simpl in *.
    split; [by inversion H1|].
    intros outcomes Hlen.
    destruct (turns_ordered outcomes s2) as (order & Ho1 & _ & Ho3);
      [done| |by rewrite H4|by rewrite H5|by rewrite H6| |].
    + rewrite H3, map_app. simpl. rewrite Permutation_app_comm. done.
    + rewrite H3, length_app. simpl. lia.
    + rewrite Ho3. apply elem_of_app. right.
      apply (list_elem_of_fmap_2 snd order (priority, mkTask ty fn (VStr p :: rest) kw cb)).
      rewrite Ho1, H3. apply elem_of_app. right. left.
Qed.

Lemma failure_releases_dedup_witness :
  let s := run_actions one_in_flight init in
  let s1 := (run_result (BodyRaised (Exception "conversion failed")) s).1 in
  let r := add_task on_disk 1 FILE_CONVERSION 4 [VStr "f.pdf"] None ∅ s1 in
  (run_result (BodyRaised (Exception "conversion failed")) s).2 = Ok tt /\
  emitted s1 = [task_failed FILE_CONVERSION "conversion failed"] /\
  ("f.pdf" ∉ _processed_files s1) /\
  r.2 = Ok tt /\
  "f.pdf" ∈ _processed_files r.1 /\
  mkTask FILE_CONVERSION 4 [VStr "f.pdf"] ∅ None
    ∈ submitted (turns [BodyReturned (VStr "f.docx") None] r.1).
Proof.
  destruct (failure_releases_dedup (run_actions one_in_flight init)
              (mkTask FILE_CONVERSION 0 [VStr "f.pdf"] ∅ None)
              (Exception "conversion failed") eq_refl eq_refl)
    as (H1 & _ & H3 & H4).
  destruct (H4 "f.pdf" eq_refl) as (H5 & H6).
  destruct (H6 eq_refl on_disk 1 FILE_CONVERSION 4%nat [] None ∅) as (_ & H8 & H9).
  assert (Hh : heap_ordered fst (task_queue (run_actions one_in_flight init)))
    by (intros i Hi x y Hx; inversion Hx).
  assert (Hnd : NoDup (1 :: map fst (task_queue (run_actions one_in_flight init))))
    by apply NoDup_singleton.
  destruct (H9 eq_refl eq_refl Hh Hnd) as (H10 & H11).
  split; [exact H1|]. split; [exact H3|]. split; [exact H5|].
  split; [exact H10|]. split; [by apply H8|].
  by apply (H11 [BodyReturned (VStr "f.docx") None]).
Defined.

(** C10.  Tracking outlives success.  In a history in which [p] names a
    file whenever a task for [p] is enqueued, let a task for [p] be in
    flight and end without failure.  Then [p] stays in the set of
    processed files, also after any later calls short of [stop], and
    every later enqueue for [p] is turned away with the log line; [stop]
    empties the set, after which an enqueue for [p] is taken again. *)
Theorem tracking_outlives_success (p : string) (before after : list action) (o : outcome) :
  Forall (keeps_file p) before -> Forall (keeps_file p) after ->
  let s := run_actions before init in
  awaited_for p s = 1%nat ->
  (forall t, run_task s = Some t -> fails t o = false) ->
  let s1 := (run_result o s).1 in
  let s2 := run_actions after s1 in
  p ∈ _processed_files s1 /\ p ∈ _processed_files s2 /\
  (forall isfile priority ty fn rest cb kw,
     isfile p = true ->
     add_task isfile priority ty fn (VStr p :: rest) cb kw s2 =
       (log (InfoAlreadyProcessed p) s2, Ok tt)) /\
  _processed_files (stop s2) = ∅ /\
  (forall isfile priority ty fn rest cb kw,
     let r := add_task isfile priority ty fn (VStr p :: rest) cb kw (stop s2) in
     r.2 = Ok tt /\
     task_queue r.1 = [(priority, mkTask ty fn (VStr p :: rest) kw cb)]).
Proof.
  intros Hb Ha s Hw Ho s1 s2.
  pose proof (run_actions_single p before init Hb (single_init p)) as [H1 H2].
  fold s in H1, H2. unfold unresolved_for in *.
  assert (Hp : p ∈ _processed_files s) by (apply H2; lia).
  assert (Hq : queued_for p s = 0%nat) by lia.
  unfold awaited_for in Hw.
  destruct (awaiting_result s) eqn:Haw; [|done].
  destruct (run_task s) as [t|] eqn:Ht; [|done].
  destruct (run_result_success o s t Haw Ht (Ho t eq_refl)) as [res Hr].
  assert (Hs1 : settled p s1).
  { subst s1. rewrite Hr. split; [done|].
    unfold unresolved_for, awaited_for, queued_for in *. simpl. lia. }
  assert (Hs2 : settled p s2) by (by apply run_actions_settled).
  destruct (stop_fields s2) as (_ & _ & Hsq & Hsp & _).
  split_and!; [apply Hs1|apply Hs2| |done|].
  - intros. apply add_task_rejected; [done|done|]. left. apply Hs2.
  - intros isfile priority ty fn rest cb kw.
    assert (Had : accepted isfile (VStr p :: rest) (stop s2) = true).
    { unfold accepted, is_processing_file.
      change (leading_str (VStr p :: rest)) with (Some p). cbv iota beta.
      rewrite Hsq, Hsp. simpl.
      rewrite bool_decide_eq_false_2 by set_solver. by rewrite orb_true_r. }
    destruct (add_task_first isfile priority ty fn (VStr p :: rest) cb kw (stop s2) Hsq Had)
      as (Hr1 & Hr2 & _).
    done.
Qed.

Lemma tracking_outlives_success_witness :
  let s1 := (run_result (BodyReturned (VStr "out.pdf") None)
                        (run_actions one_in_flight init)).1 in
  let s2 := run_actions later_calls s1 in
  "f.pdf" ∈ _processed_files s1 /\ "f.pdf" ∈ _processed_files s2 /\
  add_task on_disk 1 FILE_CONVERSION 9 [VStr "f.pdf"] None ∅ s2 =
    (log (InfoAlreadyProcessed "f.pdf") s2, Ok tt) /\
  _processed_files (stop s2) = ∅ /\
  (add_task on_disk 1 FILE_CONVERSION 9 [VStr "f.pdf"] None ∅ (stop s2)).2 = Ok tt.
Proof.
  assert (Hb : Forall (keeps_file "f.pdf") one_in_flight) by (repeat constructor).
  assert (Ha : Forall (keeps_file "f.pdf") later_calls) by (repeat constructor).
  destruct (tracking_outlives_success "f.pdf" one_in_flight later_calls
              (BodyReturned (VStr "out.pdf") None) Hb Ha)
    as (H1 & H2 & H3 & H4 & H5).
  - reflexivity.
  - intros t _. reflexivity.
  - split; [exact H1|]. split; [exact H2|]. split; [by apply H3|].
    split; [exact H4|]. apply (H5 on_disk 1 FILE_CONVERSION 9%nat [] None ∅).
Defined.
End Outcomes.

Section Ordering.
Import Processor History Invariant Schedule Examples.

(** Dispatch by priority without ties.  Tasks with priorities that all differ are
    enqueued, in any order, on a running processor whose queue is empty,
    and each is let through by the check for duplicates.  Then every
    enqueue returns, the turns of the loop submit the queued tasks by
    increasing priority number, and so, of any two of them, the one with
    the lower priority number is submitted before the other, whichever was
    enqueued first and whatever the tasks in between did. *)
Theorem priority_dispatch (s : BackgroundProcessor) (rs : list request)
    (outcomes : list outcome) :
  task_queue s = [] -> running s = true -> awaiting_result s = false ->
  executor_shutdown s = false ->
  NoDup (map req_priority rs) -> all_accepted rs s ->
  length outcomes = length rs ->
  let queued := add_all rs s in
  let after := turns outcomes queued.1 in
  Forall (fun x => x = Ok tt) queued.2 /\
  task_queue queued.1 ≡ₚ map request_entry rs /\
  (exists order : list entry,
     order ≡ₚ map request_entry rs /\
     StronglySorted (fun a b : entry => a.1 < b.1) order /\
     submitted after = (submitted s ++ map snd order)%list) /\
  forall a b, a ∈ rs -> b ∈ rs -> req_priority a < req_priority b ->
    exists l1 l2 l3,
      submitted after =
        (submitted s ++ l1 ++ (request_entry a).2 :: l2 ++ (request_entry b).2 :: l3)%list.
Proof.
  intros Hq Hr Hw Hs Hnd Had Hlen queued after.
  destruct (add_all_ordered rs s) as (H1 & H2 & H3 & H4 & H5 & H6 & H7);
    [rewrite Hq; by intros i Hi x y Hx|by rewrite Hq|done|].
  fold queued in H1, H2, H3, H4, H5, H6, H7. rewrite Hq in H3. simpl in H3.
  destruct (turns_ordered outcomes queued.1) as (order & Ho1 & Ho2 & Ho3).
  - done.
  - rewrite H3. rewrite <- list_fmap_compose.
    by replace (fst ∘ request_entry) with req_priority by done.
  - by rewrite H4.
  - by rewrite H5.
  - by rewrite H6.
  - by rewrite H3, length_map.
  - fold after in Ho3. rewrite H7 in Ho3. rewrite H3 in Ho1.
    split_and!; [done|done|by exists order|].
    intros a b Ha Hb Hlt.
    destruct (sorted_before order (request_entry a) (request_entry b) Ho2)
      as (l1 & l2 & l3 & ->).
    + rewrite Ho1. by apply list_elem_of_fmap_2.
    + rewrite Ho1. by apply list_elem_of_fmap_2.
    + done.
    + exists (map snd l1), (map snd l2), (map snd l3).
      rewrite Ho3. by rewrite !map_app, !map_cons, !map_app, !map_cons.
Qed.

Lemma priority_dispatch_witness :
  let queued := add_all [late; urgent] init in
  let after := turns two_outcomes queued.1 in
  Forall (fun x => x = Ok tt) queued.2 /\
  exists l1 l2 l3,
    submitted after =
      (l1 ++ (request_entry urgent).2 :: l2 ++ (request_entry late).2 :: l3)%list.
Proof.
  assert (Hnd : NoDup (map req_priority [late; urgent])).
  { apply NoDup_cons. split; [|apply NoDup_singleton].
    intros H%list_elem_of_singleton. discriminate H. }
  assert (Had : all_accepted [late; urgent] init) by (repeat split).
  destruct (priority_dispatch init [late; urgent] two_outcomes
              eq_refl eq_refl eq_refl eq_refl Hnd Had eq_refl)
    as (H1 & _ & _ & H2).
  split; [exact H1|].
  apply (H2 urgent late).
  - right. left.
  - left.
  - reflexivity.
Defined.

(** C3.  FIFO tie-break.  The code has no insertion sequence: the queue
    holds the tuples [(priority, task)], and two different tasks of one
    priority are compared with [<], which [Task] lacks.  The second of
    two enqueues with priority 1 raises [TypeError] to its caller
    instead of succeeding. *)
Theorem equal_priority_enqueue_raises :
  let s1 := (add_task on_disk 1 FILE_CONVERSION 0 [VStr "a.docx"] None ∅ init).1 in
  (add_task on_disk 1 FILE_CONVERSION 1 [VStr "b.docx"] None ∅ s1).2 =
    Raise (TypeError "'<' not supported between instances of 'Task' and 'Task'").
Proof.
  intros s1.
  assert (Hq : task_queue s1 =
               [(1, mkTask FILE_CONVERSION 0 [VStr "a.docx"] ∅ None)]) by reflexivity.
  rewrite add_task_accepted_eq by reflexivity.
  by rewrite (put_tie _ (1, mkTask FILE_CONVERSION 0 [VStr "a.docx"] ∅ None)).
Qed.

(** C6.  Drain on stop.  Three tasks are queued, with priorities 1, 5
    and 5, and none is dispatched.  [stop] switches the loop off, shuts
    the executor down, empties the queue and the set of processed
    files, and submits and emits nothing; but it logs two dropped
    tasks, not three: [get_nowait] raises [TypeError] on the two
    entries of priority 5 while it takes the first entry off, and the
    bare [except] passes over it. *)
Theorem stop_drops_without_log :
  let s := run_actions three_queued init in
  length (task_queue s) = 3%nat /\
  running (stop s) = false /\ executor_shutdown (stop s) = true /\
  task_queue (stop s) = [] /\ _processed_files (stop s) = ∅ /\
  submitted (stop s) = [] /\ emitted (stop s) = [] /\
  logged (stop s) =
    (logged s ++ [WarningTaskDropped TEXT_EXTRACTION;
                  WarningTaskDropped FILE_ORGANIZATION])%list.
Proof. vm_compute. split_and!; reflexivity. Qed.
End Ordering.

(** ** The resource manager *)
Section ResourceManager.
Import Resources Ledger.

(** What the loop of [manage_com_object] does once it runs: with the
    retry budget of 3 and the base delay of 1 s, a connection that fails
    twice is made at the third attempt after waits of 1 s and 2 s, and
    three failures raise the last error with no wait after it. *)
Lemma attempts_third_time (e0 e1 : exn) (now : Z) (cls : string) (fs : filesystem) :
  attempts (fun n => match n with 0%nat => Raise e0 | 1%nat => Raise e1 | _ => Ok word end)
           now cls false 3 0 (mkWorld init fs []) =
    (mkWorld (set_resource_timestamps {[7%nat := now]} (set_com_objects ({[7%nat]} ∪ ∅) init)) fs
       [CoInitialize; DispatchEx cls; Warning (AttemptFailed 1 cls e0); Sleep 1;
        CoUninitialize;
        CoInitialize; DispatchEx cls; Warning (AttemptFailed 2 cls e1); Sleep 2;
        CoUninitialize;
        CoInitialize; DispatchEx cls; SetVisible 7 false; SetDisplayAlerts 7 false],
     Ok (2%nat, word)).
Proof. reflexivity. Qed.

Lemma attempts_exhausted (e0 e1 e2 : exn) (now : Z) (cls : string) (fs : filesystem) :
  attempts (fun n => match n with 0%nat => Raise e0 | 1%nat => Raise e1 | _ => Raise e2 end)
           now cls false 3 0 (mkWorld init fs []) =
    (mkWorld init fs
       [CoInitialize; DispatchEx cls; Warning (AttemptFailed 1 cls e0); Sleep 1;
        CoUninitialize;
        CoInitialize; DispatchEx cls; Warning (AttemptFailed 2 cls e1); Sleep 2;
        CoUninitialize;
        CoInitialize; DispatchEx cls; Warning (AttemptFailed 3 cls e2);
        CoUninitialize],
     Raise e2).
Proof. reflexivity. Qed.

(** C4.  Retry-then-fail acquisition.  [manage_com_object] opens with
    [with self._temp_files_lock], an attribute that [__init__] never
    binds: entering it raises [AttributeError] before the first
    connection attempt, whatever [DispatchEx] would have answered, and
    nothing is done to the outside.  No acquisition succeeds, and the
    error that reaches the caller is not the one of a connection. *)
Theorem manage_com_object_never_connects
    (dispatch : nat -> result com_object) (now : Z) (com_class : string)
    (visible : bool) (w : world) :
  manage_com_object dispatch now com_class visible w =
    (w, Raise (AttributeError
                 "'ResourceManager' object has no attribute '_temp_files_lock'")).
Proof. reflexivity. Qed.

(** C7.  Scoped temporary file.  Entering [temp_file] puts the new file
    on disk and in [_temp_files]; the [with] statement gives what its
    body gives, a value or the exception it raised; and in both cases
    the file is off the disk and out of [_temp_files] afterwards. *)
Theorem temp_file_reclaimed (suffix : option string) (name : string) (now : Z)
    (body : block) (w : world) :
  let w0 := (temp_file_enter suffix name now w).1 in
  let r := temp_file suffix name now body w in
  name ∈ _temp_files (self w0) /\ is_Some (files (disk w0) !! name) /\
  r.2 = (body name (disk w0)).2 /\
  files (disk r.1) !! name = None /\ name ∉ _temp_files (self r.1).
Proof.
  intros w0 r. subst w0 r.
  unfold temp_file, temp_file_enter, bind, update, ret, try_finally, run_block. simpl.
  split; [set_solver|]. split; [by rewrite lookup_insert_eq|].
  destruct (body name (create_file name now (disk w))) as [fs res] eqn:Hb. simpl.
  set (w1 := mkWorld _ fs _).
  assert (Ht : name ∈ _temp_files (self w1)) by (simpl; set_solver).
  destruct (cleanup_file_tracked name w1 Ht) as (fs' & ev & -> & Hg & _).
  simpl. split_and!; [done|done|set_solver].
Qed.

(** C8.  Release of everything.  The manager has no operation that
    reclaims regardless of age; the one the application calls when it
    closes is [cleanup_all], which leaves alone what is not older than
    [_max_resource_age].  A temporary file and a temporary directory
    registered five seconds earlier are still tracked, and still on
    disk, after it. *)
Theorem cleanup_all_keeps_recent :
  let r := cleanup_all 105 recent in
  r.2 = Ok tt /\
  "C:\Temp\tmpf.pdf" ∈ _temp_files (self r.1) /\
  "C:\Temp\tmpd" ∈ _temp_directories (self r.1) /\
  disk r.1 = disk recent /\ trace r.1 = [].
Proof. vm_compute. split_and!; try reflexivity; by apply bool_decide_unpack. Qed.

(** C9.  Double release and repeated sweep.  [cleanup_file] and
    [cleanup_directory] return without raising, and a second call on
    the same path changes nothing and returns; two calls of
    [cleanup_all] in a row both return without raising, and no record
    is reclaimed twice in the course of them. *)
Theorem release_twice_is_safe (path : string) (now1 now2 : Z) (w : world) :
  (cleanup_file path w).2 = Ok tt /\
  cleanup_file path (cleanup_file path w).1 = ((cleanup_file path w).1, Ok tt) /\
  (cleanup_directory path w).2 = Ok tt /\
  cleanup_directory path (cleanup_directory path w).1 =
    ((cleanup_directory path w).1, Ok tt) /\
  let w1 := (cleanup_all now1 w).1 in
  let w2 := (cleanup_all now2 w1).1 in
  (cleanup_all now1 w).2 = Ok tt /\ (cleanup_all now2 w1).2 = Ok tt /\
  NoDup (reclaims (since w w2)).
Proof.
  split_and!.
  - by destruct (cleanup_file_spec path w) as (w' & ev & -> & _).
  - destruct (cleanup_file_spec path w) as (w' & ev & -> & _ & Hk & _). simpl.
    apply cleanup_file_untracked. rewrite Hk. set_solver.
  - by destruct (cleanup_directory_spec path w) as (w' & ev & -> & _).
  - destruct (cleanup_directory_spec path w) as (w' & ev & -> & _ & Hk & _). simpl.
    apply cleanup_directory_untracked. rewrite Hk. set_solver.
  - intros w1 w2. subst w1 w2. split_and!.
    { by destruct (cleanup_all_spec now1 w) as (w' & ev & -> & _). }
    { by destruct (cleanup_all_spec now2 (cleanup_all now1 w).1) as (w' & ev & -> & _). }
    destruct (cleanup_all_spec now1 w) as (w1 & ev1 & -> & Ht1 & Hd1 & Hf1 & Hn1 & Hm1).
    simpl.
    destruct (cleanup_all_spec now2 w1) as (w2 & ev2 & -> & Ht2 & Hd2 & Hf2 & Hn2 & Hm2).
    simpl. unfold since. rewrite Ht2, Ht1, <- app_assoc, drop_app_length, reclaims_app.
    apply NoDup_app. split_and!; [done| |done].
    intros e He1 He2.
    destruct (Hm1 e He1) as [(x & -> & _ & Hx)|(x & -> & _ & Hx)];
      destruct (Hm2 _ He2) as [(x' & Hx' & Hin & _)|(x' & Hx' & Hin & _)];
      simplify_eq; done.
Qed.
End ResourceManager.

(** ** Ties in the queue *)
Section TiesFacts.
Import Processor History Schedule Examples Ties.

(** C2.  Priority ordering.  Three tasks are enqueued with the priorities
    1, 5 and 5; every [add_task] returns and the three are in the queue
    before the loop takes one.  The first [get] of the loop takes the
    entry of priority 1 off the queue and then compares the two entries of
    priority 5: [TypeError], which the handler of the loop logs.  The task
    of priority 1 is never handed to the executor; the two tasks of
    priority 5 are, in the next turns.  So of two queued tasks with the
    priorities 1 and 5 the one with priority 5 is dispatched and the
    other is not. *)
Theorem lowest_priority_lost_on_tie :
  let queued := add_all [first; second; third] init in
  let after := turns three_return queued.1 in
  queued.2 = [Ok tt; Ok tt; Ok tt] /\
  task_queue queued.1 = [request_entry first; request_entry second; request_entry third] /\
  submitted after = [(request_entry second).2; (request_entry third).2] /\
  task_queue after = [] /\
  logged (run_get queued.1).1 =
    (logged queued.1 ++
     [ErrorTaskProcessingFailed "'<' not supported between instances of 'Task' and 'Task'"])%list.
Proof. vm_compute. split_and!; reflexivity. Qed.

(** C5.  Retry unlocks dedup.  The task for ["f.pdf"] is in flight and
    its body raises: the turn ends without an exception, [task_failed] is
    emitted with the type and the message, and the path leaves the set of
    processed files.  The file is enqueued again, with priority 0, and
    two more tasks are enqueued with priority 5; every [add_task]
    returns.  The next [get] of the loop takes the new task for
    ["f.pdf"] off the queue and then compares the two entries of priority
    5: [TypeError].  The new task is never handed to the executor, and
    ["f.pdf"] stays in the set of processed files, so that a further
    enqueue for it is turned away. *)
Theorem retry_lost_on_tie :
  let s := run_actions one_in_flight init in
  let failed := run_result (BodyRaised (Exception "conversion failed")) s in
  let queued := add_all [again; second; third] failed.1 in
  let after := turns three_return queued.1 in
  failed.2 = Ok tt /\
  emitted failed.1 = [task_failed FILE_CONVERSION "conversion failed"] /\
  _processed_files failed.1 = ∅ /\
  queued.2 = [Ok tt; Ok tt; Ok tt] /\
  task_queue queued.1 = [request_entry again; request_entry second; request_entry third] /\
  submitted after =
    [mkTask FILE_CONVERSION 0 [VStr "f.pdf"] ∅ None;
     (request_entry second).2; (request_entry third).2] /\
  task_queue after = [] /\
  add_task on_disk 1 FILE_CONVERSION 5 [VStr "f.pdf"] None ∅ after =
    (log (InfoAlreadyProcessed "f.pdf") after, Ok tt).
Proof. vm_compute. split_and!; reflexivity. Qed.
End TiesFacts.

(** * Further properties *)

(** ** Entries that can all be compared *)
Section HeapQTotal.
Context {A : Type} (lt : A -> A -> result bool).
Import HeapQ HeapTotal.

Lemma comparable_Permutation (h h' : list A) :
  h ≡ₚ h' -> comparable lt h' -> comparable lt h.
Proof. intros Hp Hc a b Ha Hb. apply Hc; by rewrite <- Hp. Qed.

Lemma siftdown_loop_total fuel (heap : list A) startpos pos :
  comparable lt heap -> (pos < length heap)%nat ->
  (siftdown_loop lt fuel heap startpos pos).2 = Ok tt.
Proof.
  revert heap pos. induction fuel as [|fuel IH]; intros heap pos Hc Hpos; [done|].
  cbn [siftdown_loop]. destruct (decide (startpos < pos)%nat); [|done].
  pose proof (parent_le pos) as Hle.
  destruct (lookup_lt_is_Some_2 heap pos Hpos) as [x Hx].
  destruct (lookup_lt_is_Some_2 heap ((pos - 1) / 2)%nat ltac:(lia)) as [y Hy].
  rewrite Hx, Hy.
  pose proof (Hc x y (list_elem_of_lookup_2 _ _ _ Hx) (list_elem_of_lookup_2 _ _ _ Hy)) as Hxy.
  destruct (lt x y) as [[]|]; [|done..].
  apply IH.
  - eapply comparable_Permutation; [apply swap_Permutation|done].
  - rewrite swap_length. lia.
Qed.

Lemma siftup_loop_total fuel (heap : list A) pos :
  comparable lt heap -> (pos < length heap)%nat ->
  exists leaf, (siftup_loop lt fuel heap pos).2 = Ok leaf /\
               (leaf < length (siftup_loop lt fuel heap pos).1)%nat.
Proof.
  revert heap pos. induction fuel as [|fuel IH]; intros heap pos Hc Hpos; [by exists pos|].
  cbn [siftup_loop]. destruct (decide (pos < length heap / 2)%nat) as [Hlim|]; [|by exists pos].
  pose proof (half_spec (length heap)) as Hh.
  match goal with |- context [match ?c with Ok _ => _ | Raise _ => _ end] =>
    assert (exists child, c = Ok child /\ (child < length heap)%nat) as (child & -> & Hchild) end.
  { destruct (decide (2 * pos + 1 + 1 < length heap)%nat) as [Hr|Hr].
    - destruct (lookup_lt_is_Some_2 heap (2 * pos + 1) ltac:(lia)) as [x Hx].
      destruct (lookup_lt_is_Some_2 heap (2 * pos + 1 + 1) ltac:(lia)) as [y Hy].
      rewrite Hx, Hy.
      pose proof (Hc x y (list_elem_of_lookup_2 _ _ _ Hx) (list_elem_of_lookup_2 _ _ _ Hy)) as Hxy.
      destruct (lt x y) as [[]|]; [| |done]; eexists; (split; [done|lia]).
    - eexists; split; [done|lia]. }
  apply IH.
  - eapply comparable_Permutation; [apply swap_Permutation|done].
  - by rewrite swap_length.
Qed.

Lemma siftup_total (heap : list A) pos :
  comparable lt heap -> (pos < length heap)%nat -> (siftup lt heap pos).2 = Ok tt.
Proof.
  intros Hc Hpos. unfold siftup. rewrite decide_True by done.
  destruct (siftup_loop_total (length heap) heap pos Hc Hpos) as (leaf & Hl & Hlen).
  pose proof (siftup_loop_Permutation lt (length heap) heap pos) as Hp.
  destruct (siftup_loop lt (length heap) heap pos) as [heap' r]. simpl in *. subst r.
  unfold siftdown. rewrite decide_True by done.
  apply siftdown_loop_total; [|done].
  by eapply comparable_Permutation.
Qed.

(** [heappush] and [heappop] raise only out of a comparison. *)
Lemma heappush_total (heap : list A) item :
  comparable lt (item :: heap) -> (heappush lt heap item).2 = Ok tt.
Proof.
  intros Hc. unfold heappush, siftdown.
  rewrite length_app. simpl. rewrite decide_True by lia.
  apply siftdown_loop_total; [|rewrite length_app; simpl; lia].
  eapply comparable_Permutation; [|done]. by rewrite Permutation_app_comm.
Qed.

Lemma heappop_total (heap : list A) :
  comparable lt heap -> heap <> [] -> is_ok (heappop lt heap).2 = true.
Proof.
  intros Hc Hne. unfold heappop.
  destruct (last heap) as [lastelt|] eqn:Hlast; [|by apply last_None in Hlast].
  apply last_Some in Hlast as [front ->].
  rewrite length_app, Nat.add_sub, take_app_length.
  destruct front as [|returnitem rest]; [done|].
  assert (Hs : (siftup lt (lastelt :: rest) 0).2 = Ok tt).
  { apply siftup_total; [|simpl; lia].
    intros a b Ha Hb. apply Hc.
    - apply elem_of_cons in Ha as [->|Ha]; [set_solver|]. set_solver.
    - apply elem_of_cons in Hb as [->|Hb]; [set_solver|]. set_solver. }
  destruct (siftup lt (lastelt :: rest) 0) as [h2 r]. simpl in Hs. by subst r.
Qed.
End HeapQTotal.

Section HeapQRaises.
Context {A : Type} (lt : A -> A -> result bool).
Import HeapQ.

(** [siftdown] compares the entry it moves, and nothing else, with the
    entries above it: an exception comes out of one of these comparisons. *)
Lemma siftdown_loop_raises fuel (heap : list A) startpos pos x e :
  heap !! pos = Some x ->
  (siftdown_loop lt fuel heap startpos pos).2 = Raise e ->
  exists y, y ∈ heap /\ lt x y = Raise e.
Proof.
  revert heap pos. induction fuel as [|fuel IH]; intros heap pos Hx; [done|].
  cbn [siftdown_loop]. destruct (decide (startpos < pos)%nat); [|done].
  pose proof (parent_le pos) as Hle.
  pose proof (lookup_lt_Some _ _ _ Hx) as Hpos.
  destruct (lookup_lt_is_Some_2 heap ((pos - 1) / 2)%nat ltac:(lia)) as [y Hy].
  rewrite Hx, Hy.
  destruct (lt x y) as [[]|e'] eqn:Hlt; [|done|].
  - intros Hr. destruct (IH (swap heap ((pos - 1) / 2)%nat pos) ((pos - 1) / 2)%nat) as (z & Hz & Hxz).
    + rewrite (swap_lookup _ _ _ _ y x) by done. by rewrite decide_True.
    + done.
    + exists z. split; [|done]. by rewrite swap_Permutation in Hz.
  - simpl. intros [= ->]. exists y. split; [|done]. by eapply list_elem_of_lookup_2.
Qed.

Lemma heappush_raises (heap : list A) item e :
  (heappush lt heap item).2 = Raise e ->
  exists y, y ∈ item :: heap /\ lt item y = Raise e.
Proof.
  unfold heappush, siftdown. rewrite length_app. simpl.
  rewrite decide_True by lia. rewrite Nat.add_sub. intros Hr.
  destruct (siftdown_loop_raises _ _ _ _ item e ltac:(by apply list_lookup_middle) Hr)
    as (y & Hy & Hlt).
  exists y. split; [|done]. set_solver.
Qed.
End HeapQRaises.

(** ** Comparisons in the queue *)
Section QueueErrors.
Import Processor History Conduct HeapTotal.

Lemma entry_lt_raises (a b : entry) e :
  entry_lt a b = Raise e -> e = unorderable /\ a.1 = b.1 /\ a.2 <> b.2.
Proof.
  unfold entry_lt. destruct (decide (a.1 = b.1)); [|done].
  destruct (decide (a.2 = b.2)); [done|]. by intros [= <-].
Qed.

Lemma tie_free_comparable (q : list entry) : tie_free q -> comparable entry_lt q.
Proof.
  intros Hq a b Ha Hb. destruct (entry_lt a b) eqn:E; [done|].
  apply entry_lt_raises in E as (_ & H1 & H2). destruct H2. by apply Hq.
Qed.

Lemma tie_free_Permutation (q q' : list entry) : q ≡ₚ q' -> tie_free q' -> tie_free q.
Proof. intros Hp Hq a b Ha Hb. apply Hq; by rewrite <- Hp. Qed.

Lemma tie_free_cons x (q : list entry) : tie_free (x :: q) -> tie_free q.
Proof. intros Hq a b Ha Hb. apply Hq; by right. Qed.

Lemma put_raises item s e :
  (put item s).2 = Raise e ->
  e = unorderable /\ exists y : entry, y ∈ task_queue s /\ y.1 = item.1 /\ y.2 <> item.2.
Proof.
  unfold put. intros Hr.
  destruct (HeapQ.heappush entry_lt (task_queue s) item) as [q r] eqn:Hp.
  simpl in Hr. subst r.
  destruct (heappush_raises entry_lt (task_queue s) item e) as (y & Hy & Hlt);
    [by rewrite Hp|].
  apply entry_lt_raises in Hlt as (-> & H1 & H2). split; [done|].
  exists y. apply elem_of_cons in Hy as [->|Hy]; [done|]. split_and!; [done|done|congruence].
Qed.

(** On a queue without ties [get] gives an entry of the queue and takes
    it, and nothing else, off the queue. *)
Lemma get_tie_free s :
  tie_free (task_queue s) -> task_queue s <> [] ->
  exists q x, get s = (set_queue q s, Ok x) /\ x :: q ≡ₚ task_queue s.
Proof.
  intros Hq Hne. destruct (get_spec s Hne) as (q & r & x & Hg & Hx & Hy).
  pose proof (heappop_total entry_lt (task_queue s) (tie_free_comparable _ Hq) Hne) as Hok.
  rewrite get_nonempty in Hg by done. injection Hg as Hg1 Hg2.
  rewrite Hg2 in Hok. destruct r as [y|]; [|done].
  rewrite (Hy y eq_refl) in *. exists q, x. split; [|done].
  rewrite get_nonempty by done. by rewrite Hg2, <- Hg1.
Qed.
End QueueErrors.

(** ** More of the task queue and the dispatch loop *)
Section ConductFacts.
Import Processor History Conduct Examples.

(** X1.  [add_task] raises nothing but the [TypeError] of a comparison of
    two tasks, and only when the queue holds an entry of the same
    priority with a different task. *)
Theorem add_task_raises_only_on_tie (isfile : string -> bool) (priority : Z)
    (ty : TaskType) (fn : nat) (a : list value) (cb : option nat)
    (kw : gmap string value) (s : BackgroundProcessor) (e : exn) :
  (add_task isfile priority ty fn a cb kw s).2 = Raise e ->
  e = unorderable /\
  exists y : entry, y ∈ task_queue s /\ y.1 = priority /\ y.2 <> mkTask ty fn a kw cb.
Proof.
  intros Hr.
  destruct (accepted isfile a s) eqn:Had.
  - rewrite add_task_accepted_eq in Hr by done.
    destruct (put _ _) as [s1 [[]|e1]] eqn:Hp; simpl in Hr; [done|]. injection Hr as ->.
    apply (put_raises (priority, mkTask ty fn a kw cb) (set_processed (noted isfile a s) s)).
    by rewrite Hp.
  - destruct (add_task_turned_away isfile priority ty fn a cb kw s Had) as (p & Hp).
    by rewrite Hp in Hr.
Qed.

Lemma add_task_raises_only_on_tie_witness :
  unorderable = unorderable /\
  exists y : entry, y ∈ task_queue (run_actions tied init) /\ y.1 = 1 /\
    y.2 <> mkTask FILE_CONVERSION 1 [VStr "b.docx"] ∅ None.
Proof.
  apply (add_task_raises_only_on_tie on_disk 1 FILE_CONVERSION 1 [VStr "b.docx"] None ∅
           (run_actions tied init) unorderable).
  reflexivity.
Defined.

(** X2.  An enqueue that raised is not undone: the task is in the queue,
    its file is marked as processed, and every further enqueue for that
    file is turned away with the log line. *)
Theorem failed_enqueue_stays_queued (isfile : string -> bool) (priority : Z)
    (ty : TaskType) (fn : nat) (a : list value) (cb : option nat)
    (kw : gmap string value) (s : BackgroundProcessor) (e : exn) (p : string) :
  (add_task isfile priority ty fn a cb kw s).2 = Raise e ->
  leading_str a = Some p -> isfile p = true ->
  let s1 := (add_task isfile priority ty fn a cb kw s).1 in
  (priority, mkTask ty fn a kw cb) ∈ task_queue s1 /\
  p ∈ _processed_files s1 /\
  forall priority' ty' fn' rest cb' kw',
    add_task isfile priority' ty' fn' (VStr p :: rest) cb' kw' s1 =
      (log (InfoAlreadyProcessed p) s1, Ok tt).
Proof.
  intros Hr Hl Hf s1.
  destruct (accepted isfile a s) eqn:Had.
  - destruct (add_task_accepted isfile priority ty fn a cb kw s Had) as (q & r & lg & Heq & Hq).
    subst s1. rewrite Heq. simpl. rewrite Hl, Hf.
    assert (Hin : (priority, mkTask ty fn a kw cb) ∈ q) by (rewrite Hq; by left).
    split_and!; [done|set_solver|].
    intros. apply add_task_rejected; [done|done|]. left. simpl. set_solver.
  - destruct (add_task_turned_away isfile priority ty fn a cb kw s Had) as (p' & Hp).
    by rewrite Hp in Hr.
Qed.

Lemma failed_enqueue_stays_queued_witness :
  let s1 := (add_task on_disk 1 FILE_CONVERSION 1 [VStr "b.docx"] None ∅
               (run_actions tied init)).1 in
  (1, mkTask FILE_CONVERSION 1 [VStr "b.docx"] ∅ None) ∈ task_queue s1 /\
  "b.docx" ∈ _processed_files s1 /\
  forall priority' ty' fn' rest cb' kw',
    add_task on_disk priority' ty' fn' (VStr "b.docx" :: rest) cb' kw' s1 =
      (log (InfoAlreadyProcessed "b.docx") s1, Ok tt).
Proof.
  apply (failed_enqueue_stays_queued on_disk 1 FILE_CONVERSION 1 [VStr "b.docx"] None ∅
           (run_actions tied init) unorderable "b.docx");
    reflexivity.
Defined.

(** X3.  Every task that the loop has waited for ends with exactly one
    signal: [task_completed] with the result when the body and the
    callback return, and otherwise [task_failed] with the message of the
    exception and no [task_completed]; a callback that raises makes the
    task fail although its body returned.  The turn does not raise, the
    queue is as before, and the set of processed files changes only on
    failure, by the release of the task's path. *)
Theorem one_signal_per_task (o : outcome) (s : BackgroundProcessor) (t : Task) :
  awaiting_result s = true -> run_task s = Some t ->
  let r := run_result o s in
  r.2 = Ok tt /\ awaiting_result r.1 = false /\ task_queue r.1 = task_queue s /\
  submitted r.1 = submitted s /\
  emitted r.1 =
    (emitted s ++
     [match o with
      | BodyRaised e => task_failed (type t) (str_exn e)
      | BodyReturned res (Some e) =>
        if callback t is Some _ then task_failed (type t) (str_exn e)
        else task_completed (type t) res
      | BodyReturned res None => task_completed (type t) res
      end])%list /\
  _processed_files r.1 =
    (if fails t o then
       match leading_str (args t) with
       | Some p => _processed_files s ∖ {[p]}
       | None => _processed_files s
       end
     else _processed_files s).
Proof.
  intros Hw Ht r. subst r. unfold run_result. rewrite Hw, Ht.
  assert (Hf : forall e,
    let s1 := on_task_error t e (set_frame (Some t) false s) in
    awaiting_result s1 = false /\ task_queue s1 = task_queue s /\
    submitted s1 = submitted s /\
    emitted s1 = (emitted s ++ [task_failed (type t) (str_exn e)])%list /\
    _processed_files s1 =
      match leading_str (args t) with
      | Some p => _processed_files s ∖ {[p]}
      | None => _processed_files s
      end).
  { intros e. unfold on_task_error. by destruct (leading_str (args t)). }
  destruct o as [e|res [e|]]; simpl.
  - destruct (Hf e) as (?&?&?&?&?). by split_and!.
  - destruct (callback t); simpl.
    + destruct (Hf e) as (?&?&?&?&?). by split_and!.
    + by split_and!.
  - destruct (callback t); by split_and!.
Qed.

Lemma one_signal_per_task_witness :
  let r := run_result (BodyReturned (VStr "text") (Some (Exception "slot failed")))
                      (run_actions with_callback init) in
  r.2 = Ok tt /\ emitted r.1 = [task_failed TEXT_EXTRACTION "slot failed"] /\
  "scan.pdf" ∉ _processed_files r.1.
Proof.
  destruct (one_signal_per_task
              (BodyReturned (VStr "text") (Some (Exception "slot failed")))
              (run_actions with_callback init)
              (mkTask TEXT_EXTRACTION 0 [VStr "scan.pdf"] ∅ (Some 4%nat))
              eq_refl eq_refl) as (H1 & _ & _ & _ & H5 & H6).
  split; [exact H1|]. split; [exact H5|].
  rewrite H6. simpl. set_solver.
Defined.

(** X4.  When the [get] of the loop raises out of a comparison, the loop
    goes on: the turn ends without an exception, nothing is handed to the
    executor, one entry has left the queue, and [task_failed] is emitted
    for the task that was dispatched before, with its type, or not at
    all when there was none. *)
Theorem compare_error_blames_previous_task (s : BackgroundProcessor) (e : exn) :
  running s = true -> awaiting_result s = false ->
  (get s).2 = Raise e -> e <> QueueEmpty ->
  let r := run_get s in
  r.2 = Ok tt /\ running r.1 = true /\ awaiting_result r.1 = false /\
  submitted r.1 = submitted s /\
  S (length (task_queue r.1)) = length (task_queue s) /\
  run_task r.1 = run_task s /\
  emitted r.1 =
    (emitted s ++
     match run_task s with
     | Some previous => [task_failed (type previous) (str_exn e)]
     | None => []
     end)%list.
Proof.
  intros Hr Hw Hg Hne r. subst r. unfold run_get. rewrite Hr, Hw. simpl.
  destruct (decide (task_queue s = [])) as [Hq|Hq].
  { rewrite get_empty in Hg by done. simpl in Hg. congruence. }
  destruct (get_spec s Hq) as (q & r & x & Heq & Hx & _).
  rewrite Heq in *. simpl in Hg. subst r.
  apply Permutation_length in Hx. simpl in Hx.
  destruct e; try done; unfold on_loop_error; simpl;
    destruct (run_task s) eqn:Ht; simpl; rewrite ?app_nil_r; by split_and!.
Qed.

Lemma compare_error_blames_previous_task_witness :
  let s := run_actions after_one_task init in
  let r := run_get s in
  r.2 = Ok tt /\ submitted r.1 = submitted s /\
  S (length (task_queue r.1)) = length (task_queue s) /\
  emitted r.1 = (emitted s ++ [task_failed FILE_CONVERSION (str_exn unorderable)])%list.
Proof.
  destruct (compare_error_blames_previous_task (run_actions after_one_task init) unorderable)
    as (H1 & _ & _ & H4 & H5 & _ & H7); [reflexivity..|discriminate|].
  split; [exact H1|]. split; [exact H4|]. split; [|exact H7].
  exact H5.
Defined.

Lemma drain_dropped fuel (s : BackgroundProcessor) :
  exists dropped : list entry,
    dropped ⊆+ task_queue s /\
    logged (drain fuel s) = (logged s ++ map dropped_line dropped)%list /\
    (tie_free (task_queue s) -> (length (task_queue s) <= fuel)%nat ->
     dropped ≡ₚ task_queue s).
Proof.
  revert s. induction fuel as [|fuel IH]; intros s.
  { exists []. simpl. rewrite app_nil_r. split_and!; [apply submseteq_nil_l|done|].
    intros _ H. symmetry. apply Permutation_nil_r, length_zero_iff_nil. lia. }
  destruct (decide (task_queue s = [])) as [Hq|Hne].
  { exists []. simpl. rewrite Hq, app_nil_r. split_and!; done. }
  cbn [drain]. destruct (task_queue s) as [|e0 q0] eqn:Hq0; [done|]. rewrite <- Hq0 in *.
  destruct (get_spec s Hne) as (q & r & x & Hg & Hx & Hy).
  rewrite Hg. destruct r as [[pr task]|e].
  - specialize (Hy _ eq_refl). subst x.
    destruct (IH (log (WarningTaskDropped (type task)) (set_queue q s)))
      as (dropped & Hd1 & Hd2 & Hd3). simpl in *.
    exists ((pr, task) :: dropped). split_and!.
    + rewrite <- Hx. by apply submseteq_skip.
    + rewrite Hd2. simpl. by rewrite <- app_assoc.
    + intros Ht Hl. rewrite <- Hx. apply Permutation_skip. apply Hd3.
      * apply (tie_free_cons (pr, task)). by eapply tie_free_Permutation.
      * apply Permutation_length in Hx. simpl in Hx. lia.
  - destruct (IH (set_queue q s)) as (dropped & Hd1 & Hd2 & Hd3). simpl in *.
    exists dropped. split_and!.
    + rewrite <- Hx. by apply submseteq_cons.
    + done.
    + intros Ht Hl. destruct (get_tie_free s Ht Hne) as (q' & x' & Hg' & _).
      rewrite Hg in Hg'. done.
Qed.

(** X5.  [stop], whatever the state of the processor: afterwards the loop
    is told to end, the executor is shut down, the queue and the set of
    processed files are empty; [stop] hands nothing to the executor and
    emits no signal, and each line that it logs is the dropped line of a
    queued entry of its own. *)
Theorem stop_leaves_nothing_behind (s : BackgroundProcessor) :
  let s' := stop s in
  running s' = false /\ executor_shutdown s' = true /\
  task_queue s' = [] /\ _processed_files s' = ∅ /\
  submitted s' = submitted s /\ emitted s' = emitted s /\
  exists dropped : list entry,
    dropped ⊆+ task_queue s /\
    logged s' = (logged s ++ map dropped_line dropped)%list.
Proof.
  destruct (stop_fields s) as (H1 & H2 & H3 & H4 & _ & _ & H7 & H8).
  split_and!; try done.
  unfold stop.
  match goal with |- context [drain ?f ?s0] =>
    destruct (drain_dropped f s0) as (dropped & Hd1 & Hd2 & _) end.
  exists dropped. split; [exact Hd1|exact Hd2].
Qed.

(** X6.  When no two queued entries of one priority hold different
    tasks, [stop] logs every queued task as dropped: the dropped lines
    are those of the queued entries, each once. *)
Theorem stop_logs_every_task_without_ties (s : BackgroundProcessor) :
  tie_free (task_queue s) ->
  exists dropped : list entry,
    dropped ≡ₚ task_queue s /\
    logged (stop s) = (logged s ++ map dropped_line dropped)%list.
Proof.
  intros Ht. unfold stop.
  match goal with |- context [drain ?f ?s0] =>
    destruct (drain_dropped f s0) as (dropped & _ & Hd2 & Hd3) end.
  exists dropped. split; [by apply Hd3|exact Hd2].
Qed.

Lemma stop_logs_every_task_without_ties_witness :
  exists dropped : list entry,
    dropped ≡ₚ task_queue (run_actions spread init) /\
    logged (stop (run_actions spread init)) =
      (logged (run_actions spread init) ++ map dropped_line dropped)%list.
Proof.
  apply (stop_logs_every_task_without_ties (run_actions spread init)).
  assert (Hq : exists x y z : Task,
            task_queue (run_actions spread init) = [(1, x); (5, y); (7, z)])
    by (eexists _, _, _; reflexivity).
  destruct Hq as (x & y & z & ->).
  intros a b Ha Hb.
  rewrite !elem_of_cons, elem_of_nil in Ha, Hb.
  destruct Ha as [->|[->|[->|[]]]], Hb as [->|[->|[->|[]]]]; simpl; intros; done.
Defined.
End ConductFacts.

Section Accounts.
Import Processor History Conduct Examples.

(** What one call does to the tasks that are queued or handed over. *)
Lemma step_account (a : action) (s : BackgroundProcessor) :
  (submitted (step a s) ++ map snd (task_queue (step a s)))%list
    ⊆+ ((submitted s ++ map snd (task_queue s)) ++ requested a)%list.
Proof.
  destruct a as [isfile priority ty fn a cb kw| |o|];
    [simpl|simpl|simpl|change (step Halt s) with (stop s); change (requested Halt) with (@nil Task)].
  - destruct (accepted isfile a s) eqn:Had.
    + destruct (add_task_accepted isfile priority ty fn a cb kw s Had)
        as (q & r & lg & -> & Hq).
      simpl. rewrite Hq. simpl.
      rewrite <- app_assoc. apply submseteq_app; [done|].
      apply Permutation_submseteq. by rewrite Permutation_app_comm.
    + destruct (add_task_turned_away isfile priority ty fn a cb kw s Had) as (p & ->).
      simpl. by apply submseteq_inserts_r.
  - rewrite app_nil_r. unfold run_get.
    destruct (running s && negb (awaiting_result s)); [|done].
    destruct (decide (task_queue s = [])) as [Hq|Hq].
    { by rewrite get_empty. }
    destruct (get_spec s Hq) as (q & r & x & -> & Hx & Hy).
    assert (Hless : (submitted s ++ map snd q)%list ⊆+ (submitted s ++ map snd (task_queue s))%list).
    { apply submseteq_app; [done|]. rewrite <- Hx. simpl. by apply submseteq_cons. }
    destruct r as [[pr task]|e].
    + specialize (Hy _ eq_refl). subst x.
      destruct (executor_shutdown s) eqn:Hs; simpl; rewrite Hs; simpl.
      * unfold on_loop_error. simpl. done.
      * rewrite <- Hx. simpl. rewrite <- app_assoc. simpl. done.
    + destruct e; simpl; unfold on_loop_error; simpl; destruct (run_task s); simpl; done.
  - rewrite app_nil_r.
    destruct (run_result_fields o s) as (-> & _ & _ & -> & _). done.
  - rewrite app_nil_r.
    destruct (stop_fields s) as (_ & _ & -> & _ & _ & _ & -> & _). simpl.
    rewrite app_nil_r. by apply submseteq_inserts_r.
Qed.

Lemma run_actions_account (acts : list action) (s : BackgroundProcessor) :
  (submitted (run_actions acts s) ++ map snd (task_queue (run_actions acts s)))%list
    ⊆+ ((submitted s ++ map snd (task_queue s)) ++ enqueued acts)%list.
Proof.
  revert s. induction acts as [|a acts IH]; intros s; simpl.
  { by rewrite app_nil_r. }
  etrans; [apply IH|].
  unfold enqueued. simpl. fold (enqueued acts).
  rewrite app_assoc. apply submseteq_app; [|done]. apply step_account.
Qed.

Lemma step_stopped (a : action) (s : BackgroundProcessor) :
  running s = false ->
  running (step a s) = false /\ submitted (step a s) = submitted s.
Proof.
  intros Hr. destruct a as [isfile priority ty fn a cb kw| |o|];
    [simpl|simpl|simpl|change (step Halt s) with (stop s)].
  - destruct (accepted isfile a s) eqn:Had.
    + by destruct (add_task_accepted isfile priority ty fn a cb kw s Had)
        as (q & r & lg & -> & Hq).
    + by destruct (add_task_turned_away isfile priority ty fn a cb kw s Had) as (p & ->).
  - unfold run_get. by rewrite Hr.
  - destruct (run_result_fields o s) as (_ & -> & _ & -> & _). done.
  - by destruct (stop_fields s) as (-> & _ & _ & _ & _ & _ & -> & _).
Qed.

(** X7.  In every history of a fresh processor, each task handed to the
    executor, and each task still queued, is the task of a call of
    [add_task] of its own: the loop hands over no task that was not
    enqueued, and no enqueued task twice. *)
Theorem every_task_runs_at_most_once (acts : list action) :
  let s := run_actions acts init in
  (submitted s ++ map snd (task_queue s))%list ⊆+ enqueued acts.
Proof. apply (run_actions_account acts init). Qed.

(** X8.  [stop] is final: whatever is called afterwards (enqueues, turns
    of the loop, a second [stop]), the loop stays told to end and no
    further task is handed to the executor. *)
Theorem nothing_runs_after_stop (s : BackgroundProcessor) (acts : list action) :
  let s' := run_actions acts (stop s) in
  running s' = false /\ submitted s' = submitted s.
Proof.
  simpl.
  assert (H : forall s0, running s0 = false ->
            running (run_actions acts s0) = false /\
            submitted (run_actions acts s0) = submitted s0).
  { induction acts as [|a acts IH]; intros s0 Hr; [done|]. simpl.
    destruct (step_stopped a s0 Hr) as [H1 H2].
    destruct (IH _ H1) as [H3 H4]. split; [done|congruence]. }
  destruct (stop_fields s) as (H1 & _ & _ & _ & _ & _ & H7 & _).
  destruct (H (stop s) H1) as [H2 H3]. split; [done|congruence].
Qed.
End Accounts.

Section InFlight.
Import Processor History Invariant Conduct Examples.

(** X9.  [is_processing_file] looks at the queue only.  In a history of
    a fresh processor in which [p] names a file whenever a task for [p]
    is enqueued, while the task for [p] is in flight (handed to the
    executor and not yet finished) [is_processing_file(p)] answers
    [False]; the path is in the set of processed files all the same, so
    an enqueue for it is still turned away. *)
Theorem is_processing_file_false_in_flight (p : string) (acts : list action) :
  Forall (keeps_file p) acts ->
  let s := run_actions acts init in
  awaited_for p s = 1%nat ->
  is_processing_file p s = false /\ p ∈ _processed_files s.
Proof.
  intros Hk s Hw.
  pose proof (run_actions_single p acts init Hk (single_init p)) as [H1 H2].
  fold s in H1, H2. unfold unresolved_for in *.
  split; [|apply H2; lia].
  apply is_processing_file_none. lia.
Qed.

Lemma is_processing_file_false_in_flight_witness :
  let s := run_actions one_in_flight init in
  is_processing_file "f.pdf" s = false /\ "f.pdf" ∈ _processed_files s.
Proof.
  apply (is_processing_file_false_in_flight "f.pdf" one_in_flight).
  - repeat constructor.
  - reflexivity.
Defined.
End InFlight.

(** ** What a release does to the disk *)
Section DiskFacts.
Import Resources Ledger.

Lemma shutil_rmtree_files d fs q :
  files (shutil_rmtree d fs) !! q =
    if bool_decide (is_Some (dirs fs !! d)) && inside d q then None else files fs !! q.
Proof.
  unfold shutil_rmtree. destruct (dirs fs !! d) as [t|] eqn:Hd; simpl.
  - destruct (inside d q) eqn:Hi.
    + apply map_lookup_filter_None. right. intros v _. simpl. congruence.
    + destruct (files fs !! q) as [v|] eqn:Hq.
      * by apply map_lookup_filter_Some.
      * apply map_lookup_filter_None. by left.
  - done.
Qed.

Lemma shutil_rmtree_dirs d fs q :
  dirs (shutil_rmtree d fs) !! q =
    if bool_decide (is_Some (dirs fs !! d)) && (bool_decide (q = d) || inside d q)
    then None else dirs fs !! q.
Proof.
  unfold shutil_rmtree. destruct (dirs fs !! d) as [t|] eqn:Hd; simpl.
  - destruct (decide (q = d)) as [->|Hne].
    + rewrite bool_decide_eq_true_2 by done. simpl.
      apply map_lookup_filter_None. left. apply lookup_delete_eq.
    + rewrite bool_decide_eq_false_2 by done. simpl.
      destruct (inside d q) eqn:Hi.
      * apply map_lookup_filter_None. right. intros v _. simpl. congruence.
      * destruct (dirs fs !! q) as [v|] eqn:Hq.
        -- apply map_lookup_filter_Some. split; [|done]. by rewrite lookup_delete_ne.
        -- apply map_lookup_filter_None. left. by rewrite lookup_delete_ne.
  - done.
Qed.

(** [cleanup_directory] in full. *)
Lemma cleanup_directory_world d w :
  (cleanup_directory d w).2 = Ok tt /\
  self (cleanup_directory d w).1 =
    set_temp_directories (_temp_directories (self w) ∖ {[d]}) (self w) /\
  disk (cleanup_directory d w).1 =
    (if bool_decide (d ∈ _temp_directories (self w)) then shutil_rmtree d (disk w)
     else disk w).
Proof.
  destruct (decide (d ∈ _temp_directories (self w))) as [H|H].
  - rewrite cleanup_directory_tracked by done. simpl.
    by rewrite bool_decide_eq_true_2.
  - rewrite cleanup_directory_untracked by done.
    rewrite bool_decide_eq_false_2 by done. split_and!; [done| |done].
    destruct w as [[] ? ?]. unfold set_temp_directories. simpl in *. f_equal. set_solver.
Qed.

(** [cleanup_file] in full: it takes no other file and no directory off
    the disk, and creates nothing. *)
Lemma cleanup_file_world x w :
  (cleanup_file x w).2 = Ok tt /\
  self (cleanup_file x w).1 = set_temp_files (_temp_files (self w) ∖ {[x]}) (self w) /\
  dirs (disk (cleanup_file x w).1) = dirs (disk w) /\
  (forall q, q <> x -> files (disk (cleanup_file x w).1) !! q = files (disk w) !! q) /\
  (files (disk (cleanup_file x w).1) !! x = None \/
   ((x ∉ _temp_files (self w)) /\
    files (disk (cleanup_file x w).1) !! x = files (disk w) !! x)).
Proof.
  destruct (decide (x ∈ _temp_files (self w))) as [H|H].
  - unfold cleanup_file, bind, read, when, try_finally, try_except, update, do.
    simpl. rewrite bool_decide_eq_true_2 by done.
    destruct (os_path_exists x (disk w)) eqn:Hex; simpl.
    + unfold os_remove. destruct (files (disk w) !! x) eqn:Hf; simpl.
      * split_and!; try done.
        -- intros q Hq. by rewrite lookup_delete_ne.
        -- left. apply lookup_delete_eq.
      * destruct (bool_decide _); simpl; split_and!; try done; by left.
    + split_and!; try done. left.
      unfold os_path_exists in Hex. apply orb_false_iff in Hex as [Hex _].
      apply bool_decide_eq_false in Hex. by apply eq_None_not_Some.
  - rewrite cleanup_file_untracked by done. split_and!; try done; [|by right].
    destruct w as [[] ? ?]. unfold set_temp_files. simpl in *. f_equal. set_solver.
Qed.

Lemma expired_true now x w :
  (expired now x w).2 = Ok true ->
  exists t, os_path_getmtime x (disk w) = Ok t /\ now - t > _max_resource_age (self w).
Proof.
  unfold expired, bind, read, ret. simpl.
  destruct (os_path_exists x (disk w)); [|done].
  destruct (os_path_getmtime x (disk w)) as [t|]; [|done]. simpl.
  intros [= H%bool_decide_eq_true]. eauto.
Qed.

Lemma expired_file now x w t :
  files (disk w) !! x = Some t ->
  expired now x w = (w, Ok (bool_decide (now - t > _max_resource_age (self w)))).
Proof.
  intros Hf. unfold expired, bind, read, ret, os_path_exists, os_path_getmtime. simpl.
  rewrite Hf. rewrite bool_decide_eq_true_2 by eauto. simpl. by rewrite Hf.
Qed.

Lemma expired_directory now x w t :
  files (disk w) !! x = None -> dirs (disk w) !! x = Some t ->
  expired now x w = (w, Ok (bool_decide (now - t > _max_resource_age (self w)))).
Proof.
  intros Hf Hd. unfold expired, bind, read, ret, os_path_exists, os_path_getmtime. simpl.
  rewrite Hf, Hd. rewrite (bool_decide_eq_true_2 (is_Some (Some t))) by eauto.
  rewrite orb_true_r. simpl. by rewrite Hf, Hd.
Qed.

(** What every release of a sweep keeps, the sweep keeps. *)
Lemma sweep_preserves (P : world -> Prop) now (cleanup : string -> M unit) xs w :
  (forall x w0, x ∈ xs -> P w0 -> (expired now x w0).2 = Ok true -> P (cleanup x w0).1) ->
  P w -> P (sweep now cleanup xs w).1.
Proof.
  revert w. induction xs as [|x xs IH]; intros w Hstep Hw; [done|].
  cbn [sweep]. unfold bind at 1.
  destruct (expired_ok now x w) as [b Hb]. rewrite Hb.
  destruct b; simpl.
  - unfold bind at 1.
    assert (P (cleanup x w).1) as Hc.
    { apply Hstep; [by left|done|by rewrite Hb]. }
    destruct (cleanup x w) as [w1 [[]|e]]; simpl in *; [|done].
    apply IH; [|done]. intros y w0 Hy. apply Hstep. by right.
  - unfold bind at 1. simpl. apply IH; [|done].
    intros y w0 Hy. apply Hstep. by right.
Qed.
End DiskFacts.

(** ** The sweep of [cleanup_all], release by release *)
Section SweepFacts.
Import Resources Ledger.

(** [cleanup_all] is its two sweeps and the reset of the flag. *)
Lemma cleanup_all_sweeps now w :
  let w1 := (sweep now cleanup_directory (elements (_temp_directories (self w))) w).1 in
  let w2 := (sweep now cleanup_file (elements (_temp_files (self w1))) w1).1 in
  cleanup_all now w =
    (mkWorld (set_cleanup_scheduled false (self w2)) (disk w2) (trace w2), Ok tt) /\
  _temp_files (self w1) = _temp_files (self w).
Proof.
  simpl. unfold cleanup_all. unfold bind at 1, read at 1. unfold bind at 1.
  destruct (sweep_spec cleanup_directory
              (fun w => _temp_directories (self w)) (fun w => _temp_files (self w))
              Rmtree cleanup_directory_spec now
              (elements (_temp_directories (self w))) w)
    as (w1 & ev1 & -> & _ & _ & Ho1 & _).
  unfold bind at 1, read at 1. unfold bind at 1. simpl.
  destruct (sweep_spec cleanup_file
              (fun w => _temp_files (self w)) (fun w => _temp_directories (self w))
              Remove cleanup_file_spec now
              (elements (_temp_files (self w1))) w1)
    as (w2 & ev2 & -> & _).
  done.
Qed.

(** The releases leave the age limit as it is, and create nothing. *)
Lemma cleanup_directory_keeps d w q :
  _max_resource_age (self (cleanup_directory d w).1) = _max_resource_age (self w) /\
  _temp_files (self (cleanup_directory d w).1) = _temp_files (self w) /\
  (files (disk w) !! q = None -> files (disk (cleanup_directory d w).1) !! q = None) /\
  (dirs (disk w) !! q = None -> dirs (disk (cleanup_directory d w).1) !! q = None) /\
  (forall t, files (disk (cleanup_directory d w).1) !! q = Some t ->
             files (disk w) !! q = Some t) /\
  (forall t, dirs (disk (cleanup_directory d w).1) !! q = Some t ->
             dirs (disk w) !! q = Some t).
Proof.
  destruct (cleanup_directory_world d w) as (_ & -> & ->).
  destruct (bool_decide (d ∈ _temp_directories (self w))); [|done].
  rewrite shutil_rmtree_files, shutil_rmtree_dirs.
  split_and!; try done.
  - intros ->. by destruct (_ && _).
  - intros ->. by destruct (_ && _).
  - intros t. by destruct (_ && _).
  - intros t. by destruct (_ && _).
Qed.

Lemma cleanup_file_keeps x w q :
  _max_resource_age (self (cleanup_file x w).1) = _max_resource_age (self w) /\
  _temp_directories (self (cleanup_file x w).1) = _temp_directories (self w) /\
  (files (disk w) !! q = None -> files (disk (cleanup_file x w).1) !! q = None) /\
  dirs (disk (cleanup_file x w).1) = dirs (disk w) /\
  (forall t, files (disk (cleanup_file x w).1) !! q = Some t ->
             files (disk w) !! q = Some t).
Proof.
  destruct (cleanup_file_world x w) as (_ & -> & -> & Hq & Hx).
  split_and!; try done.
  - intros Hn. destruct (decide (q = x)) as [->|Hne].
    + destruct Hx as [Hx|[_ Hx]]; [done|by rewrite Hx].
    + by rewrite Hq.
  - intros t. destruct (decide (q = x)) as [->|Hne].
    + destruct Hx as [Hx|[_ Hx]]; [by rewrite Hx|by rewrite Hx].
    + by rewrite Hq.
Qed.
End SweepFacts.

Section CleanupAllByAge.
Import Resources Ledger.

(** X10.  [cleanup_all] leaves alone what the manager does not track: a
    path that is neither a tracked file nor a tracked directory nor
    below a tracked directory is on the disk afterwards if and only if it
    was before, a file with its modification time. *)
Theorem cleanup_all_spares_untracked (now : Z) (w : world) (q : string) :
  q ∉ _temp_files (self w) -> q ∉ _temp_directories (self w) ->
  (forall d, d ∈ _temp_directories (self w) -> inside d q = false) ->
  let w' := (cleanup_all now w).1 in
  files (disk w') !! q = files (disk w) !! q /\
  (dirs (disk w') !! q = None <-> dirs (disk w) !! q = None).
Proof.
  intros Hf Hd Hi. simpl.
  destruct (cleanup_all_sweeps now w) as [-> Hfiles]. simpl. rewrite Hfiles.
  set (P := fun w0 : world => files (disk w0) !! q = files (disk w) !! q /\
                              dirs (disk w0) !! q = dirs (disk w) !! q).
  assert (P (sweep now cleanup_file (elements (_temp_files (self w)))
                   (sweep now cleanup_directory
                          (elements (_temp_directories (self w))) w).1).1) as [-> ->];
    [|done].
  apply (sweep_preserves P).
  - intros x w0 Hx [H1 H2] _. apply elem_of_elements in Hx.
    destruct (cleanup_file_world x w0) as (_ & _ & Hdirs & Hq & _).
    split; [|by rewrite Hdirs]. rewrite Hq; [done|]. by intros ->.
  - apply (sweep_preserves P); [|done].
    intros x w0 Hx [H1 H2] _. apply elem_of_elements in Hx. unfold P.
    destruct (cleanup_directory_world x w0) as (_ & _ & ->).
    destruct (bool_decide (x ∈ _temp_directories (self w0))); [|done].
    split.
    + rewrite shutil_rmtree_files, (Hi x Hx), andb_false_r. done.
    + rewrite shutil_rmtree_dirs, (Hi x Hx), orb_false_r.
      rewrite (bool_decide_eq_false_2 (q = x)) by (by intros ->).
      by rewrite andb_false_r.
Qed.

(** The sweep of the tracked files takes an old file off the disk. *)
Lemma sweep_old_file now xs w x t :
  x ∈ xs -> x ∈ _temp_files (self w) ->
  now - t > _max_resource_age (self w) ->
  files (disk w) !! x = Some t \/ files (disk w) !! x = None ->
  files (disk (sweep now cleanup_file xs w).1) !! x = None.
Proof.
  revert w. induction xs as [|y xs IH]; intros w Hx Ht Hold Hf; [by inversion Hx|].
  set (P := fun w0 : world => files (disk w0) !! x = None).
  assert (Hnone : forall w0 ys, P w0 -> P (sweep now cleanup_file ys w0).1).
  { intros w0 ys H0. apply (sweep_preserves P); [|done].
    intros z w1 _ H1 _. by apply cleanup_file_keeps. }
  destruct Hf as [Hf|Hf]; [|by apply (Hnone w (y :: xs))].
  cbn [sweep]. unfold bind at 1.
  destruct (decide (y = x)) as [->|Hne].
  - rewrite (expired_file now x w t Hf). rewrite bool_decide_eq_true_2 by done.
    simpl. unfold bind at 1.
    destruct (cleanup_file_world x w) as (Hok & _ & _ & _ & Hgone).
    destruct (cleanup_file x w) as [w1 r]. simpl in *. subst r.
    apply Hnone. by destruct Hgone as [?|[? _]].
  - apply elem_of_cons in Hx as [?|Hx]; [done|].
    destruct (expired_ok now y w) as [b ->]. destruct b; simpl; unfold bind at 1.
    + destruct (cleanup_file_world y w) as (Hok & Hself & _ & Hq & _).
      destruct (cleanup_file y w) as [w1 r]. simpl in *. subst r.
      apply IH; [done|rewrite Hself; simpl; set_solver|by rewrite Hself|].
      left. by rewrite Hq.
    + simpl. apply IH; auto.
Qed.

(** X11.  [cleanup_all] reclaims tracked files by their age.  A tracked
    regular file whose modification time lies more than
    [_max_resource_age] before the time of the sweep is off the disk
    afterwards.  A younger one stays tracked, and stays on the disk with
    its modification time unless it lies below a tracked directory. *)
Theorem cleanup_all_file_by_age (now : Z) (w : world) (x : string) (t : Z) :
  x ∈ _temp_files (self w) ->
  files (disk w) !! x = Some t -> dirs (disk w) !! x = None ->
  let w' := (cleanup_all now w).1 in
  if bool_decide (now - t > _max_resource_age (self w))
  then files (disk w') !! x = None
  else x ∈ _temp_files (self w') /\
       (files (disk w') !! x = Some t \/
        exists d, d ∈ _temp_directories (self w) /\ inside d x = true).
Proof.
  intros Hx Hf Hd. simpl.
  destruct (cleanup_all_sweeps now w) as [-> Hfiles]. simpl.
  set (w1 := (sweep now cleanup_directory (elements (_temp_directories (self w))) w).1) in *.
  destruct (bool_decide (now - t > _max_resource_age (self w))) eqn:Hage.
  - apply bool_decide_eq_true in Hage.
    set (P := fun w0 : world =>
      _max_resource_age (self w0) = _max_resource_age (self w) /\
      (files (disk w0) !! x = Some t \/ files (disk w0) !! x = None)).
    assert (P w1) as [Hm Hf1].
    { apply (sweep_preserves P); [|by split; [|left]].
      intros y w0 _ [H1 H2] _. unfold P.
      destruct (cleanup_directory_keeps y w0 x) as (-> & _ & Hn & _ & Hs & _).
      split; [done|].
      destruct (files (disk (cleanup_directory y w0).1) !! x) as [t'|] eqn:E; [|by right].
      left. specialize (Hs t' eq_refl). destruct H2 as [H2|H2]; congruence. }
    apply (sweep_old_file now _ w1 x t); [|by rewrite Hfiles|by rewrite Hm|done].
    apply elem_of_elements. by rewrite Hfiles.
  - apply bool_decide_eq_false in Hage.
    set (P := fun w0 : world =>
      x ∈ _temp_files (self w0) /\
      _max_resource_age (self w0) = _max_resource_age (self w) /\
      dirs (disk w0) !! x = None /\
      (files (disk w0) !! x = Some t \/ files (disk w0) !! x = None)).
    assert (Hyoung : forall w0, P w0 -> (expired now x w0).2 = Ok true -> False).
    { intros w0 (_ & Hm & Hd0 & Hf0) Hexp.
      apply expired_true in Hexp as (t' & Hmt & Hgt). unfold os_path_getmtime in Hmt.
      rewrite Hd0 in Hmt. destruct Hf0 as [Hf0|Hf0]; rewrite Hf0 in Hmt; [|done].
      injection Hmt as <-. lia. }
    assert (Hdir : forall y w0, P w0 -> P (cleanup_directory y w0).1).
    { intros y w0 (H1 & H2 & H3 & H4). unfold P.
      destruct (cleanup_directory_keeps y w0 x) as (-> & -> & Hn & Hdn & Hs & _).
      split_and!; [done|done|by apply Hdn|].
      destruct (files (disk (cleanup_directory y w0).1) !! x) as [t'|] eqn:E; [|by right].
      left. specialize (Hs t' eq_refl). destruct H4 as [H4|H4]; congruence. }
    assert (Hfile : forall y w0, P w0 -> (expired now y w0).2 = Ok true ->
                                 P (cleanup_file y w0).1).
    { intros y w0 HP Hexp. destruct (decide (y = x)) as [->|Hne].
      { destruct (Hyoung w0 HP Hexp). }
      destruct HP as (H1 & H2 & H3 & H4). unfold P.
      destruct (cleanup_file_world y w0) as (_ & -> & -> & Hq & _).
      rewrite Hq by done. simpl. split_and!; [set_solver|done|done|done]. }
    assert (P w1) as HP1.
    { apply (sweep_preserves P); [|by split_and!; [| | |left]].
      intros y w0 _ HP _. by apply Hdir. }
    assert (P (sweep now cleanup_file (elements (_temp_files (self w1))) w1).1)
      as (H1 & _ & _ & H4).
    { apply (sweep_preserves P); [|done]. intros y w0 _. apply Hfile. }
    split; [done|].
    destruct (decide (Exists (fun d => inside d x = true)
                             (elements (_temp_directories (self w))))) as [He|He].
    { right. apply Exists_exists in He as (d & Hd1 & Hd2).
      exists d. split; [by apply elem_of_elements|done]. }
    left.
    set (Q := fun w0 : world => files (disk w0) !! x = Some t /\ P w0).
    assert (Q w1) as HQ1.
    { apply (sweep_preserves Q); [|by split; [|split_and!; [| | |left]]].
      intros y w0 Hy [HQ HP] _. split; [|by apply Hdir].
      destruct (cleanup_directory_world y w0) as (_ & _ & ->).
      destruct (bool_decide (y ∈ _temp_directories (self w0))); [|done].
      rewrite shutil_rmtree_files.
      assert (inside y x = false) as ->.
      { apply not_true_is_false. intros Hin. apply He, Exists_exists. eauto. }
      by rewrite andb_false_r. }
    assert (Q (sweep now cleanup_file (elements (_temp_files (self w1))) w1).1) as [HQ _].
    { apply (sweep_preserves Q); [|done].
      intros y w0 _ [HQ HP] Hexp. split; [|by apply Hfile].
      destruct (decide (y = x)) as [->|Hne]; [destruct (Hyoung w0 HP Hexp)|].
      destruct (cleanup_file_world y w0) as (_ & _ & _ & Hq & _). by rewrite Hq. }
    done.
Qed.

Lemma prefix_trans (a b c : string) :
  String.prefix a b = true -> String.prefix b c = true -> String.prefix a c = true.
Proof.
  revert b c. induction a as [|x a IH]; intros b c; [by destruct c|].
  destruct b as [|y b]; simpl; [done|]. destruct c as [|z c]; simpl; [done|].
  destruct (Ascii.ascii_dec x y) as [->|]; [|done].
  destruct (Ascii.ascii_dec y z) as [->|]; [|done].
  apply IH.
Qed.

Lemma prefix_app (a s : string) : String.prefix a (a ++ s) = true.
Proof.
  induction a as [|x a IH]; [by destruct s|]. simpl.
  by destruct (Ascii.ascii_dec x x).
Qed.

(** What lies below a directory lies below the directories above it. *)
Lemma inside_trans (a d p : string) :
  inside a d = true -> inside d p = true -> inside a p = true.
Proof.
  unfold inside. rewrite !orb_true_iff. intros Ha Hd.
  assert (Hstep : forall sep, String.prefix (a ++ sep) d = true ->
                              String.prefix (a ++ sep) p = true).
  { intros sep H. destruct Hd as [Hd|Hd].
    - eapply prefix_trans; [exact H|]. eapply prefix_trans; [apply (prefix_app d "/")|done].
    - eapply prefix_trans; [exact H|]. eapply prefix_trans; [apply (prefix_app d "\")|done]. }
  destruct Ha as [Ha|Ha]; [left|right]; by apply Hstep.
Qed.

(** The sweep of the tracked directories takes an old directory, and
    what lies below it, off the disk. *)
Lemma sweep_old_directory now xs w d t :
  d ∈ xs -> d ∈ _temp_directories (self w) ->
  now - t > _max_resource_age (self w) -> files (disk w) !! d = None ->
  dirs (disk w) !! d = Some t \/
    (dirs (disk w) !! d = None /\
     forall p, inside d p = true -> files (disk w) !! p = None /\ dirs (disk w) !! p = None) ->
  let w' := (sweep now cleanup_directory xs w).1 in
  dirs (disk w') !! d = None /\
  forall p, inside d p = true -> files (disk w') !! p = None /\ dirs (disk w') !! p = None.
Proof.
  simpl. revert w. induction xs as [|y xs IH]; intros w Hx Ht Hold Hf Hd; [by inversion Hx|].
  set (G := fun w0 : world => dirs (disk w0) !! d = None /\
    forall p, inside d p = true -> files (disk w0) !! p = None /\ dirs (disk w0) !! p = None).
  assert (Hgone : forall w0 ys, G w0 -> G (sweep now cleanup_directory ys w0).1).
  { intros w0 ys H0. apply (sweep_preserves G); [|done].
    intros z w1 _ [H1 H2] _. split.
    - by apply cleanup_directory_keeps.
    - intros p Hp. destruct (H2 p Hp). split; by apply cleanup_directory_keeps. }
  destruct Hd as [Hd|Hd]; [|by apply (Hgone w (y :: xs))].
  change (G (sweep now cleanup_directory (y :: xs) w).1).
  cbn [sweep]. unfold bind at 1.
  destruct (decide (y = d)) as [->|Hne].
  - rewrite (expired_directory now d w t Hf Hd). rewrite bool_decide_eq_true_2 by done.
    simpl. unfold bind at 1. rewrite cleanup_directory_tracked by done.
    apply Hgone. split; simpl.
    + rewrite shutil_rmtree_dirs, Hd. rewrite (bool_decide_eq_true_2 (d = d)) by done.
      by rewrite bool_decide_eq_true_2 by eauto.
    + intros p Hp. rewrite shutil_rmtree_files, shutil_rmtree_dirs, Hd, Hp.
      rewrite (bool_decide_eq_true_2 (is_Some _)) by eauto. by rewrite orb_true_r.
  - apply elem_of_cons in Hx as [?|Hx]; [done|].
    destruct (expired_ok now y w) as [b ->]. destruct b; simpl; unfold bind at 1.
    + destruct (cleanup_directory_world y w) as (Hok & Hself & Hdisk).
      destruct (cleanup_directory y w) as [w1 r]. simpl in *. subst r.
      apply (IH w1); [done|rewrite Hself; simpl; set_solver|by rewrite Hself| |].
      * rewrite Hdisk. destruct (bool_decide (y ∈ _)); [|done].
        rewrite shutil_rmtree_files, Hf. by destruct (_ && _).
      * rewrite Hdisk. destruct (bool_decide (y ∈ _)); [|by left].
        rewrite shutil_rmtree_dirs. rewrite (bool_decide_eq_false_2 (d = y)) by done.
        simpl. destruct (bool_decide (is_Some (dirs (disk w) !! y))) eqn:Hy; [|by left].
        simpl. destruct (inside y d) eqn:Hyd; [|by left].
        right. split; [done|]. intros p Hp.
        rewrite shutil_rmtree_files, shutil_rmtree_dirs, Hy.
        rewrite (inside_trans y d p Hyd Hp). by rewrite orb_true_r.
    + simpl. apply (IH w); auto.
Qed.

(** X12.  [cleanup_all] reclaims tracked directories by their age.
    Take a tracked directory with no other tracked directory below it
    (the release of one would renew its modification time).  When its
    modification time lies more than [_max_resource_age] before the time
    of the sweep, it is off the disk afterwards, with every file and
    directory below it.  When it is younger, it stays tracked, and stays
    on the disk unless it lies below another tracked directory. *)
Theorem cleanup_all_directory_by_age (now : Z) (w : world) (d : string) (t : Z) :
  d ∈ _temp_directories (self w) ->
  dirs (disk w) !! d = Some t -> files (disk w) !! d = None ->
  (forall y, y ∈ _temp_directories (self w) -> inside d y = false) ->
  let w' := (cleanup_all now w).1 in
  if bool_decide (now - t > _max_resource_age (self w))
  then dirs (disk w') !! d = None /\
       forall p, inside d p = true ->
                 files (disk w') !! p = None /\ dirs (disk w') !! p = None
  else d ∈ _temp_directories (self w') /\
       (is_Some (dirs (disk w') !! d) \/
        exists a, a ∈ _temp_directories (self w) /\ inside a d = true).
Proof.
  intros Hx Hd Hf _. simpl.
  destruct (cleanup_all_sweeps now w) as [-> Hfiles]. simpl.
  set (w1 := (sweep now cleanup_directory (elements (_temp_directories (self w))) w).1) in *.
  destruct (bool_decide (now - t > _max_resource_age (self w))) eqn:Hage.
  - apply bool_decide_eq_true in Hage.
    set (G := fun w0 : world => dirs (disk w0) !! d = None /\
      forall p, inside d p = true ->
                files (disk w0) !! p = None /\ dirs (disk w0) !! p = None).
    apply (sweep_preserves G).
    + intros z w0 _ [H1 H2] _. destruct (cleanup_file_keeps z w0 d) as (_ & _ & _ & Hdirs & _).
      split; [by rewrite Hdirs|].
      intros p Hp. destruct (H2 p Hp). rewrite Hdirs. split; [|done].
      by apply cleanup_file_keeps.
    + apply (sweep_old_directory now _ w d t); [|done|done|done|by left].
      by apply elem_of_elements.
  - apply bool_decide_eq_false in Hage.
    set (P := fun w0 : world =>
      d ∈ _temp_directories (self w0) /\
      _max_resource_age (self w0) = _max_resource_age (self w) /\
      files (disk w0) !! d = None /\
      (dirs (disk w0) !! d = Some t \/ dirs (disk w0) !! d = None)).
    assert (Hyoung : forall w0, P w0 -> (expired now d w0).2 = Ok true -> False).
    { intros w0 (_ & Hm & Hf0 & Hd0) Hexp.
      apply expired_true in Hexp as (t' & Hmt & Hgt). unfold os_path_getmtime in Hmt.
      rewrite Hf0 in Hmt. destruct Hd0 as [Hd0|Hd0]; rewrite Hd0 in Hmt; [|done].
      injection Hmt as <-. lia. }
    assert (Hdir : forall y w0, P w0 -> (expired now y w0).2 = Ok true ->
                                P (cleanup_directory y w0).1).
    { intros y w0 HP Hexp. destruct (decide (y = d)) as [->|Hne].
      { destruct (Hyoung w0 HP Hexp). }
      destruct HP as (H1 & H2 & H3 & H4). unfold P.
      destruct (cleanup_directory_keeps y w0 d) as (-> & _ & Hn & Hdn & _ & Hs).
      destruct (cleanup_directory_world y w0) as (_ & -> & _).
      split_and!; [simpl; set_solver|done|by apply Hn|].
      destruct (dirs (disk (cleanup_directory y w0).1) !! d) as [t'|] eqn:E; [|by right].
      left. specialize (Hs t' eq_refl). destruct H4 as [H4|H4]; congruence. }
    assert (Hfile : forall y w0, P w0 -> P (cleanup_file y w0).1).
    { intros y w0 (H1 & H2 & H3 & H4). unfold P.
      destruct (cleanup_file_keeps y w0 d) as (-> & -> & Hn & -> & _).
      split_and!; [done|done|by apply Hn|done]. }
    assert (P w1) as HP1.
    { apply (sweep_preserves P); [|by split_and!; [| | |left]].
      intros y w0 _. apply Hdir. }
    assert (P (sweep now cleanup_file (elements (_temp_files (self w1))) w1).1)
      as (H1 & _ & _ & H4).
    { apply (sweep_preserves P); [|done]. intros y w0 _ HP _. by apply Hfile. }
    split; [done|].
    destruct (decide (Exists (fun a => inside a d = true)
                             (elements (_temp_directories (self w))))) as [He|He].
    { right. apply Exists_exists in He as (a & Ha1 & Ha2).
      exists a. split; [by apply elem_of_elements|done]. }
    left.
    set (Q := fun w0 : world => dirs (disk w0) !! d = Some t /\ P w0).
    assert (Q w1) as HQ1.
    { apply (sweep_preserves Q); [|by split; [|split_and!; [| | |left]]].
      intros y w0 Hy [HQ HP] Hexp. split; [|by apply Hdir].
      destruct (decide (y = d)) as [->|Hne]; [destruct (Hyoung w0 HP Hexp)|].
      destruct (cleanup_directory_world y w0) as (_ & _ & ->).
      destruct (bool_decide (y ∈ _temp_directories (self w0))); [|done].
      rewrite shutil_rmtree_dirs.
      assert (inside y d = false) as ->.
      { apply not_true_is_false. intros Hin. apply He, Exists_exists. eauto. }
      rewrite (bool_decide_eq_false_2 (d = y)) by done. by rewrite andb_false_r. }
    assert (Q (sweep now cleanup_file (elements (_temp_files (self w1))) w1).1) as [HQ _].
    { apply (sweep_preserves Q); [|done].
      intros y w0 _ [HQ HP] _. split; [|by apply Hfile].
      destruct (cleanup_file_keeps y w0 d) as (_ & _ & _ & -> & _). done. }
    by rewrite HQ.
Qed.
End CleanupAllByAge.

Section CleanupAllExamples.
Import Resources Ledger Upkeep.

Lemma cleanup_all_spares_untracked_witness :
  let w' := (cleanup_all 100000 at_work).1 in
  files (disk w') !! "C:\Users\me\report.docx" =
    files (disk at_work) !! "C:\Users\me\report.docx" /\
  (dirs (disk w') !! "C:\Users\me\report.docx" = None <->
   dirs (disk at_work) !! "C:\Users\me\report.docx" = None).
Proof.
  apply (cleanup_all_spares_untracked 100000 at_work "C:\Users\me\report.docx").
  - simpl. set_solver.
  - simpl. set_solver.
  - simpl. intros d Hd. assert (d = "C:\Temp\tmpd") as -> by set_solver. reflexivity.
Defined.

Lemma cleanup_all_file_by_age_witness :
  files (disk (cleanup_all 100000 at_work).1) !! "C:\Temp\tmpf.pdf" = None /\
  "C:\Temp\tmpf.pdf" ∈ _temp_files (self (cleanup_all 105 at_work).1).
Proof.
  assert (H1 : "C:\Temp\tmpf.pdf" ∈ _temp_files (self at_work)) by (simpl; set_solver).
  assert (H2 : files (disk at_work) !! "C:\Temp\tmpf.pdf" = Some 100).
  { simpl. rewrite !lookup_insert_ne by done. apply lookup_insert_eq. }
  assert (H3 : dirs (disk at_work) !! "C:\Temp\tmpf.pdf" = None).
  { simpl. rewrite lookup_insert_ne by done. apply lookup_empty. }
  split.
  - exact (cleanup_all_file_by_age 100000 at_work "C:\Temp\tmpf.pdf" 100 H1 H2 H3).
  - exact (proj1 (cleanup_all_file_by_age 105 at_work "C:\Temp\tmpf.pdf" 100 H1 H2 H3)).
Defined.

Lemma cleanup_all_directory_by_age_witness :
  dirs (disk (cleanup_all 100000 at_work).1) !! "C:\Temp\tmpd" = None /\
  files (disk (cleanup_all 100000 at_work).1) !! "C:\Temp\tmpd\page1.png" = None /\
  "C:\Temp\tmpd" ∈ _temp_directories (self (cleanup_all 105 at_work).1).
Proof.
  assert (H1 : "C:\Temp\tmpd" ∈ _temp_directories (self at_work)) by (simpl; set_solver).
  assert (H2 : dirs (disk at_work) !! "C:\Temp\tmpd" = Some 100).
  { simpl. apply lookup_insert_eq. }
  assert (H3 : files (disk at_work) !! "C:\Temp\tmpd" = None).
  { simpl. rewrite !lookup_insert_ne by done. apply lookup_empty. }
  assert (H4 : forall y, y ∈ _temp_directories (self at_work) ->
                         inside "C:\Temp\tmpd" y = false).
  { simpl. intros y Hy. assert (y = "C:\Temp\tmpd") as -> by set_solver. reflexivity. }
  pose proof (cleanup_all_directory_by_age 100000 at_work "C:\Temp\tmpd" 100 H1 H2 H3 H4)
    as Hold.
  pose proof (cleanup_all_directory_by_age 105 at_work "C:\Temp\tmpd" 100 H1 H2 H3 H4)
    as Hyoung.
  destruct Hold as [Ho1 Ho2]. destruct Hyoung as [Hy1 _].
  split; [exact Ho1|]. split; [|exact Hy1].
  exact (proj1 (Ho2 "C:\Temp\tmpd\page1.png" eq_refl)).
Defined.
End CleanupAllExamples.

Section Scopes.
Import Resources Ledger Upkeep.

(** X13.  Temp directory scope.  Inside the [with] statement the
    directory exists and is tracked; the statement gives the value or the
    exception of its body; afterwards, on both ways out, the directory is
    not tracked and not on the disk.  When the body has left the
    directory in place, every file and directory below it is off the disk
    as well, and what lies elsewhere is on the disk if and only if the
    body left it there, a file with its modification time. *)
Theorem temp_directory_reclaimed (temp_dir : string) (now : Z) (body : block) (w : world) :
  let w0 := (temp_directory_enter temp_dir now w).1 in
  let after := (body temp_dir (disk w0)).1 in
  let r := temp_directory temp_dir now body w in
  is_Some (dirs after !! temp_dir) ->
  temp_dir ∈ _temp_directories (self w0) /\
  dirs (disk w0) !! temp_dir = Some now /\
  r.2 = (body temp_dir (disk w0)).2 /\
  (temp_dir ∉ _temp_directories (self r.1)) /\
  dirs (disk r.1) !! temp_dir = None /\
  (forall p, inside temp_dir p = true ->
             files (disk r.1) !! p = None /\ dirs (disk r.1) !! p = None) /\
  (forall p, inside temp_dir p = false ->
             files (disk r.1) !! p = files after !! p /\
             (p <> temp_dir -> dirs (disk r.1) !! p = None <-> dirs after !! p = None)).
Proof.
  simpl. intros Hdir.
  unfold temp_directory, temp_directory_enter, bind, update, ret, try_finally, run_block in *.
  simpl in *.
  destruct (body temp_dir (create_dir temp_dir now (disk w))) as [fs r] eqn:Hb. simpl in *.
  rewrite cleanup_directory_tracked by (simpl; set_solver). simpl.
  split_and!.
  - set_solver.
  - apply lookup_insert_eq.
  - done.
  - set_solver.
  - rewrite shutil_rmtree_dirs. rewrite bool_decide_eq_true_2 by done.
    by rewrite (bool_decide_eq_true_2 (temp_dir = temp_dir)).
  - intros p Hp. rewrite shutil_rmtree_files, shutil_rmtree_dirs, Hp.
    rewrite bool_decide_eq_true_2 by done. by rewrite orb_true_r.
  - intros p Hp. rewrite shutil_rmtree_files, shutil_rmtree_dirs, Hp.
    rewrite andb_false_r. split; [done|]. intros Hne.
    rewrite (bool_decide_eq_false_2 (p = temp_dir)) by done. by rewrite andb_false_r.
Qed.

Lemma temp_directory_reclaimed_witness :
  let r := temp_directory "C:\Temp\tmpd" 100 writes_page fresh in
  r.2 = Raise (Exception "conversion failed") /\
  ("C:\Temp\tmpd" ∉ _temp_directories (self r.1)) /\
  dirs (disk r.1) !! "C:\Temp\tmpd" = None /\
  files (disk r.1) !! "C:\Temp\tmpd\page1.png" = None.
Proof.
  destruct (temp_directory_reclaimed "C:\Temp\tmpd" 100 writes_page fresh)
    as (_ & _ & H3 & H4 & H5 & H6 & _).
  { simpl. rewrite lookup_insert_eq. by eexists. }
  split; [exact H3|]. split; [exact H4|]. split; [exact H5|].
  exact (proj1 (H6 "C:\Temp\tmpd\page1.png" eq_refl)).
Defined.

(** X14.  The timer of [schedule_cleanup].  A call while a sweep is
    scheduled does nothing: one timer is armed however often the method
    is called.  [cleanup_all] clears the flag, so that the next call
    arms a timer of 10 s again. *)
Theorem schedule_cleanup_arms_one_timer (now : Z) (w : world) :
  let w1 := (schedule_cleanup w).1 in
  let w2 := (cleanup_all now w1).1 in
  _cleanup_scheduled (self w1) = true /\
  schedule_cleanup w1 = (w1, Ok tt) /\
  _cleanup_scheduled (self w2) = false /\
  schedule_cleanup w2 =
    (mkWorld (set_cleanup_scheduled true (self w2)) (disk w2)
             (trace w2 ++ [SingleShot 10000]), Ok tt).
Proof.
  simpl.
  assert (H1 : _cleanup_scheduled (self (schedule_cleanup w).1) = true).
  { unfold schedule_cleanup, bind, read, when, do, update. simpl.
    by destruct (_cleanup_scheduled (self w)) eqn:E. }
  split; [done|]. split.
  { unfold schedule_cleanup at 1, bind, read, when. simpl. by rewrite H1. }
  destruct (cleanup_all_sweeps now (schedule_cleanup w).1) as [-> _]. by simpl.
Qed.
End Scopes.

Section HousekeepingFacts.
Import Resources Ledger Housekeeping.

(** X15.  [busy_cursor] keeps the stack of override cursors in balance.
    With an application, the body runs with the wait cursor shown on top
    of an arrow cursor, and the statement gives the value or the
    exception of the body.  When the body leaves the stack as it finds
    it, the stack after the statement is the stack before it, also when
    the body raises; so the statement can be nested.  Without an
    application it only runs the body. *)
Theorem busy_cursor_restores (body : gui_block) (g : gui) :
  (forall g0, override_cursors (body g0).1 = override_cursors g0) ->
  let r := busy_cursor body g in
  override_cursors r.1 = override_cursors g /\
  if has_instance g then
    exists g1,
      override_cursors g1 = WaitCursor :: ArrowCursor :: override_cursors g /\
      gui_calls g1 =
        (gui_calls g ++ [SetOverrideCursor ArrowCursor; SetOverrideCursor WaitCursor;
                         ProcessEvents])%list /\
      r.2 = (body g1).2 /\
      gui_calls r.1 =
        (gui_calls (body g1).1 ++
         [RestoreOverrideCursor; RestoreOverrideCursor; ProcessEvents])%list
  else r = body g.
Proof.
  intros Hb. simpl. unfold busy_cursor.
  destruct (has_instance g) eqn:Hi.
  - set (g1 := processEvents _).
    pose proof (Hb g1) as H1.
    destruct (body g1) as [g2 r] eqn:Hbody. simpl in *.
    split; [by rewrite H1|].
    exists g1. rewrite Hbody. simpl. split_and!; [done| |done|].
    + by rewrite <- !app_assoc.
    + by rewrite <- !app_assoc.
  - split; [apply Hb|done].
Qed.

Lemma busy_cursor_restores_witness :
  let r := busy_cursor (busy_cursor careful_body) window in
  override_cursors r.1 = [OtherCursor 1].
Proof.
  apply (busy_cursor_restores (busy_cursor careful_body) window).
  intros g0. apply (busy_cursor_restores careful_body g0). by intros [].
Defined.

(** One turn of the loop of [_cleanup_old_resources]. *)
Lemma cleanup_old_resource_spec objects now (item : nat * Z) w :
  _resource_timestamps (self w) !! item.1 = Some item.2 ->
  exists ev,
    cleanup_old_resource objects now item w =
      (mkWorld
         (if bool_decide (now - item.2 > _max_resource_age (self w))
          then set_resource_timestamps (delete item.1 (_resource_timestamps (self w)))
                 (set_com_objects (_com_objects (self w) ∖ {[item.1]}) (self w))
          else self w)
         (disk w) (trace w ++ ev), Ok tt) /\
    forall e, e ∈ ev ->
      e = Quit item.1 /\ item.1 ∈ _com_objects (self w) /\
      now - item.2 > _max_resource_age (self w) /\ has_Quit (objects item.1) = true.
Proof.
  intros Hts. unfold cleanup_old_resource, bind, read, when. simpl.
  destruct (bool_decide (now - item.2 > _max_resource_age (self w))) eqn:Hage.
  - apply bool_decide_eq_true in Hage.
    destruct (bool_decide (item.1 ∈ _com_objects (self w))) eqn:Htr.
    + apply bool_decide_eq_true in Htr.
      unfold pop_timestamp, try_except, update, do, ret, raise. simpl.
      destruct (has_Quit (objects item.1)) eqn:Hq; simpl.
      * exists [Quit item.1].
        destruct (quit_raises (objects item.1)) as [qe|]; simpl; rewrite Hts;
          (split; [done|]); by intros e ->%list_elem_of_singleton.
      * exists []. rewrite Hts, app_nil_r. simpl. split; [done|]. intros e He. inversion He.
    + apply bool_decide_eq_false in Htr.
      unfold pop_timestamp, update, ret. simpl. rewrite Hts. exists []. rewrite app_nil_r.
      simpl.
      split; [|intros e He; inversion He]. do 3 f_equal.
      destruct w as [[] ? ?]. unfold set_com_objects. simpl in *. f_equal. set_solver.
  - exists []. rewrite app_nil_r. unfold ret. split; [by destruct w|].
    intros e He. inversion He.
Qed.

Lemma cleanup_old_loop_spec objects now (items : list (nat * Z)) w :
  NoDup items.*1 ->
  (forall it, it ∈ items -> _resource_timestamps (self w) !! it.1 = Some it.2) ->
  exists w' ev,
    cleanup_old_loop objects now items w = (w', Ok tt) /\
    trace w' = (trace w ++ ev)%list /\ disk w' = disk w /\
    _max_resource_age (self w') = _max_resource_age (self w) /\
    _temp_files (self w') = _temp_files (self w) /\
    _temp_directories (self w') = _temp_directories (self w) /\
    (forall id t, (id, t) ∈ items -> now - t > _max_resource_age (self w) ->
       _resource_timestamps (self w') !! id = None /\ id ∉ _com_objects (self w')) /\
    (forall id, (forall t, (id, t) ∈ items -> now - t <= _max_resource_age (self w)) ->
       _resource_timestamps (self w') !! id = _resource_timestamps (self w) !! id /\
       (id ∈ _com_objects (self w') <-> id ∈ _com_objects (self w))) /\
    (forall e, e ∈ ev ->
       exists id t, e = Quit id /\ (id, t) ∈ items /\ id ∈ _com_objects (self w) /\
                    now - t > _max_resource_age (self w) /\ has_Quit (objects id) = true).
Proof.
  revert w. induction items as [|[k t0] items IH]; intros w Hnd Hts.
  { exists w, []. rewrite app_nil_r. split_and!; try done.
    - intros id t Hin. inversion Hin.
    - intros e He. inversion He. }
  cbn [cleanup_old_loop]. unfold bind at 1.
  destruct (cleanup_old_resource_spec objects now (k, t0) w) as (ev1 & -> & Hev1).
  { apply (Hts (k, t0)). by left. }
  simpl in Hev1. rewrite fmap_cons in Hnd. cbn [fst snd] in *.
  apply NoDup_cons in Hnd as [Hk Hnd].
  set (w1 := mkWorld _ (disk w) (trace w ++ ev1)).
  assert (Hm1 : _max_resource_age (self w1) = _max_resource_age (self w)).
  { simpl. by destruct (bool_decide _). }
  assert (Hother : forall id, id <> k ->
            _resource_timestamps (self w1) !! id = _resource_timestamps (self w) !! id /\
            (id ∈ _com_objects (self w1) <-> id ∈ _com_objects (self w))).
  { intros id Hne. simpl. destruct (bool_decide _); [|done]. simpl.
    rewrite lookup_delete_ne by done. split; [done|set_solver]. }
  destruct (IH w1 Hnd) as (w' & ev2 & -> & Htr & Hdisk & Hm & Hf & Hd & Hold & Hyoung & Hev2).
  { intros it Hit. destruct (Hother it.1) as [-> _].
    - intros Heq. apply Hk. rewrite <- Heq. by apply (list_elem_of_fmap_2 fst items it).
    - apply Hts. by right. }
  exists w', (ev1 ++ ev2)%list. rewrite Hm1 in *.
  split_and!.
  - done.
  - rewrite Htr. simpl. by rewrite app_assoc.
  - by rewrite Hdisk.
  - done.
  - rewrite Hf. simpl. by destruct (bool_decide _).
  - rewrite Hd. simpl. by destruct (bool_decide _).
  - intros id t [[= -> ->]|Hin]%elem_of_cons Hage; [|by apply (Hold id t)].
    destruct (Hyoung k) as [-> Hc].
    { intros t Hin. destruct Hk. apply (list_elem_of_fmap_2 fst items (k, t) Hin). }
    rewrite Hc. simpl. rewrite bool_decide_eq_true_2 by done. simpl.
    rewrite lookup_delete_eq. split; [done|set_solver].
  - intros id Hall. destruct (Hyoung id) as [-> Hc].
    { intros t Hin. apply Hall. by right. }
    rewrite Hc. destruct (decide (id = k)) as [->|Hne]; [|by apply Hother].
    simpl. rewrite bool_decide_eq_false_2; [done|].
    pose proof (Hall t0 ltac:(by left)). lia.
  - intros e [He|He]%elem_of_app.
    + destruct (Hev1 e He) as (-> & H1 & H2 & H3). exists k, t0. split_and!; try done. by left.
    + destruct (Hev2 e He) as (id & t & -> & H1 & H2 & H3 & H4).
      exists id, t. split_and!; try done; [by right|].
      destruct (decide (id = k)) as [->|Hne].
      * destruct Hk. apply (list_elem_of_fmap_2 fst items (k, t) H1).
      * by apply Hother.
Qed.

(** X16.  [_cleanup_old_resources] releases by age.  Whatever the order
    in which the dictionary gives its entries, the method returns (an
    exception of [Quit] is passed over), every timestamp older than
    [_max_resource_age] leaves the dictionary together with the tracked
    object of its identity, the younger entries and the other objects
    stay, and [Quit] is called only on tracked objects with an old
    timestamp that have the method.  The disk and the tracked files and
    directories are untouched. *)
Theorem cleanup_old_resources_by_age (objects : nat -> com_object) (now : Z)
    (items : list (nat * Z)) (w : world) :
  items ≡ₚ map_to_list (_resource_timestamps (self w)) ->
  let r := _cleanup_old_resources objects now items w in
  r.2 = Ok tt /\ disk r.1 = disk w /\
  _temp_files (self r.1) = _temp_files (self w) /\
  _temp_directories (self r.1) = _temp_directories (self w) /\
  (forall id,
     _resource_timestamps (self r.1) !! id =
       match _resource_timestamps (self w) !! id with
       | Some t => if bool_decide (now - t > _max_resource_age (self w)) then None else Some t
       | None => None
       end) /\
  (forall id,
     id ∈ _com_objects (self r.1) <->
     id ∈ _com_objects (self w) /\
     forall t, _resource_timestamps (self w) !! id = Some t ->
               now - t <= _max_resource_age (self w)) /\
  (forall e, e ∈ since w r.1 ->
     exists id t, e = Quit id /\ id ∈ _com_objects (self w) /\
                  _resource_timestamps (self w) !! id = Some t /\
                  now - t > _max_resource_age (self w) /\ has_Quit (objects id) = true).
Proof.
  intros Hitems. simpl. unfold _cleanup_old_resources.
  assert (Hin : forall id t, (id, t) ∈ items <-> _resource_timestamps (self w) !! id = Some t).
  { intros id t. rewrite Hitems. apply elem_of_map_to_list. }
  destruct (cleanup_old_loop_spec objects now items w)
    as (w' & ev & -> & Htr & Hdisk & Hm & Hf & Hd & Hold & Hyoung & Hev).
  { rewrite Hitems. apply NoDup_fst_map_to_list. }
  { intros [id t] Hit. by apply Hin. }
  simpl. split_and!; try done.
  - intros id. destruct (_resource_timestamps (self w) !! id) as [t|] eqn:Hts.
    + destruct (bool_decide (now - t > _max_resource_age (self w))) eqn:Hage.
      * apply bool_decide_eq_true in Hage. apply (Hold id t); [by apply Hin|done].
      * apply bool_decide_eq_false in Hage. destruct (Hyoung id) as [-> _]; [|done].
        intros t' Ht'%Hin. assert (t' = t) as -> by congruence. lia.
    + destruct (Hyoung id) as [-> _]; [|done]. intros t' Ht'%Hin. congruence.
  - intros id. split.
    + intros Hc.
      assert (Hy : forall t, _resource_timestamps (self w) !! id = Some t ->
                             now - t <= _max_resource_age (self w)).
      { intros t Ht. destruct (decide (now - t > _max_resource_age (self w))) as [Hage|]; [|lia].
        destruct (Hold id t) as [_ Hn]; [by apply Hin|done|done]. }
      split; [|done]. apply Hyoung; [|done]. intros t Ht%Hin. by apply Hy.
    + intros [Hc Hy]. apply Hyoung; [|done]. intros t Ht%Hin. by apply Hy.
  - intros e He. unfold since in He. rewrite Htr, drop_app_length in He.
    destruct (Hev e He) as (id & t & -> & H1 & H2 & H3 & H4).
    exists id, t. split_and!; try done. by apply Hin.
Qed.

Lemma cleanup_old_resources_by_age_witness :
  let r := _cleanup_old_resources stubborn 4000 [(1%nat, 10); (2%nat, 5000)] two_objects in
  r.2 = Ok tt /\
  _resource_timestamps (self r.1) !! 1%nat = None /\
  _resource_timestamps (self r.1) !! 2%nat = Some 5000.
Proof.
  destruct (cleanup_old_resources_by_age stubborn 4000 [(1%nat, 10); (2%nat, 5000)] two_objects)
    as (H1 & _ & _ & _ & H5 & _).
  { simpl. rewrite map_to_list_insert by done.
    rewrite map_to_list_insert by done. by rewrite map_to_list_empty. }
  split; [exact H1|]. split; [exact (H5 1%nat)|exact (H5 2%nat)].
Defined.
End HousekeepingFacts.
